(** * RSVP reader: a shallow embedding of [src/App.jsx]

    The development follows the helpers of the reader component:
    [getORPIndex], [splitWord], [normalizeTrailingForPause],
    [getPauseMultiplier], [normalizeWords], the [chapterStarts] table, the
    playback interval effect, [togglePlay], the restore step of [parseBook]
    and the [contextLines] composer.

    JavaScript strings are sequences of UTF-16 code units; the regular
    expressions of the source carry no [u] flag, so they work on code units
    too.  A string is therefore a [list N].  Positions in the token stream
    are integers ([Z]); the rate and the delays are binary64 numbers. *)

From Stdlib Require Import List Sorted ZArith NArith Bool Lia Ascii String Floats.
From Equations Require Import Equations.
Import ListNotations.

Set Warnings "-inexact-float,-register-all".

(** ** JavaScript strings *)

Module JS.

Definition char : Type := N.
Definition jsstring : Type := list char.

(** An ASCII literal, one code unit per character. *)
Definition lit (s : string) : jsstring :=
  List.map N_of_ascii (list_ascii_of_string s).

(** Code units the source names that are not ASCII, or that a Rocq string
    cannot hold. *)
Definition dquote : char := 34%N.          (* U+0022 *)
Definition apostrophe : char := 39%N.      (* U+0027 *)
Definition hyphen : char := 45%N.          (* U+002D *)
Definition guillemet_r : char := 187%N.    (* U+00BB *)
Definition en_dash : char := 8211%N.       (* U+2013 *)
Definition em_dash : char := 8212%N.       (* U+2014 *)
Definition rsquo : char := 8217%N.         (* U+2019 *)
Definition rdquo : char := 8221%N.         (* U+201D *)
Definition ellipsis : char := 8230%N.      (* U+2026 *)
Definition space : char := 32%N.

(** [.length], of a string or of an array. *)
Definition jslength {A : Type} (s : list A) : Z := Z.of_nat (List.length s).

(** [one_of cs] is the character class [[cs]]. *)
Definition one_of (cs : list char) (c : char) : bool :=
  existsb (N.eqb c) cs.

Definition in_range (lo hi c : char) : bool :=
  (N.leb lo c && N.leb c hi)%bool.

(** [[A-Za-z0-9]] *)
Definition alnum (c : char) : bool :=
  (in_range 65 90 c || in_range 97 122 c || in_range 48 57 c)%N%bool.

(** [[^A-Za-z0-9]] *)
Definition not_alnum (c : char) : bool := negb (alnum c).

(** [\s]: WhiteSpace and LineTerminator code units. *)
Definition is_space (c : char) : bool :=
  (in_range 9 13 c
   || one_of [32; 160; 5760; 8232; 8233; 8239; 8287; 12288; 65279] c
   || in_range 8192 8202 c)%N%bool.

(** *** Backtracking regular expressions

    The fragment the source uses: anchors, character classes, greedy
    repetition of a class, sequence, alternation and capture groups that
    are neither nested nor under an alternation.  [run] lists the ways a
    pattern can match at a position in the order a backtracking matcher
    tries them, so the head of the list is the match JavaScript reports. *)

Inductive regex : Type :=
| Bol                              (* ^ *)
| Eol                              (* $ *)
| Cls (p : char -> bool)           (* [...] or a literal *)
| Star (p : char -> bool)          (* [...]* *)
| Seq (r1 r2 : regex)
| Alt (r1 r2 : regex)              (* r1|r2 *)
| Grp (r : regex).                 (* ( r ) *)

Definition Plus (p : char -> bool) : regex := Seq (Cls p) (Star p).
Definition Lit (c : char) : regex := Cls (N.eqb c).

Record mstate : Type := MState {
  pos : nat;                 (* index of the next code unit *)
  rest : jsstring;           (* the input from [pos] on *)
  caps : list jsstring       (* groups closed so far, in order *)
}.

Fixpoint star_run (p : char -> bool) (i : nat) (s : jsstring)
    (cs : list jsstring) : list mstate :=
  match s with
  | c :: s' =>
      if p c then star_run p (S i) s' cs ++ [MState i s cs]
      else [MState i s cs]
  | [] => [MState i s cs]
  end.

Fixpoint run (r : regex) (st : mstate) : list mstate :=
  match r with
  | Bol => if Nat.eqb (pos st) 0 then [st] else []
  | Eol => match rest st with [] => [st] | _ :: _ => [] end
  | Cls p =>
      match rest st with
      | c :: s' => if p c then [MState (S (pos st)) s' (caps st)] else []
      | [] => []
      end
  | Star p => star_run p (pos st) (rest st) (caps st)
  | Seq r1 r2 => flat_map (run r2) (run r1 st)
  | Alt r1 r2 => run r1 st ++ run r2 st
  | Grp r' =>
      List.map
        (fun st' =>
           MState (pos st') (rest st')
                  (caps st' ++ [firstn (pos st' - pos st) (rest st)]))
        (run r' st)
  end.

(** The match that starts exactly at index [i], where [suffix] is the
    input from [i] on. *)
Definition match_at (r : regex) (i : nat) (suffix : jsstring) : option mstate :=
  hd_error (run r (MState i suffix [])).

(** [RegExp.prototype.exec] from index [i]: the leftmost start that
    matches.  Returns the start index, the matched text and the state. *)
Fixpoint exec_from (r : regex) (i : nat) (suffix : jsstring)
    : option (nat * jsstring * mstate) :=
  match match_at r i suffix with
  | Some st => Some (i, firstn (pos st - i) suffix, st)
  | None =>
      match suffix with
      | [] => None
      | _ :: s' => exec_from r (S i) s'
      end
  end.

(** [re.test(s)] for a pattern without the [g] flag. *)
Definition test (r : regex) (s : jsstring) : bool :=
  match exec_from r 0 s with Some _ => true | None => false end.

(** [s.match(re)] for a pattern without the [g] flag: [None] is [null],
    otherwise the array of the whole match followed by the groups. *)
Definition match_ (r : regex) (s : jsstring) : option (list jsstring) :=
  match exec_from r 0 s with
  | Some (_, whole, st) => Some (whole :: caps st)
  | None => None
  end.

(** Replacement templates: literal text and [$n]. *)
Inductive titem : Type :=
| TLit (c : char)
| TGrp (n : nat).

Definition expand (t : list titem) (cs : list jsstring) : jsstring :=
  flat_map
    (fun it =>
       match it with
       | TLit c => [c]
       | TGrp n => nth (n - 1) cs []
       end) t.

(** [s.replace(re, template)] for a pattern with the [g] flag: the
    leftmost matches that do not overlap are replaced, scanning left to
    right; after an empty match the scan moves on by one code unit.
    [skip] counts the code units of the current match still to drop. *)
Fixpoint replace_scan (r : regex) (t : list titem) (i : nat)
    (suffix : jsstring) (skip : nat) : jsstring :=
  match skip with
  | S k =>
      match suffix with
      | [] => []
      | _ :: s' => replace_scan r t (S i) s' k
      end
  | O =>
      match match_at r i suffix with
      | Some st =>
          expand t (caps st) ++
          match suffix with
          | [] => []
          | c :: s' =>
              match pos st - i with
              | O => c :: replace_scan r t (S i) s' 0
              | S k => replace_scan r t (S i) s' k
              end
          end
      | None =>
          match suffix with
          | [] => []
          | c :: s' => c :: replace_scan r t (S i) s' 0
          end
      end
  end.

Definition replace_g (r : regex) (t : list titem) (s : jsstring) : jsstring :=
  replace_scan r t 0 s 0.

(** [s.trim()] *)
Fixpoint drop_while (p : char -> bool) (s : jsstring) : jsstring :=
  match s with
  | c :: s' => if p c then drop_while p s' else s
  | [] => []
  end.

Definition trim (s : jsstring) : jsstring :=
  rev (drop_while is_space (rev (drop_while is_space s))).

(** [s.split(re)] without a limit, for a pattern without groups.  The
    scan keeps [p], the end of the last separator, and [cur], the text
    since [p]; a match at [q] that ends at [p] is ignored. *)
Fixpoint split_scan (r : regex) (q : nat) (suffix : jsstring)
    (p : nat) (cur : jsstring) (skip : nat) : list jsstring :=
  match suffix with
  | [] => [cur]
  | c :: s' =>
      match skip with
      | S k => split_scan r (S q) s' p [] k
      | O =>
          match match_at r q suffix with
          | Some st =>
              let e := pos st in
              if Nat.eqb e p then split_scan r (S q) s' p (cur ++ [c]) 0
              else
                match e - q with
                | O => cur :: split_scan r (S q) s' e [c] 0
                | S k => cur :: split_scan r (S q) s' e [] k
                end
          | None => split_scan r (S q) s' p (cur ++ [c]) 0
          end
      end
  end.

Definition split (r : regex) (s : jsstring) : list jsstring :=
  match s with
  | [] => match match_at r 0 [] with Some _ => [] | None => [[]] end
  | _ :: _ => split_scan r 0 s 0 [] 0
  end.

(** [a.join(sep)] *)
Fixpoint join (sep : jsstring) (l : list jsstring) : jsstring :=
  match l with
  | [] => []
  | [w] => w
  | w :: l' => w ++ sep ++ join sep l'
  end.

End JS.

Import JS.

(** ** Word helpers *)

(** [getORPIndex] *)
Definition getORPIndex (word : jsstring) : Z :=
  let length := jslength word in
  if (length <=? 1)%Z then 0%Z
  else if (length <=? 5)%Z then 1%Z
  else if (length <=? 9)%Z then 2%Z
  else if (length <=? 13)%Z then 3%Z
  else 4%Z.

Record parts : Type := Parts {
  leading : jsstring;
  core : jsstring;
  trailing : jsstring
}.

(** [[A-Za-z0-9'’\-]] *)
Definition core_char (c : char) : bool :=
  (alnum c || one_of [apostrophe; rsquo; hyphen] c)%bool.

(** The pattern of [splitWord], group by group:
    [^]   [( [^A-Za-z0-9]* )]   [( [A-Za-z0-9] [A-Za-z0-9'’\-]* )]
    [( [^A-Za-z0-9]* )]   [$] *)
Definition word_re : regex :=
  Seq Bol
    (Seq (Grp (Star not_alnum))
       (Seq (Grp (Seq (Cls alnum) (Star core_char)))
          (Seq (Grp (Star not_alnum)) Eol))).

(** [splitWord] *)
Definition splitWord (word : jsstring) : parts :=
  match match_ word_re word with
  | None => Parts [] word []
  | Some m => Parts (nth 1 m []) (nth 2 m []) (nth 3 m [])
  end.

(** The closing quotes and brackets of [normalizeTrailingForPause]: the
    double quote, the apostrophe, U+201D, U+2019, the closing parenthesis,
    bracket and brace, and U+00BB. *)
Definition closers : list char :=
  [dquote; apostrophe; rdquo; rsquo; 41%N; 93%N; 125%N; guillemet_r].

(** One or more closers, then the end of the string. *)
Definition closers_re : regex := Seq (Plus (one_of closers)) Eol.

(** [normalizeTrailingForPause]; the empty string is falsy. *)
Definition normalizeTrailingForPause (trailing : jsstring) : jsstring :=
  match trailing with
  | [] => []
  | _ :: _ => replace_g closers_re [] trailing
  end.

(** [.], [?], [!] and U+2026. *)
Definition sentence_end : list char := [46%N; 63%N; 33%N; ellipsis].
(** [:] and [;]. *)
Definition colon_like : list char := [58%N; 59%N].
Definition comma : char := 44%N.

Definition sentence_re : regex := Seq (Plus (one_of sentence_end)) Eol.
Definition colon_re : regex := Seq (Plus (one_of colon_like)) Eol.
Definition comma_re : regex := Seq (Plus (N.eqb comma)) Eol.
(** U+2014, or U+2013, or two hyphens. *)
Definition dash_re : regex :=
  Alt (Lit em_dash) (Alt (Lit en_dash) (Seq (Lit hyphen) (Lit hyphen))).

(** [getPauseMultiplier] *)
Definition getPauseMultiplier (word : jsstring) : float :=
  let trailing := trailing (splitWord word) in
  let cleanedTrailing := normalizeTrailingForPause trailing in
  if test sentence_re cleanedTrailing then 2.6%float
  else if test colon_re cleanedTrailing then 1.9%float
  else if test comma_re cleanedTrailing then 1.4%float
  else if test dash_re word then 1.6%float
  else 1%float.

(** ** Tokenizer *)

Definition dash_class : char -> bool := one_of [em_dash; en_dash].

(** A dash between two alphanumerics, three groups. *)
Definition glued_dash_re : regex :=
  Seq (Grp (Cls alnum)) (Seq (Grp (Cls dash_class)) (Grp (Cls alnum))).

(** A dash with the white space around it, one group. *)
Definition spaced_dash_re : regex :=
  Seq (Star is_space) (Seq (Grp (Cls dash_class)) (Star is_space)).

(** [/\s+/] *)
Definition spaces_re : regex := Plus is_space.

(** The candidates of [normalizeWords]: the text after the two dash
    replacements, trimmed and split on white space. *)
Definition candidates (text : jsstring) : list jsstring :=
  let normalized :=
    replace_g spaced_dash_re [TLit space; TGrp 1; TLit space]
      (replace_g glued_dash_re [TGrp 1; TGrp 2; TLit space; TGrp 3] text) in
  split spaces_re (trim normalized).

(** [normalizeWords] *)
Definition normalizeWords (text : jsstring) : list jsstring :=
  filter (fun word => (jslength (core (splitWord word)) >? 0)%Z)
         (candidates text).

(** ** Reader state *)

Record tocItem : Type := TocItem {
  label : jsstring;
  index : Z
}.

Record reader : Type := Reader {
  words : list jsstring;
  currentIndex : Z;
  isPlaying : bool;
  wpm : float;
  toc : list tocItem
}.

(** [words[i]], [None] for [undefined]. *)
Definition word_at (ws : list jsstring) (i : Z) : option jsstring :=
  if (i <? 0)%Z then None else nth_error ws (Z.to_nat i).

(** [starts.sort((a, b) => a - b)]: on integers the comparator is a total
    order, so the result is the ascending arrangement. *)
Fixpoint insert_asc (x : Z) (l : list Z) : list Z :=
  match l with
  | [] => [x]
  | y :: l' => if (x <=? y)%Z then x :: l else y :: insert_asc x l'
  end.

Definition sort_asc (l : list Z) : list Z := fold_right insert_asc [] l.

(** [Array.from(new Set(starts))]: first occurrences, in order. *)
Fixpoint dedupe (seen l : list Z) : list Z :=
  match l with
  | [] => []
  | x :: l' =>
      if existsb (Z.eqb x) seen then dedupe seen l'
      else x :: dedupe (x :: seen) l'
  end.

(** [Number.isFinite] on an index: [parseEpub] records the running word
    count, an integer. *)
Definition isFinite (idx : Z) : bool := true.

(** [chapterStarts] *)
Definition chapterStarts (toc : list tocItem) : list Z :=
  match toc with
  | [] => []
  | _ :: _ =>
      let starts := sort_asc (filter isFinite (List.map index toc)) in
      match starts with
      | [] => []
      | s0 :: _ =>
          dedupe [] (if negb (s0 =? 0)%Z then 0%Z :: starts else starts)
      end
  end.

(** ** Playback *)

(** [togglePlay] *)
Definition togglePlay (st : reader) : reader :=
  Reader (words st) (currentIndex st) (negb (isPlaying st)) (wpm st) (toc st).

(** [setWpm] *)
Definition setWpm (w : float) (st : reader) : reader :=
  Reader (words st) (currentIndex st) (isPlaying st) w (toc st).

(** The guard of the interval effect and the delay of the timeout it
    sets; [None] when the effect clears the timeout and returns. *)
Definition scheduled (st : reader) : option float :=
  if (negb (isPlaying st) || PrimFloat.leb (wpm st) 0
      || (jslength (words st) =? 0)%Z)%bool
  then None
  else
    let current :=
      match word_at (words st) (currentIndex st) with
      | Some w => w
      | None => []
      end in
    Some ((60000 / wpm st) * getPauseMultiplier current)%float.

(** The loop that looks for the first chapter start after [prev]. *)
Fixpoint nextStartAfter (starts : list Z) (prev : Z) : option Z :=
  match starts with
  | [] => None
  | c :: starts' =>
      if (c >? prev)%Z then Some c else nextStartAfter starts' prev
  end.

(** The updater the timeout runs. *)
Definition onTimeout (st : reader) : reader :=
  let prev := currentIndex st in
  let starts := chapterStarts (toc st) in
  if (prev >=? jslength (words st) - 1)%Z then
    Reader (words st) prev false (wpm st) (toc st)
  else
    let next :=
      if (jslength starts >? 1)%Z then
        match nextStartAfter starts prev with
        | Some nextStart =>
            let chapterEnd := (nextStart - 1)%Z in
            if (prev >=? chapterEnd)%Z then nextStart else (prev + 1)%Z
        | None => (prev + 1)%Z
        end
      else (prev + 1)%Z in
    Reader (words st) next (isPlaying st) (wpm st) (toc st).

(** One tick: the timeout fires if the effect has set one. *)
Definition tick (st : reader) : reader :=
  match scheduled st with
  | Some _ => onTimeout st
  | None => st
  end.

(** ** Restoring the saved position

    [localStorage] and [JSON.parse] are outside the repository.  What
    [parseBook] can find under the progress key is classified by what
    [JSON.parse] does with it. *)

Inductive json : Type :=
| JNull
| JBool (b : bool)
| JNum (n : Z)
| JStr (s : jsstring)
| JArr (l : list json)
| JObj (fields : list (string * json)).

Inductive stored : Type :=
| Missing                (* getItem gives null, which parses to null *)
| Corrupt                (* a text JSON.parse rejects: SyntaxError *)
| Parses (v : json).     (* a text JSON.parse reads as [v] *)

(** [JSON.parse(localStorage.getItem(key))]; [None] is the exception. *)
Definition JSON_parse (item : stored) : option json :=
  match item with
  | Missing => Some JNull
  | Corrupt => None
  | Parses v => Some v
  end.

(** The value as a condition. *)
Definition truthy (v : json) : bool :=
  match v with
  | JNull => false
  | JBool b => b
  | JNum n => negb (n =? 0)%Z
  | JStr s => match s with [] => false | _ :: _ => true end
  | JArr _ => true
  | JObj _ => true
  end.

(** [v.key] on a value that is not null; [None] is [undefined]. *)
Definition prop (v : json) (key : string) : option json :=
  match v with
  | JObj fields =>
      match find (fun kv => String.eqb (fst kv) key) fields with
      | Some kv => Some (snd kv)
      | None => None
      end
  | _ => None
  end.

(** What [parseBook] leaves once the words are known. *)
Record session : Type := Session {
  s_words : list jsstring;
  s_toc : list tocItem;
  s_currentIndex : json;
  s_bookmarks : json;
  s_isLoading : bool
}.

Inductive outcome : Type :=
| Opened (s : session)
| Aborted.               (* the catch handler: alert, then onBack() *)

(** A setter called only when the saved field is truthy. *)
Definition restored (saved : json) (key : string) (initial : json) : json :=
  if truthy saved then
    match prop saved key with
    | Some v => if truthy v then v else initial
    | None => initial
    end
  else initial.

(** The tail of [parseBook], from [setWords] on. *)
Definition restoreLocation (resultWords : list jsstring)
    (resultToc : list tocItem) (item : stored) : outcome :=
  match JSON_parse item with
  | None => Aborted
  | Some saved =>
      Opened (Session resultWords resultToc
                (restored saved "currentIndex" (JNum 0))
                (restored saved "bookmarks" (JArr []))
                false)
  end.

(** ** Context lines *)

Record line : Type := Line {
  text : jsstring;
  distance : Z
}.

(** The inner loop of the lines before the current word.  It returns the
    words of the line and the new [leftIdx]; [None] is the [TypeError] of
    [w.length] on [undefined]. *)
Equations? beforeLine (ws : list jsstring) (maxChars : Z) (leftIdx : Z)
    (lineWords : list jsstring) (len : Z) : option (list jsstring * Z)
    by wf (Z.to_nat (leftIdx + 1)) lt :=
  beforeLine ws maxChars leftIdx lineWords len with Z_le_gt_dec 0 leftIdx := {
    | right _ => Some (lineWords, leftIdx)
    | left _ with word_at ws leftIdx := {
        | None => None
        | Some w =>
            let add := (jslength w + (if len >? 0 then 1 else 0))%Z in
            if ((len + add >? maxChars) && (len >? 0))%Z%bool
            then Some (lineWords, leftIdx)
            else beforeLine ws maxChars (leftIdx - 1) (w :: lineWords)
                            (len + add) } }.
Proof. lia. Qed.

(** The inner loop of the lines after the current word. *)
Equations? afterLine (ws : list jsstring) (maxChars : Z) (rightIdx : Z)
    (lineWords : list jsstring) (len : Z) : option (list jsstring * Z)
    by wf (Z.to_nat (jslength ws - rightIdx)) lt :=
  afterLine ws maxChars rightIdx lineWords len
    with Z_lt_ge_dec rightIdx (jslength ws) := {
    | right _ => Some (lineWords, rightIdx)
    | left _ with word_at ws rightIdx := {
        | None => None
        | Some w =>
            let add := (jslength w + (if len >? 0 then 1 else 0))%Z in
            if ((len + add >? maxChars) && (len >? 0))%Z%bool
            then Some (lineWords, rightIdx)
            else afterLine ws maxChars (rightIdx + 1) (lineWords ++ [w])
                           (len + add) } }.
Proof. lia. Qed.

(** [if (lineWords.length > 0) lines.push(...)] *)
Definition pushLine (lines : list line) (lineWords : list jsstring) (i : Z)
    : list line :=
  if (jslength lineWords >? 0)%Z
  then lines ++ [Line (join [space] lineWords) (i + 1)]
  else lines.

(** The outer loops; [n] counts the iterations left, [linesBefore - i]. *)
Fixpoint beforeLoop (ws : list jsstring) (maxChars : Z) (n : nat) (i : Z)
    (leftIdx : Z) (before : list line) : option (list line) :=
  match n with
  | O => Some before
  | S n' =>
      if (leftIdx >=? 0)%Z then
        match beforeLine ws maxChars leftIdx [] 0 with
        | None => None
        | Some (lineWords, leftIdx') =>
            beforeLoop ws maxChars n' (i + 1) leftIdx'
                       (pushLine before lineWords i)
        end
      else Some before
  end.

Fixpoint afterLoop (ws : list jsstring) (maxChars : Z) (n : nat) (i : Z)
    (rightIdx : Z) (after : list line) : option (list line) :=
  match n with
  | O => Some after
  | S n' =>
      if (rightIdx <? jslength ws)%Z then
        match afterLine ws maxChars rightIdx [] 0 with
        | None => None
        | Some (lineWords, rightIdx') =>
            afterLoop ws maxChars n' (i + 1) rightIdx'
                      (pushLine after lineWords i)
        end
      else Some after
  end.

Inductive context : Type :=
| NoContext                                  (* the empty array *)
| Context (before after : list line).

(** [contextLines]; [None] is an exception. *)
Definition contextLines (altReadingMode : bool) (ws : list jsstring)
    (currentIndex contextLineChars : Z) : option context :=
  if (negb altReadingMode || (jslength ws =? 0)%Z)%bool then Some NoContext
  else
    let maxChars := Z.max 18 contextLineChars in
    let linesBefore := 3%nat in
    let linesAfter := 3%nat in
    let left := (currentIndex - 1)%Z in
    let right := (currentIndex + 1)%Z in
    match beforeLoop ws maxChars linesBefore 0 left [] with
    | None => None
    | Some before =>
        match afterLoop ws maxChars linesAfter 0 right [] with
        | None => None
        | Some after => Some (Context (rev before) after)
        end
    end.

(** ** The properties, in the words of the specification *)

(** A core: an alphanumeric, then alphanumerics, apostrophes and hyphens. *)
Definition core_shape (c : jsstring) : bool :=
  match c with
  | a :: c' => (alnum a && forallb core_char c')%bool
  | [] => false
  end.

(** All the ways to cut a string in two, and in three. *)
Fixpoint splits2 (s : jsstring) : list (jsstring * jsstring) :=
  match s with
  | [] => [([], [])]
  | c :: s' =>
      ([], s) :: List.map (fun ab => (c :: fst ab, snd ab)) (splits2 s')
  end.

Definition splits3 (s : jsstring) : list (jsstring * jsstring * jsstring) :=
  flat_map
    (fun ab =>
       List.map (fun cd => (fst ab, fst cd, snd cd)) (splits2 (snd ab)))
    (splits2 s).

(** The token is a non-alphanumeric prefix, a core and a non-alphanumeric
    suffix. *)
Definition has_shape (t : jsstring) : bool :=
  existsb
    (fun lcr =>
       match lcr with
       | (l, c, r) =>
           (forallb not_alnum l && core_shape c && forallb not_alnum r)%bool
       end)
    (splits3 t).

(** The string without its trailing run of characters of the class. *)
Definition strip_trailing (p : char -> bool) (s : jsstring) : jsstring :=
  rev (drop_while p (rev s)).

(** The string ends in a character of the class. *)
Definition ends_with (p : char -> bool) (s : jsstring) : bool :=
  match rev s with
  | c :: _ => p c
  | [] => false
  end.

Fixpoint is_prefix (a s : jsstring) : bool :=
  match a, s with
  | [], _ => true
  | x :: a', y :: s' => (N.eqb x y && is_prefix a' s')%bool
  | _ :: _, [] => false
  end.

(** [a] occurs somewhere in [s]. *)
Fixpoint contains (a s : jsstring) : bool :=
  (is_prefix a s
   || match s with
      | [] => false
      | _ :: s' => contains a s'
      end)%bool.

(** The multiplier as the specification words it: the trailing fragment
    without its closing quotes and brackets decides, then the dashes of
    the raw word. *)
Definition specMultiplier (w : jsstring) : float :=
  let t := strip_trailing (one_of closers) (trailing (splitWord w)) in
  if ends_with (one_of sentence_end) t then 2.6%float
  else if ends_with (one_of colon_like) t then 1.9%float
  else if ends_with (N.eqb comma) t then 1.4%float
  else if (contains [em_dash] w || contains [en_dash] w
           || contains [hyphen; hyphen] w)%bool then 1.6%float
  else 1%float.

(** [s] is the smallest chapter start strictly greater than [p]. *)
Definition smallest_after (starts : list Z) (p s : Z) : Prop :=
  In s starts /\ (p < s)%Z /\
  forall c, In c starts -> (p < c)%Z -> (s <= c)%Z.

(** The tick jumps to a chapter start: the table has more than one entry
    and [p] is the position just before the next start. *)
Definition at_chapter_end (starts : list Z) (p : Z) : Prop :=
  (1 < jslength starts)%Z /\
  exists s, smallest_after starts p s /\ p = (s - 1)%Z.

(** [n] consecutive tokens of the stream, from index [i] on. *)
Definition segment (ws : list jsstring) (i n : nat) : list jsstring :=
  firstn n (skipn i ws).

(** A line of the context window: its text is one or more consecutive
    tokens with indices in [lo, hi), joined by single spaces, and it is at
    most [maxChars] long unless it is a single token. *)
Definition line_ok (ws : list jsstring) (maxChars : Z) (lo hi : nat)
    (l : line) : Prop :=
  exists i n,
    lo <= i /\ i + n <= hi /\ 1 <= n /\
    text l = join [space] (segment ws i n) /\
    ((jslength (text l) <= maxChars)%Z \/ n = 1).

(** What the inner loops keep true of the words gathered so far: nothing
    yet, or a text within the limit, or a single word. *)
Definition fits (maxChars : Z) (lw : list jsstring) : Prop :=
  lw = [] \/ (jslength (join [space] lw) <= maxChars)%Z \/ List.length lw = 1.

(** ** The examples of the specification *)

(** The tokens of the context example. *)
Definition spec_tokens : list jsstring :=
  [lit "a"; lit "bb"; lit "ccc"; lit "dddd"; lit "e"].

(** The chapter-skip scenario: six words, chapters at 0 and 4. *)
Definition six_words : list jsstring :=
  [lit "a"; lit "b"; lit "c"; lit "d"; lit "e"; lit "f"].

Definition two_chapters : list tocItem :=
  [TocItem (lit "one") 0; TocItem (lit "two") 4].

(** A stopped reader at rate 0, and one with nothing to read. *)
Definition stopped_at_rate_zero : reader :=
  Reader [lit "one"; lit "two"] 0 false 0 [].

Definition stopped_and_empty : reader := Reader [] 0 false 300 [].

(** A stream of length 10 and a saved record that points past its end. *)
Definition ten_words : list jsstring := repeat (lit "w") 10.

Definition saved_past_end : json :=
  JObj [("currentIndex"%string, JNum 100); ("bookmarks"%string, JArr [JNum 3])].

(** A dash between two words. *)
Definition dashed_text : jsstring := lit "a " ++ [em_dash] ++ lit " b".

(** ** More of the reader: navigation, bookmarks, the word on screen *)

(** [jump] *)
Definition jump (amount : Z) (st : reader) : reader :=
  let prev := currentIndex st in
  let next := (prev + amount)%Z in
  Reader (words st)
         (Z.max 0 (Z.min (jslength (words st) - 1) next))
         (isPlaying st) (wpm st) (toc st).

(** The bookmark button: the current index leaves the list if it is in
    it, and otherwise joins it, the list being sorted again. *)
Definition toggleBookmark (bookmarks : list Z) (currentIndex : Z) : list Z :=
  if existsb (Z.eqb currentIndex) bookmarks
  then filter (fun b => negb (b =? currentIndex)%Z) bookmarks
  else sort_asc (bookmarks ++ [currentIndex]).

(** The three parts of the word on screen. *)
Record display : Type := Display {
  leftPart : jsstring;
  centerChar : jsstring;
  rightPart : jsstring
}.

(** [a || b] on strings: the empty string is falsy. *)
Definition or_else (a b : jsstring) : jsstring :=
  match a with
  | [] => b
  | _ :: _ => a
  end.

(** [s.slice(0, e)], [s.slice(b)] and [s[i] || ""] for indices that are
    not negative, as the ORP index is. *)
Definition slice_to (s : jsstring) (e : Z) : jsstring := firstn (Z.to_nat e) s.
Definition slice_from (s : jsstring) (b : Z) : jsstring := skipn (Z.to_nat b) s.
Definition char_or_empty (s : jsstring) (i : Z) : jsstring :=
  match nth_error s (Z.to_nat i) with
  | Some c => [c]
  | None => []
  end.

(** The rendering of the current word. *)
Definition render (ws : list jsstring) (currentIndex : Z) : display :=
  let currentWord :=
    match word_at ws currentIndex with
    | Some w => w
    | None => []
    end in
  let p := splitWord currentWord in
  let shown := or_else (core p) currentWord in
  let orp := getORPIndex shown in
  Display (leading p ++ slice_to shown orp)
          (char_or_empty shown orp)
          (slice_from shown (orp + 1) ++ trailing p).

(** ** Reading an EPUB *)

(** An entry of the navigation of the book; [subitems] may be
    [undefined]. *)
Inductive navItem : Type :=
| NavItem (nav_label nav_href : jsstring) (subitems : option (list navItem)).

Definition nav_label_of (item : navItem) : jsstring :=
  match item with NavItem l _ _ => l end.

Definition nav_href_of (item : navItem) : jsstring :=
  match item with NavItem _ h _ => h end.

(** [s.includes(sub)] *)
Definition includes (s sub : jsstring) : bool := contains sub s.

(** [href.includes(item.href) || item.href.includes(href)] *)
Definition href_matches (href : jsstring) (item : navItem) : bool :=
  (includes href (nav_href_of item) || includes (nav_href_of item) href)%bool.

(** [findToc], on one entry and on a list of entries. *)
Fixpoint findTocItem (href : jsstring) (item : navItem) {struct item}
    : option navItem :=
  if href_matches href item then Some item
  else
    match item with
    | NavItem _ _ None => None
    | NavItem _ _ (Some l) =>
        (fix loop (l : list navItem) : option navItem :=
           match l with
           | [] => None
           | it :: l' =>
               match findTocItem href it with
               | Some found => Some found
               | None => loop l'
               end
           end) l
    end.

Fixpoint findToc (list : list navItem) (href : jsstring) : option navItem :=
  match list with
  | [] => None
  | item :: list' =>
      match findTocItem href item with
      | Some found => Some found
      | None => findToc list' href
      end
  end.

(** A section of the spine: its reference and the text of its document
    once the parts that are not content are removed; [None] when loading
    it or reading its document throws. *)
Record spineItem : Type := SpineItem {
  sp_href : jsstring;
  sp_text : option jsstring
}.

(** Line feed, carriage return and tab. *)
Definition line_break_or_tab : char -> bool := one_of [10%N; 13%N; 9%N].

(** [rawText.replace(/[\n\r\t]/g, " ").replace(/\s+/g, " ").trim()] *)
Definition cleanText (rawText : jsstring) : jsstring :=
  trim (replace_g spaces_re [TLit space]
          (replace_g (Cls line_break_or_tab) [TLit space] rawText)).

(** One turn of the loop over the spine, on the word list, the chapter
    list and the running word count. *)
Definition parseSection (nav : list navItem)
    (acc : list jsstring * list tocItem * Z) (item : spineItem)
    : list jsstring * list tocItem * Z :=
  match acc with
  | (fullWordList, tocItems, currentWordIndex) =>
      let tocItems :=
        match findToc nav (sp_href item) with
        | Some tocMatch =>
            tocItems ++ [TocItem (nav_label_of tocMatch) currentWordIndex]
        | None => tocItems
        end in
      match sp_text item with
      | None => (fullWordList, tocItems, currentWordIndex)
      | Some rawText =>
          let clean := cleanText rawText in
          if (jslength clean >? 0)%Z then
            let arr := normalizeWords clean in
            (fullWordList ++ arr, tocItems,
             (currentWordIndex + jslength arr)%Z)
          else (fullWordList, tocItems, currentWordIndex)
      end
  end.

(** [parseEpub], from the navigation and the spine on; [None] is the
    error of an empty book. *)
Definition parseEpub (nav : list navItem) (spine : list spineItem)
    : option (list jsstring * list tocItem) :=
  match fold_left (parseSection nav) spine ([], [], 0%Z) with
  | (fullWordList, tocItems, _) =>
      if (jslength fullWordList =? 0)%Z then None
      else Some (fullWordList, tocItems)
  end.

(** ** Saving the position *)

(** The record the save effect writes.  [JSON.stringify] and
    [JSON.parse] are outside the repository: a record of numbers is taken
    to be read back as it was written. *)
Definition progressRecord (currentIndex : Z) (bookmarks : list Z) : json :=
  JObj [("currentIndex"%string, JNum currentIndex);
        ("bookmarks"%string, JArr (List.map JNum bookmarks))].

(** What is under the progress key after the save effect has run, [old]
    being what was there before. *)
Definition saveProgress (ws : list jsstring) (currentIndex : Z)
    (bookmarks : list Z) (old : stored) : stored :=
  if (jslength ws =? 0)%Z then old
  else Parses (progressRecord currentIndex bookmarks).

(** ** The library *)

Record bookMeta : Type := BookMeta {
  b_id : jsstring;
  b_title : jsstring;
  b_author : jsstring;
  b_filename : jsstring;
  b_type : jsstring;
  b_addedAt : Z;
  b_progress : float;
  b_totalWords : Z;
  b_hasCover : bool
}.

(** [a === b] on strings. *)
Fixpoint str_eqb (a b : jsstring) : bool :=
  match a, b with
  | [], [] => true
  | x :: a', y :: b' => (N.eqb x y && str_eqb a' b')%bool
  | _, _ => false
  end.

(** [{ ...b, ...progressData }] *)
Definition withProgress (b : bookMeta) (progress : float) (totalWords : Z)
    : bookMeta :=
  BookMeta (b_id b) (b_title b) (b_author b) (b_filename b) (b_type b)
           (b_addedAt b) progress totalWords (b_hasCover b).

(** The library after [handleUpdateProgress]. *)
Definition handleUpdateProgress (id : jsstring) (progress : float)
    (totalWords : Z) (library : list bookMeta) : list bookMeta :=
  List.map
    (fun b => if str_eqb (b_id b) id then withProgress b progress totalWords
              else b)
    library.

(** The library after [handleDeleteBook]; [confirmed] is the answer to
    the confirmation dialog. *)
Definition handleDeleteBook (confirmed : bool) (id : jsstring)
    (library : list bookMeta) : list bookMeta :=
  if confirmed then filter (fun b => negb (str_eqb (b_id b) id)) library
  else library.

(** The library after [handleAddBook] has built the record of the new
    book. *)
Definition addToLibrary (metadata : bookMeta) (library : list bookMeta)
    : list bookMeta :=
  metadata :: library.

(** ** What the loops compute *)

(** The entries of a navigation tree, parents before children. *)
Fixpoint flattenNav (item : navItem) : list navItem :=
  item ::
  match item with
  | NavItem _ _ None => []
  | NavItem _ _ (Some l) => flat_map flattenNav l
  end.

(** The words a section adds to the stream. *)
Definition sectionWords (item : spineItem) : list jsstring :=
  match sp_text item with
  | None => []
  | Some rawText =>
      if (jslength (cleanText rawText) >? 0)%Z
      then normalizeWords (cleanText rawText)
      else []
  end.

(** The chapters of a spine whose first section starts at word [n]. *)
Fixpoint chaptersFrom (nav : list navItem) (n : Z) (spine : list spineItem)
    : list tocItem :=
  match spine with
  | [] => []
  | item :: spine' =>
      match findToc nav (sp_href item) with
      | Some tocMatch => [TocItem (nav_label_of tocMatch) n]
      | None => []
      end ++ chaptersFrom nav (n + jslength (sectionWords item)) spine'
  end.

(** ** The decomposition and the tokens, read off directly *)

Fixpoint take_while (p : char -> bool) (s : jsstring) : jsstring :=
  match s with
  | c :: s' => if p c then c :: take_while p s' else []
  | [] => []
  end.

(** The decomposition without a pattern: the leading fragment is the
    longest run without an alphanumeric, the core goes on from the first
    alphanumeric through alphanumerics, apostrophes and hyphens as far as
    it can, and what is left must hold no alphanumeric; otherwise the
    word comes back whole. *)
Definition splitDirect (w : jsstring) : parts :=
  match drop_while not_alnum w with
  | [] => Parts [] w []
  | a :: r =>
      if forallb not_alnum (drop_while core_char r)
      then Parts (take_while not_alnum w) (a :: take_while core_char r)
                 (drop_while core_char r)
      else Parts [] w []
  end.

(** The word in hand, if there is one. *)
Definition flush (cur : jsstring) : list jsstring :=
  match cur with
  | [] => []
  | _ :: _ => [cur]
  end.

(** The tokens of a text in one pass: white space ends the word in hand,
    an em-dash or en-dash ends it and is a token of its own, any other
    character joins the word in hand. *)
Fixpoint tokensFrom (s : jsstring) (cur : jsstring) : list jsstring :=
  match s with
  | [] => flush cur
  | c :: s' =>
      if is_space c then flush cur ++ tokensFrom s' []
      else if dash_class c then flush cur ++ [c] :: tokensFrom s' []
      else tokensFrom s' (cur ++ [c])
  end.

Definition tokens (text : jsstring) : list jsstring := tokensFrom text [].

(** The same with white space as the only separator. *)
Fixpoint wordsFrom (s : jsstring) (cur : jsstring) : list jsstring :=
  match s with
  | [] => flush cur
  | c :: s' =>
      if is_space c then flush cur ++ wordsFrom s' []
      else wordsFrom s' (cur ++ [c])
  end.

(** [w.length > 0] *)
Definition nonempty (w : jsstring) : bool :=
  match w with
  | [] => false
  | _ :: _ => true
  end.

(** The tokens of the raw text of a section of the spine. *)
Definition textTokens (item : spineItem) : list jsstring :=
  match sp_text item with
  | None => []
  | Some rawText => tokens rawText
  end.

(** Neither white space nor a dash. *)
Definition plain_char (c : char) : bool :=
  (negb (is_space c) && negb (dash_class c))%bool.

(** A token: a single dash, or a word without white space or dash that
    is not empty. *)
Definition token_shape (w : jsstring) : bool :=
  match w with
  | [] => false
  | [d] => (dash_class d || plain_char d)%bool
  | _ :: _ :: _ => forallb plain_char w
  end.

(** Every dash of the text stands between two white spaces;
    [after_space] says whether the character before the text was one. *)
Fixpoint dashes_spaced (s : jsstring) (after_space : bool) : bool :=
  match s with
  | [] => true
  | c :: s' =>
      if dash_class c then
        (after_space
         && match s' with
            | d :: _ => is_space d
            | [] => false
            end
         && dashes_spaced s' false)%bool
      else dashes_spaced s' (is_space c)
  end.

(** A small book: a preface the navigation does not list, a first
    chapter, a second one nested under it and found by the other
    direction of the match, and an afterword that fails to load. *)
Definition small_nav : list navItem :=
  [NavItem (lit "One") (lit "ch1.xhtml")
     (Some [NavItem (lit "Two") (lit "ch2.xhtml#start") None]);
   NavItem (lit "After") (lit "after.xhtml") (Some [])].

Definition small_spine : list spineItem :=
  [SpineItem (lit "OEBPS/pre.xhtml") (Some (lit "Hi you"));
   SpineItem (lit "OEBPS/ch1.xhtml") (Some (lit " a b" ++ [10%N] ++ lit "c "));
   SpineItem (lit "ch2.xhtml") (Some (lit "d e"));
   SpineItem (lit "OEBPS/after.xhtml") None].

(** Two books of the library. *)
Definition book_one : bookMeta :=
  BookMeta (lit "k3x9a") (lit "One") (lit "A") (lit "one.epub") (lit "epub")
           1 0 0 false.

Definition book_two : bookMeta :=
  BookMeta (lit "z81bq") (lit "Two") (lit "B") (lit "two.txt") (lit "txt")
           2 0 0 false.

(** ** Text files *)

(** The scan of a global replacement with the test for a match left
    open: [m prev i suffix] is the match that starts at index [i], [prev]
    being the code unit before it.  The rest is [replace_scan]. *)
Fixpoint scan_by (m : option char -> nat -> jsstring -> option mstate)
    (t : list titem) (prev : option char) (i : nat) (suffix : jsstring)
    (skip : nat) : jsstring :=
  match skip with
  | S k =>
      match suffix with
      | [] => []
      | c :: s' => scan_by m t (Some c) (S i) s' k
      end
  | O =>
      match m prev i suffix with
      | Some st =>
          expand t (caps st) ++
          match suffix with
          | [] => []
          | c :: s' =>
              match pos st - i with
              | O => c :: scan_by m t (Some c) (S i) s' 0
              | S k => scan_by m t (Some c) (S i) s' k
              end
          end
      | None =>
          match suffix with
          | [] => []
          | c :: s' => c :: scan_by m t (Some c) (S i) s' 0
          end
      end
  end.

(** LF, CR, U+2028 and U+2029. *)
Definition line_terminator : char -> bool := one_of [10; 13; 8232; 8233]%N.

(** Where [^] matches under the [m] flag: at the start of the input and
    after a line terminator. *)
Definition line_start (prev : option char) : bool :=
  match prev with
  | None => true
  | Some c => line_terminator c
  end.

(** [s.replace(re, template)] for a pattern with the flags [g] and [m]
    that begins with [^]; [r] is the pattern after the [^]. *)
Definition replace_gm (r : regex) (t : list titem) (s : jsstring) : jsstring :=
  scan_by (fun prev i suffix =>
             if line_start prev then match_at r i suffix else None)
          t None 0 s 0.

(** The pattern that matches the empty string. *)
Definition nothing : regex := Star (fun _ => false).

(** [[p]{0,n}]: one more character of the class first, none last. *)
Fixpoint up_to (n : nat) (p : char -> bool) : regex :=
  match n with
  | O => nothing
  | S n' => Alt (Seq (Cls p) (up_to n' p)) nothing
  end.

(** The lazy [[\s\S]*?] followed by [k], unfolded as [k | . k | . . k]
    and so on, [k] first; [n] bounds the characters it can take, and the
    length of the input is enough. *)
Fixpoint lazy_any (n : nat) (k : regex) : regex :=
  match n with
  | O => k
  | S n' => Alt k (Seq (Cls (fun _ => true)) (lazy_any n' k))
  end.

Definition backtick : char := 96%N.
Definition bang : char := 33%N.
Definition lbracket : char := 91%N.
Definition rbracket : char := 93%N.
Definition lparen : char := 40%N.
Definition rparen : char := 41%N.
Definition hash : char := 35%N.
Definition asterisk : char := 42%N.
Definition plus_sign : char := 43%N.
Definition full_stop : char := 46%N.
Definition greater : char := 62%N.

(** [\d] *)
Definition digit : char -> bool := in_range 48%N 57%N.

Definition other_than (c : char) : char -> bool := fun x => negb (N.eqb c x).

(** Three backticks, anything, three backticks: the nearest ones. *)
Definition fence_re (n : nat) : regex :=
  Seq (Lit backtick) (Seq (Lit backtick) (Seq (Lit backtick)
    (lazy_any n
       (Seq (Lit backtick) (Seq (Lit backtick) (Lit backtick)))))).

(** A backtick, anything but a backtick, a backtick. *)
Definition code_re : regex :=
  Seq (Lit backtick) (Seq (Star (other_than backtick)) (Lit backtick)).

(** An image: [!], a label in square brackets, a target in round ones
    that is not empty. *)
Definition image_re : regex :=
  Seq (Lit bang)
    (Seq (Lit lbracket)
       (Seq (Star (other_than rbracket))
          (Seq (Lit rbracket)
             (Seq (Lit lparen)
                (Seq (Plus (other_than rparen)) (Lit rparen)))))).

(** A link: a label that is not empty, the one group, and a target. *)
Definition link_re : regex :=
  Seq (Lit lbracket)
    (Seq (Grp (Plus (other_than rbracket)))
       (Seq (Lit rbracket)
          (Seq (Lit lparen)
             (Seq (Plus (other_than rparen)) (Lit rparen))))).

(** The four patterns of the start of a line, after their [^]. *)
Definition heading_re : regex :=
  Seq (up_to 3 is_space) (Seq (Plus (N.eqb hash)) (Star is_space)).

Definition bullet_re : regex :=
  Seq (up_to 3 is_space)
    (Seq (Cls (one_of [asterisk; plus_sign; hyphen])) (Plus is_space)).

Definition numbered_re : regex :=
  Seq (up_to 3 is_space)
    (Seq (Plus digit) (Seq (Lit full_stop) (Plus is_space))).

Definition quote_re : regex :=
  Seq (Star is_space) (Seq (Plus (N.eqb greater)) (up_to 1 is_space)).

(** Three hyphens or more. *)
Definition rule_re : regex :=
  Seq (Lit hyphen) (Seq (Lit hyphen) (Plus (N.eqb hyphen))).

(** [stripMarkdown] *)
Definition stripMarkdown (text : jsstring) : jsstring :=
  let cleaned := text in
  let cleaned :=
    replace_g (fence_re (List.length cleaned)) [TLit space] cleaned in
  let cleaned := replace_g code_re [TLit space] cleaned in
  let cleaned := replace_g image_re [TLit space] cleaned in
  let cleaned := replace_g link_re [TGrp 1] cleaned in
  let cleaned := replace_gm heading_re [TLit space] cleaned in
  let cleaned := replace_gm bullet_re [TLit space] cleaned in
  let cleaned := replace_gm numbered_re [TLit space] cleaned in
  let cleaned := replace_gm quote_re [TLit space] cleaned in
  let cleaned := replace_g rule_re [TLit space] cleaned in
  let cleaned := replace_g spaces_re [TLit space] cleaned in
  cleaned.

(** What [parseText] resolves to, [text] being the content of the
    file. *)
Definition parseText (text : jsstring) : list jsstring :=
  normalizeWords (stripMarkdown text).

(** The characters a Markdown pattern cannot match without. *)
Definition markup (c : char) : bool :=
  (one_of [backtick; lbracket; hash; asterisk; plus_sign; hyphen; greater] c
   || digit c)%bool.

(** [a] is [b] with some of its characters left out. *)
Inductive subseq : jsstring -> jsstring -> Prop :=
| subseq_nil : subseq [] []
| subseq_skip (x : char) (a b : jsstring) : subseq a b -> subseq a (x :: b)
| subseq_keep (x : char) (a b : jsstring) :
    subseq a b -> subseq (x :: a) (x :: b).

(** The pattern cannot match without a character of the class [p]. *)
Inductive needs (p : char -> bool) : regex -> Prop :=
| needs_cls (q : char -> bool) :
    (forall c, q c = true -> p c = true) -> needs p (Cls q)
| needs_first (r1 r2 : regex) : needs p r1 -> needs p (Seq r1 r2)
| needs_second (r1 r2 : regex) : needs p r2 -> needs p (Seq r1 r2)
| needs_both (r1 r2 : regex) : needs p r1 -> needs p r2 -> needs p (Alt r1 r2)
| needs_grp (r : regex) : needs p r -> needs p (Grp r).

(** A Markdown file with one of each. *)
Definition markdown_text : jsstring :=
  lit "# Title" ++ [10%N] ++
  lit "Some `code` and [a link](http://x.org) here ![pic](p.png)" ++ [10%N] ++
  lit "  - item" ++ [10%N] ++
  lit "12. twelve" ++ [10%N] ++
  lit "> quoted" ++ [10%N] ++
  lit "-----" ++ [10%N] ++
  lit "```js" ++ [10%N] ++ lit "let x = 1;" ++ [10%N] ++ lit "```" ++ [10%N] ++
  lit "end - not a bullet, 3.5 stays".

(** ** Opening a book *)

(** The file of a book: its type as [handleAddBook] recorded it, what
    the EPUB library reads from it ([None] when it fails) and what
    [FileReader] reads from it as text. *)
Record bookFile : Type := BookFile {
  f_type : jsstring;
  f_epub : option (list navItem * list spineItem);
  f_text : jsstring
}.

(** [parseBook]: an exception anywhere ends in the catch handler. *)
Definition parseBook (book : bookFile) (item : stored) : outcome :=
  if str_eqb (f_type book) (lit "epub") then
    match f_epub book with
    | None => Aborted
    | Some (nav, spine) =>
        match parseEpub nav spine with
        | None => Aborted
        | Some (resultWords, resultToc) =>
            restoreLocation resultWords resultToc item
        end
    end
  else restoreLocation (parseText (f_text book)) [] item.

(** ** Keys *)

Inductive keyCode : Type :=
| Space | ArrowLeft | ArrowRight | ArrowUp | ArrowDown | Escape | OtherKey.

Record keyEvent : Type := KeyEvent {
  code : keyCode;
  ctrlKey : bool;
  metaKey : bool;
  shiftKey : bool;
  onInput : bool             (* e.target.tagName === 'INPUT' *)
}.

(** [Math.min] and [Math.max] of two numbers: NaN if one is NaN, and
    [-0] counts as smaller than [+0]. *)
Definition Math_min (a b : float) : float :=
  if (PrimFloat.is_nan a || PrimFloat.is_nan b)%bool then nan
  else if PrimFloat.ltb a b then a
  else if PrimFloat.eqb a b then
    match PrimFloat.classify a with NZero => a | _ => b end
  else b.

Definition Math_max (a b : float) : float :=
  if (PrimFloat.is_nan a || PrimFloat.is_nan b)%bool then nan
  else if PrimFloat.ltb b a then a
  else if PrimFloat.eqb a b then
    match PrimFloat.classify a with PZero => a | _ => b end
  else b.

(** The key handler on the reading state.  Escape closes a panel or
    leaves the reader and touches none of these fields. *)
Definition handleKey (e : keyEvent) (st : reader) : reader :=
  if onInput e then st
  else
    match code e with
    | Space => togglePlay st
    | ArrowLeft =>
        if (ctrlKey e || metaKey e)%bool then jump (-50) st
        else if shiftKey e then jump (-10) st
        else jump (-1) st
    | ArrowRight =>
        if (ctrlKey e || metaKey e)%bool then jump 50 st
        else if shiftKey e then jump 10 st
        else jump 1 st
    | ArrowUp => setWpm (Math_min (wpm st + 10) 1000)%float st
    | ArrowDown => setWpm (Math_max (wpm st - 10) 0)%float st
    | Escape => st
    | OtherKey => st
    end.

(** A blank text file and an EPUB whose only section is blank. *)
Definition blank_text_file : bookFile :=
  BookFile (lit "txt") None (lit "  " ++ [10%N; 9%N]).

Definition blank_epub_file : bookFile :=
  BookFile (lit "epub")
    (Some (small_nav, [SpineItem (lit "ch1.xhtml") (Some (lit "  "))]))
    [].

(** ** Theorems *)

(** C3. For a non-empty core the ORP index depends on the length [L] of the
    core only: [L <= 1] gives 0, otherwise [L <= 5] gives 1, otherwise
    [L <= 9] gives 2, otherwise [L <= 13] gives 3, and a longer core
    gives 4. *)
Theorem getORPIndex_steps :
  forall c : jsstring,
    c <> [] ->
    let L := jslength c in
    ((L <= 1 -> getORPIndex c = 0) /\
     (1 < L <= 5 -> getORPIndex c = 1) /\
     (5 < L <= 9 -> getORPIndex c = 2) /\
     (9 < L <= 13 -> getORPIndex c = 3) /\
     (13 < L -> getORPIndex c = 4))%Z /\
    (forall c' : jsstring, jslength c' = L -> getORPIndex c' = getORPIndex c).
Proof.
  intros c _ L. split.
  - unfold getORPIndex. fold L.
    repeat split; intros H;
      repeat match goal with
             | |- context [(?a <=? ?b)%Z] => destruct (Z.leb_spec a b)
             end; lia.
  - intros c' Hc'. unfold getORPIndex. fold L. rewrite Hc'. reflexivity.
Qed.

Lemma getORPIndex_steps_witness :
  lit "reader" <> [] /\ getORPIndex (lit "reader") = 2%Z.
Proof.
  split; [discriminate |].
  apply (getORPIndex_steps (lit "reader")); [discriminate | vm_compute; lia].
Defined.

(** ** The matcher *)

Section Matcher.

Lemma star_run_inv (p : char -> bool) (s : jsstring) :
  forall i cs st,
    In st (star_run p i s cs) ->
    exists pre,
      s = pre ++ rest st /\ forallb p pre = true /\
      pos st = i + List.length pre /\ caps st = cs.
Proof.
  induction s as [|c s IH]; intros i cs st Hin; simpl in Hin.
  - destruct Hin as [<-|[]]. exists []. simpl. auto.
  - assert (Hstop : MState i (c :: s) cs = st ->
                    exists pre, c :: s = pre ++ rest st /\
                                forallb p pre = true /\
                                pos st = i + List.length pre /\ caps st = cs).
    { intros <-. exists []. simpl. auto. }
    destruct (p c) eqn:Hc.
    + apply in_app_or in Hin. destruct Hin as [Hin|[Heq|[]]]; [|auto].
      apply IH in Hin. destruct Hin as (pre & Hs & Hp & Hpos & Hcs).
      exists (c :: pre). simpl. rewrite Hc, Hp, Hpos, <- Hs.
      repeat split; auto; lia.
    + destruct Hin as [Heq|[]]. auto.
Qed.

Lemma star_run_intro (p : char -> bool) (pre : jsstring) :
  forall post i cs,
    forallb p pre = true ->
    In (MState (i + List.length pre) post cs) (star_run p i (pre ++ post) cs).
Proof.
  induction pre as [|c pre IH]; intros post i cs Hp; simpl in *.
  - rewrite Nat.add_0_r. destruct post as [|d post]; simpl; auto.
    destruct (p d); [apply in_or_app; right|]; simpl; auto.
  - apply andb_prop in Hp. destruct Hp as [Hc Hp]. rewrite Hc.
    apply in_or_app. left.
    replace (i + S (List.length pre)) with (S i + List.length pre) by lia.
    apply IH. exact Hp.
Qed.

(** A match only moves forward, over a prefix of what was left. *)
Lemma run_consumes (r : regex) :
  forall st st',
    In st' (run r st) ->
    exists pre, rest st = pre ++ rest st' /\
                pos st' = pos st + List.length pre.
Proof.
  induction r as [| |p|p|r1 IH1 r2 IH2|r1 IH1 r2 IH2|r IH];
    intros st st' Hin; simpl in Hin.
  - destruct (Nat.eqb (pos st) 0); [|contradiction].
    destruct Hin as [<-|[]]. exists []. simpl. auto.
  - destruct (rest st) eqn:Hr; [|contradiction].
    destruct Hin as [<-|[]]. exists []. simpl. auto.
  - destruct (rest st) as [|c s'] eqn:Hr; [contradiction|].
    destruct (p c); [|contradiction].
    destruct Hin as [<-|[]]. exists [c]. simpl. split; [reflexivity|lia].
  - apply star_run_inv in Hin. destruct Hin as (pre & Hs & _ & Hpos & _).
    exists pre. auto.
  - apply in_flat_map in Hin. destruct Hin as (m & Hm & Hin).
    apply IH1 in Hm. apply IH2 in Hin.
    destruct Hm as (pre1 & Hr1 & Hp1). destruct Hin as (pre2 & Hr2 & Hp2).
    exists (pre1 ++ pre2). rewrite <- app_assoc, <- Hr2, length_app.
    split; [assumption|lia].
  - apply in_app_or in Hin. destruct Hin as [Hin|Hin]; eauto.
  - apply in_map_iff in Hin. destruct Hin as (m & <- & Hm). simpl.
    apply IH. exact Hm.
Qed.

(** A closed group records exactly what its body went over. *)
Lemma run_grp_inv (r : regex) (st st' : mstate) :
  In st' (run (Grp r) st) ->
  exists m pre,
    In m (run r st) /\ rest st = pre ++ rest m /\
    pos st' = pos m /\ rest st' = rest m /\ caps st' = caps m ++ [pre].
Proof.
  simpl. intros Hin. apply in_map_iff in Hin. destruct Hin as (m & <- & Hm).
  destruct (run_consumes r st m Hm) as (pre & Hr & Hp).
  exists m, pre. simpl. repeat split; auto.
  rewrite Hr, Hp. replace (pos st + List.length pre - pos st) with (List.length pre) by lia.
  rewrite firstn_app, firstn_all, Nat.sub_diag. simpl. rewrite app_nil_r.
  reflexivity.
Qed.

Lemma run_grp_intro (r : regex) (st m : mstate) (pre : jsstring) :
  In m (run r st) -> rest st = pre ++ rest m ->
  In (MState (pos m) (rest m) (caps m ++ [pre])) (run (Grp r) st).
Proof.
  intros Hm Hr. simpl. apply in_map_iff. exists m. split; [|exact Hm].
  destruct (run_consumes r st m Hm) as (pre' & Hr' & Hp).
  assert (pre' = pre) as -> by (rewrite Hr in Hr'; eapply app_inv_tail; eauto).
  rewrite Hr, Hp. replace (pos st + List.length pre - pos st) with (List.length pre) by lia.
  rewrite firstn_app, firstn_all, Nat.sub_diag. simpl. rewrite app_nil_r.
  reflexivity.
Qed.

Lemma run_seq_inv (r1 r2 : regex) (st st' : mstate) :
  In st' (run (Seq r1 r2) st) ->
  exists m, In m (run r1 st) /\ In st' (run r2 m).
Proof.
  simpl. intros H. apply in_flat_map in H. destruct H as (m & H1 & H2). eauto.
Qed.

Lemma run_seq_intro (r1 r2 : regex) (st m st' : mstate) :
  In m (run r1 st) -> In st' (run r2 m) -> In st' (run (Seq r1 r2) st).
Proof. intros H1 H2. simpl. apply in_flat_map. eauto. Qed.

Lemma run_bol_inv (st st' : mstate) :
  In st' (run Bol st) -> pos st = 0 /\ st' = st.
Proof.
  simpl. destruct (Nat.eqb (pos st) 0) eqn:Hz; [|contradiction].
  intros [<-|[]]. apply Nat.eqb_eq in Hz. auto.
Qed.

Lemma run_eol_inv (st st' : mstate) :
  In st' (run Eol st) -> rest st = [] /\ st' = st.
Proof.
  simpl. destruct (rest st); [|contradiction]. intros [<-|[]]. auto.
Qed.

Lemma run_cls_inv (p : char -> bool) (st st' : mstate) :
  In st' (run (Cls p) st) ->
  exists c s', rest st = c :: s' /\ p c = true /\
               st' = MState (S (pos st)) s' (caps st).
Proof.
  simpl. destruct (rest st) as [|c s']; [contradiction|].
  destruct (p c) eqn:Hc; [|contradiction]. intros [<-|[]]. eauto.
Qed.

Lemma run_star_inv (p : char -> bool) (st st' : mstate) :
  In st' (run (Star p) st) ->
  exists pre,
    rest st = pre ++ rest st' /\ forallb p pre = true /\
    pos st' = pos st + List.length pre /\ caps st' = caps st.
Proof. simpl. apply star_run_inv. Qed.

Lemma hd_error_in {A : Type} (l : list A) (x : A) :
  hd_error l = Some x -> In x l.
Proof. destruct l; simpl; [discriminate|]. intros [= ->]. auto. Qed.

Lemma hd_error_some {A : Type} (l : list A) (x : A) :
  In x l -> hd_error l <> None.
Proof. destruct l; simpl; [contradiction|discriminate]. Qed.

(** [exec_from] reports a match at the start it returns. *)
Lemma exec_from_inv (r : regex) (s : jsstring) :
  forall i j whole st,
    exec_from r i s = Some (j, whole, st) ->
    exists pre suf,
      s = pre ++ suf /\ j = i + List.length pre /\
      match_at r j suf = Some st /\ whole = firstn (pos st - j) suf.
Proof.
  induction s as [|c s IH]; intros i j whole st; simpl.
  - destruct (match_at r i []) eqn:Hm; [|discriminate].
    intros [= <- <- <-]. exists [], []. rewrite Nat.add_0_r. auto.
  - destruct (match_at r i (c :: s)) eqn:Hm.
    + intros [= <- <- <-]. exists [], (c :: s). rewrite Nat.add_0_r. auto.
    + intros H. apply IH in H. destruct H as (pre & suf & -> & -> & H1 & H2).
      exists (c :: pre), suf. simpl. repeat split; auto; lia.
Qed.

Lemma exec_from_none (r : regex) (s : jsstring) :
  forall i, exec_from r i s = None ->
            forall pre suf, s = pre ++ suf ->
                            match_at r (i + List.length pre) suf = None.
Proof.
  induction s as [|c s IH]; intros i H pre suf Hs; simpl in H.
  - symmetry in Hs. apply app_eq_nil in Hs. destruct Hs as [-> ->].
    simpl. rewrite Nat.add_0_r.
    destruct (match_at r i []); [discriminate|reflexivity].
  - destruct (match_at r i (c :: s)) eqn:Hm; [discriminate|].
    destruct pre as [|d pre]; simpl in Hs.
    + subst suf. simpl. rewrite Nat.add_0_r. exact Hm.
    + injection Hs as <- ->. simpl.
      replace (i + S (List.length pre)) with (S i + List.length pre) by lia.
      eapply IH; eauto.
Qed.

End Matcher.

(** ** [splitWord] *)

Section SplitWord.

(** What a successful match of the pattern looks like. *)
Lemma word_re_sound (w : jsstring) (m : list jsstring) :
  match_ word_re w = Some m ->
  exists l c t,
    m = [w; l; c; t] /\ w = l ++ c ++ t /\
    forallb not_alnum l = true /\ core_shape c = true /\
    forallb not_alnum t = true.
Proof.
  unfold match_.
  destruct (exec_from word_re 0 w) as [[[j whole] st]|] eqn:He; [|discriminate].
  intros [= <-].
  apply exec_from_inv in He. destruct He as (pre & suf & -> & -> & Hm & ->).
  apply hd_error_in in Hm. unfold word_re in Hm.
  apply run_seq_inv in Hm. destruct Hm as (s0 & H0 & Hm).
  apply run_bol_inv in H0. destruct H0 as [Hz ->]. cbn [pos] in Hz.
  assert (pre = []) as -> by (apply length_zero_iff_nil; lia).
  cbn [app Nat.add List.length] in *.
  (* leading *)
  apply run_seq_inv in Hm. destruct Hm as (s1 & H1 & Hm).
  apply run_grp_inv in H1.
  destruct H1 as (m1 & l & Hm1 & Hr1 & Hp1 & Hrest1 & Hc1).
  apply run_star_inv in Hm1. destruct Hm1 as (l' & Hs1 & Hl & Hpos1 & Hcs1).
  cbn [pos rest caps] in Hr1, Hs1, Hpos1, Hcs1.
  assert (l' = l) as -> by (rewrite Hs1 in Hr1; eapply app_inv_tail; eauto).
  rewrite Hcs1 in Hc1. cbn [app] in Hc1.
  (* core *)
  apply run_seq_inv in Hm. destruct Hm as (s2 & H2 & Hm).
  apply run_grp_inv in H2.
  destruct H2 as (m2 & c & Hm2 & Hr2 & Hp2 & Hrest2 & Hc2).
  apply run_seq_inv in Hm2. destruct Hm2 as (m2' & Ha & Hm2).
  apply run_cls_inv in Ha. destruct Ha as (a & s1' & Hrs1 & Haln & ->).
  apply run_star_inv in Hm2. destruct Hm2 as (c' & Hs2 & Hcore & Hpos2 & Hcs2).
  cbn [pos rest caps] in Hs2, Hpos2, Hcs2.
  assert (c = a :: c') as ->.
  { rewrite Hrs1, Hs2 in Hr2.
    change (a :: c' ++ rest m2) with ((a :: c') ++ rest m2) in Hr2.
    symmetry. eapply app_inv_tail; eauto. }
  (* trailing *)
  apply run_seq_inv in Hm. destruct Hm as (s3 & H3 & Hm).
  apply run_grp_inv in H3.
  destruct H3 as (m3 & t & Hm3 & Hr3 & Hp3 & Hrest3 & Hc3).
  apply run_star_inv in Hm3. destruct Hm3 as (t' & Hs3 & Ht & Hpos3 & Hcs3).
  assert (t' = t) as -> by (rewrite Hs3 in Hr3; eapply app_inv_tail; eauto).
  (* the end of the string *)
  apply run_eol_inv in Hm. destruct Hm as [Hrs3 ->].
  assert (Hsuf : suf = l ++ (a :: c') ++ t).
  { rewrite Hr1, <- Hrest1, Hrs1, Hs2, <- Hrest2, Hr3, <- Hrest3, Hrs3.
    rewrite app_nil_r. reflexivity. }
  assert (Hlen : pos s3 = List.length suf).
  { rewrite Hp3, Hpos3, Hp2, Hpos2, Hp1, Hpos1, Hsuf.
    rewrite !length_app. simpl. lia. }
  exists l, (a :: c'), t. repeat split.
  - rewrite Hlen, Nat.sub_0_r, firstn_all.
    rewrite Hc3, Hcs3, Hc2, Hcs2. cbn [caps]. rewrite Hc1. reflexivity.
  - exact Hsuf.
  - exact Hl.
  - simpl. rewrite Haln, Hcore. reflexivity.
  - exact Ht.
Qed.

(** Every token of that shape is matched. *)
Lemma word_re_complete (l c t : jsstring) :
  forallb not_alnum l = true -> core_shape c = true ->
  forallb not_alnum t = true ->
  match_ word_re (l ++ c ++ t) <> None.
Proof.
  intros Hl Hc Ht. destruct c as [|a c']; [discriminate|].
  simpl in Hc. apply andb_prop in Hc. destruct Hc as [Ha Hc'].
  unfold match_.
  destruct (exec_from word_re 0 (l ++ (a :: c') ++ t)) as [[[j whole] st]|] eqn:He;
    [discriminate|].
  exfalso.
  pose proof (exec_from_none _ _ _ He [] _ eq_refl) as Hn.
  simpl in Hn. revert Hn. apply hd_error_some with
    (x := MState (0 + List.length l + 1 + List.length c' + List.length t) []
                 [l; a :: c'; t]).
  unfold word_re.
  eapply run_seq_intro; [simpl; left; reflexivity|].
  eapply run_seq_intro.
  { apply (run_grp_intro (Star not_alnum) _
             (MState (0 + List.length l) ((a :: c') ++ t) []) l);
      [|reflexivity].
    exact (star_run_intro not_alnum l ((a :: c') ++ t) 0 [] Hl). }
  cbn [pos rest caps app].
  eapply run_seq_intro.
  { apply (run_grp_intro (Seq (Cls alnum) (Star core_char)) _
             (MState (S (0 + List.length l) + List.length c') t [l]) (a :: c'));
      [|reflexivity].
    eapply run_seq_intro.
    - simpl. rewrite Ha. left. reflexivity.
    - exact (star_run_intro core_char c' t (S (0 + List.length l)) [l] Hc'). }
  cbn [pos rest caps app].
  eapply run_seq_intro.
  { apply (run_grp_intro (Star not_alnum) _
             (MState (S (0 + List.length l) + List.length c' + List.length t)
                     [] [l; a :: c']) t);
      [|simpl; rewrite app_nil_r; reflexivity].
    pose proof (star_run_intro not_alnum t []
                  (S (0 + List.length l) + List.length c') [l; a :: c'] Ht) as H.
    rewrite app_nil_r in H. exact H. }
  cbn [pos rest caps app]. simpl. left. f_equal. lia.
Qed.

Lemma splits2_complete (a b : jsstring) : In (a, b) (splits2 (a ++ b)).
Proof.
  induction a as [|c a IH]; simpl.
  - destruct b; simpl; auto.
  - right. apply in_map_iff. exists (a, b). auto.
Qed.

Lemma splits2_sound (s a b : jsstring) : In (a, b) (splits2 s) -> s = a ++ b.
Proof.
  revert a b. induction s as [|c s IH]; intros a b; simpl.
  - intros [[= <- <-]|[]]. reflexivity.
  - intros [[= <- <-]|H]; [reflexivity|].
    apply in_map_iff in H. destruct H as ([a' b'] & [= <- <-] & H).
    apply IH in H. simpl. rewrite H. reflexivity.
Qed.

Lemma has_shape_iff (w : jsstring) :
  has_shape w = true <->
  exists l c t,
    w = l ++ c ++ t /\ forallb not_alnum l = true /\ core_shape c = true /\
    forallb not_alnum t = true.
Proof.
  unfold has_shape, splits3. rewrite existsb_exists. split.
  - intros ([[l c] t] & Hin & H). apply in_flat_map in Hin.
    destruct Hin as ([a b] & Hab & Hin). apply in_map_iff in Hin.
    destruct Hin as ([c0 d] & [= <- <- <-] & Hcd). simpl in *.
    apply splits2_sound in Hab, Hcd. subst.
    apply andb_prop in H. destruct H as [H H3].
    apply andb_prop in H. destruct H as [H1 H2]. eauto 10.
  - intros (l & c & t & -> & H1 & H2 & H3). exists (l, c, t). split.
    + apply in_flat_map. exists (l, c ++ t). split; [apply splits2_complete|].
      apply in_map_iff. exists (c, t). split; [reflexivity|].
      apply splits2_complete.
    + rewrite H1, H2, H3. reflexivity.
Qed.

(** [splitWord] either falls back to the whole word or cuts it in the
    three fragments of a match. *)
Lemma splitWord_cases (w : jsstring) :
  (has_shape w = false /\ splitWord w = Parts [] w []) \/
  (exists l c t,
     splitWord w = Parts l c t /\ w = l ++ c ++ t /\
     forallb not_alnum l = true /\ core_shape c = true /\
     forallb not_alnum t = true).
Proof.
  unfold splitWord. destruct (match_ word_re w) as [m|] eqn:Hm.
  - right. apply word_re_sound in Hm.
    destruct Hm as (l & c & t & -> & H). exists l, c, t. simpl. auto.
  - left. split; [|reflexivity].
    destruct (has_shape w) eqn:Hs; [|reflexivity].
    apply has_shape_iff in Hs. destruct Hs as (l & c & t & -> & H1 & H2 & H3).
    exfalso. revert Hm. apply word_re_complete; assumption.
Qed.

Lemma core_shape_alnum (c : jsstring) :
  core_shape c = true -> c <> [] /\ existsb alnum c = true.
Proof.
  destruct c as [|a c']; simpl; [discriminate|]. intros H.
  apply andb_prop in H. destruct H as [-> _]. split; [discriminate|reflexivity].
Qed.

(** The core of a word is empty only for the empty word. *)
Lemma splitWord_core_empty (w : jsstring) :
  core (splitWord w) = [] <-> w = [].
Proof.
  destruct (splitWord_cases w) as [[_ ->]|(l & c & t & -> & Hw & _ & Hc & _)];
    simpl; [tauto|].
  apply core_shape_alnum in Hc. destruct Hc as [Hc _]. split.
  - intros ->. contradiction.
  - intros ->. destruct l; [|discriminate]. destruct c; [reflexivity|discriminate].
Qed.

End SplitWord.

(** ** The patterns of the pause multiplier *)

Section PausePatterns.

Variable p : char -> bool.

Lemma eol_after_star (s : jsstring) :
  forall i cs,
    flat_map (run Eol) (star_run p i s cs) =
    if forallb p s then [MState (i + List.length s) [] cs] else [].
Proof.
  induction s as [|c s IH]; intros i cs; simpl.
  - rewrite Nat.add_0_r. reflexivity.
  - destruct (p c); simpl; [|reflexivity].
    rewrite flat_map_app, IH. simpl. rewrite app_nil_r.
    destruct (forallb p s); [|reflexivity].
    rewrite Nat.add_succ_r. reflexivity.
Qed.

(** One or more characters of the class up to the end of the string:
    the match at a given start takes the whole rest, or fails. *)
Lemma plus_eol_at (i : nat) (s : jsstring) :
  match_at (Seq (Plus p) Eol) i s =
  match s with
  | [] => None
  | _ :: _ =>
      if forallb p s then Some (MState (i + List.length s) [] []) else None
  end.
Proof.
  unfold match_at, Plus. cbn [run pos rest caps].
  destruct s as [|c s]; [reflexivity|].
  cbn [forallb]. destruct (p c); [|reflexivity].
  cbn [flat_map]. rewrite app_nil_r, eol_after_star.
  cbn [pos rest caps andb List.length].
  destruct (forallb p s); [|reflexivity]. cbn [hd_error].
  rewrite Nat.add_succ_r. reflexivity.
Qed.

Lemma ends_with_cons (c d : char) (s : jsstring) :
  ends_with p (c :: d :: s) = ends_with p (d :: s).
Proof.
  unfold ends_with. cbn [rev].
  destruct (rev s) as [|x r]; reflexivity.
Qed.

Lemma forallb_ends_with (s : jsstring) :
  s <> [] -> forallb p s = true -> ends_with p s = true.
Proof.
  induction s as [|c s IH]; [congruence|]. intros _ H.
  simpl in H. apply andb_prop in H. destruct H as [Hc Hs].
  destruct s as [|d s].
  - unfold ends_with. simpl. exact Hc.
  - rewrite ends_with_cons. apply IH; [discriminate|exact Hs].
Qed.

Lemma exec_plus_eol (s : jsstring) :
  forall i,
    match exec_from (Seq (Plus p) Eol) i s with
    | Some _ => true
    | None => false
    end = ends_with p s.
Proof.
  induction s as [|c s IH]; intros i.
  - reflexivity.
  - cbn [exec_from]. rewrite plus_eol_at.
    destruct (forallb p (c :: s)) eqn:Hall.
    + symmetry. apply forallb_ends_with; [discriminate|exact Hall].
    + rewrite IH. destruct s as [|d s].
      * unfold ends_with. simpl in *. rewrite andb_true_r in Hall.
        symmetry. exact Hall.
      * symmetry. apply ends_with_cons.
Qed.

(** [/[...]+$/.test(s)] says whether [s] ends in a character of the
    class. *)
Lemma test_plus_eol (s : jsstring) :
  test (Seq (Plus p) Eol) s = ends_with p s.
Proof. unfold test. apply exec_plus_eol. Qed.

Lemma forallb_rev (s : jsstring) : forallb p (rev s) = forallb p s.
Proof.
  induction s as [|c s IH]; [reflexivity|].
  simpl. rewrite forallb_app, IH. simpl. rewrite andb_true_r. apply andb_comm.
Qed.

Lemma drop_while_all (s : jsstring) :
  forallb p s = true -> drop_while p s = [].
Proof.
  induction s as [|c s IH]; [reflexivity|]. simpl.
  destruct (p c); [exact IH|discriminate].
Qed.

Lemma drop_while_app (a b : jsstring) :
  drop_while p (a ++ b) =
  if forallb p a then drop_while p b else drop_while p a ++ b.
Proof.
  induction a as [|c a IH]; [reflexivity|]. simpl.
  destruct (p c); [exact IH|reflexivity].
Qed.

Lemma strip_trailing_cons (c : char) (s : jsstring) :
  strip_trailing p (c :: s) =
  if forallb p (c :: s) then [] else c :: strip_trailing p s.
Proof.
  unfold strip_trailing. cbn [rev forallb].
  rewrite drop_while_app, forallb_rev.
  destruct (forallb p s) eqn:Hs.
  - rewrite (drop_while_all (rev s)) by (rewrite forallb_rev; exact Hs).
    simpl. destruct (p c); reflexivity.
  - rewrite andb_false_r, rev_app_distr. reflexivity.
Qed.

Lemma replace_scan_skip_all (r : regex) (t : list titem) (s : jsstring) :
  (forall i, match_at r i [] = None) ->
  forall i, replace_scan r t i s (List.length s) = [].
Proof.
  intros Hend. induction s as [|c s IH]; intros i; simpl; [|apply IH].
  rewrite Hend. reflexivity.
Qed.

(** Replacing [/[...]+$/g] by the empty string strips the trailing run. *)
Lemma replace_plus_eol (s : jsstring) :
  replace_g (Seq (Plus p) Eol) [] s = strip_trailing p s.
Proof.
  unfold replace_g.
  enough (H : forall i, replace_scan (Seq (Plus p) Eol) [] i s 0 =
                        strip_trailing p s) by apply H.
  induction s as [|c s IH]; intros i.
  - reflexivity.
  - rewrite strip_trailing_cons. cbn [replace_scan]. rewrite plus_eol_at.
    destruct (forallb p (c :: s)).
    + cbn [pos expand flat_map app List.length].
      replace (i + S (List.length s) - i) with (S (List.length s)) by lia.
      apply replace_scan_skip_all. intros j. apply plus_eol_at.
    + rewrite IH. reflexivity.
Qed.

End PausePatterns.

Section Dashes.

Lemma dash_at (i : nat) (s : jsstring) :
  match match_at dash_re i s with Some _ => true | None => false end =
  (is_prefix [em_dash] s || is_prefix [en_dash] s
   || is_prefix [hyphen; hyphen] s)%bool.
Proof.
  unfold match_at, dash_re, Lit. cbn [run pos rest caps].
  destruct s as [|c s]; [reflexivity|].
  cbn [is_prefix]. rewrite !andb_true_r.
  destruct (N.eqb em_dash c) eqn:H1; [reflexivity|].
  destruct (N.eqb en_dash c) eqn:H2; [reflexivity|].
  destruct (N.eqb hyphen c) eqn:H3; [|reflexivity].
  cbn [flat_map app orb andb pos rest caps run].
  destruct s as [|d s]; [reflexivity|].
  destruct (N.eqb hyphen d); reflexivity.
Qed.

Lemma contains3 (s : jsstring) :
  (contains [em_dash] s || contains [en_dash] s
   || contains [hyphen; hyphen] s)%bool =
  ((is_prefix [em_dash] s || is_prefix [en_dash] s
    || is_prefix [hyphen; hyphen] s)
   || match s with
      | [] => false
      | _ :: s' =>
          (contains [em_dash] s' || contains [en_dash] s'
           || contains [hyphen; hyphen] s')
      end)%bool.
Proof.
  destruct s as [|c s]; [reflexivity|].
  cbn [contains].
  destruct (is_prefix [em_dash] (c :: s)), (is_prefix [en_dash] (c :: s)),
    (is_prefix [hyphen; hyphen] (c :: s)), (contains [em_dash] s),
    (contains [en_dash] s); reflexivity.
Qed.

Lemma exec_dash (s : jsstring) :
  forall i,
    match exec_from dash_re i s with Some _ => true | None => false end =
    (contains [em_dash] s || contains [en_dash] s
     || contains [hyphen; hyphen] s)%bool.
Proof.
  induction s as [|c s IH]; intros i.
  - reflexivity.
  - rewrite contains3. cbn [exec_from]. rewrite <- (dash_at i).
    destruct (match_at dash_re i (c :: s)); [reflexivity|].
    rewrite IH. reflexivity.
Qed.

(** The dash test says whether the word holds U+2014, U+2013 or two
    hyphens in a row. *)
Lemma test_dash (w : jsstring) :
  test dash_re w =
  (contains [em_dash] w || contains [en_dash] w
   || contains [hyphen; hyphen] w)%bool.
Proof. unfold test. apply exec_dash. Qed.

(** The multiplier of the code is the multiplier of the specification. *)
Lemma getPauseMultiplier_spec (w : jsstring) :
  getPauseMultiplier w = specMultiplier w.
Proof.
  unfold getPauseMultiplier, specMultiplier, normalizeTrailingForPause.
  unfold sentence_re, colon_re, comma_re, closers_re.
  assert (Hstrip : forall t,
             match t with
             | [] => []
             | _ :: _ => replace_g (Seq (Plus (one_of closers)) Eol) [] t
             end = strip_trailing (one_of closers) t).
  { intros [|c t]; [reflexivity|apply replace_plus_eol]. }
  rewrite Hstrip, !test_plus_eol, test_dash. reflexivity.
Qed.

End Dashes.

(** ** The pause multiplier and the delay *)

Section Delay.

Open Scope float_scope.

(** A rate above zero passes the guard [wpm <= 0] of the effect. *)
Lemma positive_rate_not_le (r : float) :
  PrimFloat.ltb 0 r = true -> PrimFloat.leb r 0 = false.
Proof.
  rewrite ltb_spec, leb_spec.
  change (Prim2SF 0) with (S754_zero false).
  unfold SFltb, SFleb.
  destruct (Prim2SF r) as [s|s| |s m e]; simpl; try discriminate;
    destruct s; simpl; intros H; try discriminate; reflexivity.
Qed.

Lemma scheduled_running (ws : list jsstring) (i : Z) (r : float)
    (tc : list tocItem) :
  PrimFloat.ltb 0 r = true -> ws <> [] ->
  scheduled (Reader ws i true r tc) =
  Some ((60000 / r) *
        getPauseMultiplier
          match word_at ws i with Some w => w | None => [] end).
Proof.
  intros Hr Hws. unfold scheduled. cbn [isPlaying wpm words currentIndex negb orb].
  rewrite (positive_rate_not_le r Hr).
  destruct ws as [|w ws]; [congruence|]. reflexivity.
Qed.

(** C1. For every word [w] shown at the current position and every rate
    [r > 0], the delay of the timeout is [(60000 / r)] times the
    multiplier of [w]: against the trailing fragment of [w] without its
    trailing closing quotes and brackets, 2.6 if it ends in one of
    [. ? !] or the ellipsis, else 1.9 if it ends in [:] or [;], else 1.4
    if it ends in a comma; else 1.6 if the raw word holds an em-dash, an
    en-dash or two hyphens in a row; else 1. *)
Theorem delay_is_base_times_multiplier :
  forall (ws : list jsstring) (i : Z) (w : jsstring) (r : float)
         (tc : list tocItem),
    PrimFloat.ltb 0 r = true ->
    word_at ws i = Some w ->
    scheduled (Reader ws i true r tc) = Some ((60000 / r) * specMultiplier w).
Proof.
  intros ws i w r tc Hr Hw.
  rewrite scheduled_running; [|exact Hr|].
  - rewrite Hw, getPauseMultiplier_spec. reflexivity.
  - intros ->. unfold word_at in Hw. destruct (i <? 0)%Z; [discriminate|].
    destruct (Z.to_nat i); discriminate.
Qed.

(** The three delays the specification lists, at 600 words a minute:
    260 ms, 140 ms and, with a closing quote after the full stop, 260 ms
    again. *)
Lemma delay_is_base_times_multiplier_witness :
  scheduled (Reader [lit "end."] 0 true 600 []) = Some 260 /\
  scheduled (Reader [lit "pause,"] 0 true 600 []) = Some 140 /\
  scheduled (Reader [lit "quote." ++ [dquote]] 0 true 600 []) = Some 260.
Proof.
  split; [|split].
  - rewrite (delay_is_base_times_multiplier [lit "end."] 0 (lit "end.") 600 []);
      reflexivity.
  - rewrite (delay_is_base_times_multiplier
               [lit "pause,"] 0 (lit "pause,") 600 []); reflexivity.
  - rewrite (delay_is_base_times_multiplier
               [lit "quote." ++ [dquote]] 0 (lit "quote." ++ [dquote]) 600 []);
      reflexivity.
Defined.

End Delay.

(** ** Decomposition *)

Section Decomposition.

(** C4. For every non-empty token the three fragments of [splitWord]
    concatenate to the token and the core is not empty; a token without
    any alphanumeric character is its own core, with empty leading and
    trailing fragments. *)
Theorem splitWord_roundtrip :
  forall t : jsstring,
    t <> [] ->
    leading (splitWord t) ++ core (splitWord t) ++ trailing (splitWord t) = t /\
    core (splitWord t) <> [] /\
    (existsb alnum t = false ->
     leading (splitWord t) = [] /\ core (splitWord t) = t /\
     trailing (splitWord t) = []).
Proof.
  intros t Ht.
  destruct (splitWord_cases t) as [[_ ->]|(l & c & r & -> & Hw & _ & Hc & _)];
    cbn [leading core trailing].
  - rewrite app_nil_r. auto.
  - apply core_shape_alnum in Hc. destruct Hc as [Hne Hal].
    split; [symmetry; exact Hw|]. split; [exact Hne|].
    intros Hno. exfalso.
    rewrite Hw, !existsb_app, Hal, orb_true_r in Hno. discriminate.
Qed.

Lemma splitWord_roundtrip_witness :
  lit "(don't!)" <> [] /\
  leading (splitWord (lit "(don't!)")) ++ core (splitWord (lit "(don't!)"))
    ++ trailing (splitWord (lit "(don't!)")) = lit "(don't!)" /\
  core (splitWord (lit "(don't!)")) <> [] /\
  existsb alnum (lit "...") = false /\
  core (splitWord (lit "...")) = lit "...".
Proof.
  assert (Hne : lit "(don't!)" <> []) by discriminate.
  assert (Hdots : lit "..." <> []) by discriminate.
  pose proof (splitWord_roundtrip (lit "(don't!)") Hne) as (H1 & H2 & _).
  pose proof (splitWord_roundtrip (lit "...") Hdots) as (_ & _ & H3).
  split; [exact Hne|]. split; [exact H1|]. split; [exact H2|].
  split; [reflexivity|]. exact (proj1 (proj2 (H3 eq_refl))).
Defined.

(** C7, as the code has it.  [splitWord] cuts ["word."] into an empty
    leading fragment, the core ["word"] and the trailing ["."]; it cuts
    the em-dash off ["—word"] as the leading fragment; and it cuts the
    apostrophe off ['Tis] as the leading fragment, because a core starts
    with an alphanumeric: the core is ["Tis"]. *)
Theorem splitWord_fixtures :
  splitWord (lit "word.") = Parts [] (lit "word") (lit ".") /\
  splitWord (em_dash :: lit "word") = Parts [em_dash] (lit "word") [] /\
  splitWord (lit "'Tis") = Parts (lit "'") (lit "Tis") [].
Proof. repeat split; reflexivity. Qed.

(** C7 as stated fails on its third fixture: the apostrophe of ['Tis] is
    not part of the core. *)
Lemma splitWord_tis_not_core :
  splitWord (lit "'Tis") <> Parts [] (lit "'Tis") [].
Proof. discriminate. Qed.

(** C10. A non-empty token that holds an alphanumeric but is not a
    non-alphanumeric prefix, then a core, then a non-alphanumeric suffix,
    comes back whole as the core, with empty leading and trailing
    fragments. *)
Theorem splitWord_fallback :
  forall t : jsstring,
    t <> [] -> existsb alnum t = true -> has_shape t = false ->
    splitWord t = Parts [] t [].
Proof.
  intros t _ _ Hs.
  destruct (splitWord_cases t) as [[_ H]|(l & c & r & _ & Hw & Hl & Hc & Hr)];
    [exact H|].
  assert (has_shape t = true) by (apply has_shape_iff; eauto 10).
  congruence.
Qed.

Lemma splitWord_fallback_witness :
  splitWord (lit "ab.cd") = Parts [] (lit "ab.cd") [] /\
  splitWord (lit "a'b!c") = Parts [] (lit "a'b!c") [].
Proof.
  split.
  - apply (splitWord_fallback (lit "ab.cd")); [discriminate|reflexivity|reflexivity].
  - apply (splitWord_fallback (lit "a'b!c")); [discriminate|reflexivity|reflexivity].
Defined.

(** The fallback is taken for the tokens without that shape only. *)
Lemma splitWord_shaped (t : jsstring) :
  has_shape t = true ->
  exists l c r,
    splitWord t = Parts l c r /\ t = l ++ c ++ r /\ core_shape c = true.
Proof.
  intros Hs.
  destruct (splitWord_cases t) as [[H _]|(l & c & r & H & Hw & _ & Hc & _)];
    [congruence|eauto 10].
Qed.

End Decomposition.

(** ** The tokenizer *)

Section Tokenizer.

(** C5, as the code has it.  [normalizeWords] drops a candidate exactly
    when the core [splitWord] gives it is empty, and that is the empty
    candidate only: every non-empty candidate is kept, with or without a
    letter or digit in it. *)
Theorem normalizeWords_keeps_nonempty :
  forall (text w : jsstring),
    In w (normalizeWords text) <-> In w (candidates text) /\ w <> [].
Proof.
  intros text w. unfold normalizeWords. rewrite filter_In.
  assert (H : (jslength (core (splitWord w)) >? 0)%Z = true <-> w <> []).
  { rewrite <- splitWord_core_empty. unfold jslength.
    destruct (core (splitWord w)) as [|a c]; split; intros H0.
    - discriminate H0.
    - congruence.
    - discriminate.
    - apply Z.gtb_lt. simpl List.length. lia. }
  rewrite H. reflexivity.
Qed.

(** C5 as stated fails: a dash between two words is a token of its own,
    with no letter or digit in it. *)
Lemma normalizeWords_keeps_dash :
  normalizeWords dashed_text = [lit "a"; [em_dash]; lit "b"] /\
  existsb alnum [em_dash] = false /\
  normalizeWords (lit "so -- ...") = [lit "so"; lit "--"; lit "..."].
Proof. split; [|split]; reflexivity. Qed.

End Tokenizer.

(** ** The chapter table *)

Section ChapterTable.

Lemma insert_asc_in (x y : Z) (l : list Z) :
  In y (insert_asc x l) <-> y = x \/ In y l.
Proof.
  induction l as [|z l IH]; simpl.
  - intuition congruence.
  - destruct (x <=? z)%Z; simpl; [intuition congruence|].
    rewrite IH. intuition congruence.
Qed.

Lemma insert_asc_sorted (x : Z) (l : list Z) :
  StronglySorted Z.le l -> StronglySorted Z.le (insert_asc x l).
Proof.
  induction 1 as [|z l Hs IH Hz]; simpl.
  - constructor; constructor.
  - destruct (Z.leb_spec x z).
    + constructor; [constructor; assumption|].
      constructor; [assumption|].
      eapply Forall_impl; [|exact Hz]. intros a Ha. simpl in Ha. lia.
    + constructor; [exact IH|].
      apply Forall_forall. intros a Ha. apply insert_asc_in in Ha.
      destruct Ha as [->|Ha]; [lia|].
      rewrite Forall_forall in Hz. auto.
Qed.

Lemma sort_asc_sorted (l : list Z) : StronglySorted Z.le (sort_asc l).
Proof.
  induction l as [|x l IH]; simpl; [constructor|].
  apply insert_asc_sorted. exact IH.
Qed.

Lemma sort_asc_in (y : Z) (l : list Z) : In y (sort_asc l) <-> In y l.
Proof.
  induction l as [|x l IH]; simpl; [tauto|].
  rewrite insert_asc_in, IH. intuition congruence.
Qed.

Lemma dedupe_in (l : list Z) :
  forall seen y,
    In y (dedupe seen l) <-> In y l /\ ~ In y seen.
Proof.
  induction l as [|x l IH]; intros seen y; simpl; [tauto|].
  destruct (existsb (Z.eqb x) seen) eqn:Hx.
  - rewrite IH. apply existsb_exists in Hx. destruct Hx as (z & Hz & Hxz).
    apply Z.eqb_eq in Hxz. subst z. intuition congruence.
  - assert (Hnot : ~ In x seen).
    { intros Hin. assert (existsb (Z.eqb x) seen = true).
      { apply existsb_exists. exists x. split; [exact Hin|apply Z.eqb_refl]. }
      congruence. }
    simpl. rewrite IH. simpl.
    destruct (Z.eq_dec x y) as [->|Hne]; intuition congruence.
Qed.

Lemma dedupe_sorted (l : list Z) :
  StronglySorted Z.le l ->
  forall seen, StronglySorted Z.lt (dedupe seen l).
Proof.
  induction 1 as [|x l Hs IH Hx]; intros seen; simpl; [constructor|].
  destruct (existsb (Z.eqb x) seen); [apply IH|].
  constructor; [apply IH|].
  apply Forall_forall. intros y Hy. apply dedupe_in in Hy.
  destruct Hy as [Hy Hns]. rewrite Forall_forall in Hx.
  specialize (Hx y Hy). simpl in Hns.
  assert (x <> y) by tauto. lia.
Qed.

(** The table is strictly increasing, and it starts at 0 when the
    recorded indices are not negative. *)
Lemma chapterStarts_sorted (tc : list tocItem) :
  Forall (fun it => (0 <= index it)%Z) tc ->
  StronglySorted Z.lt (chapterStarts tc).
Proof.
  intros Hpos. unfold chapterStarts. destruct tc as [|it tc]; [constructor|].
  set (l := List.map index (it :: tc)) in *.
  assert (Hl : forall y, In y (sort_asc (filter isFinite l)) -> (0 <= y)%Z).
  { intros y Hy. apply -> sort_asc_in in Hy. apply filter_In in Hy.
    destruct Hy as [Hy _]. unfold l in Hy. apply in_map_iff in Hy.
    destruct Hy as (a & <- & Ha). rewrite Forall_forall in Hpos. auto. }
  pose proof (sort_asc_sorted (filter isFinite l)) as Hs.
  destruct (sort_asc (filter isFinite l)) as [|s0 rest]; [constructor|].
  apply dedupe_sorted.
  destruct (s0 =? 0)%Z; simpl; [exact Hs|].
  constructor; [exact Hs|]. apply Forall_forall. exact Hl.
Qed.

(** On an increasing table the loop finds the smallest start after the
    position. *)
Lemma nextStartAfter_smallest (starts : list Z) (p s : Z) :
  StronglySorted Z.lt starts ->
  nextStartAfter starts p = Some s <-> smallest_after starts p s.
Proof.
  unfold smallest_after. induction 1 as [|c l Hs IH Hc]; simpl.
  - split; [discriminate|tauto].
  - rewrite Forall_forall in Hc. destruct (Z.gtb_spec c p) as [Hgt|Hle].
    + split.
      * intros [= <-]. split; [auto|]. split; [lia|].
        intros d [<-|Hd] _; [lia|]. specialize (Hc d Hd). lia.
      * intros ([<-|Hin] & Hp & Hmin); [reflexivity|].
        specialize (Hc s Hin). specialize (Hmin c (or_introl eq_refl)). f_equal. lia.
    + rewrite IH. split.
      * intros (Hin & Hp & Hmin). split; [auto|]. split; [exact Hp|].
        intros d [<-|Hd] Hpd; [lia|auto].
      * intros ([<-|Hin] & Hp & Hmin); [lia|].
        split; [exact Hin|]. split; [exact Hp|]. intros d Hd. apply Hmin. auto.
Qed.

Lemma nextStartAfter_gt (starts : list Z) (p s : Z) :
  nextStartAfter starts p = Some s -> (p < s)%Z.
Proof.
  induction starts as [|c l IH]; simpl; [discriminate|].
  destruct (Z.gtb_spec c p); [intros [= <-]; lia|exact IH].
Qed.

(** On an increasing table the skip branch of the updater is taken
    exactly at the end of a chapter. *)
Lemma skip_branch_iff (starts : list Z) (p : Z) :
  StronglySorted Z.lt starts ->
  ((jslength starts >? 1)%Z = true /\
   exists s, nextStartAfter starts p = Some s /\ (p >=? s - 1)%Z = true) <->
  at_chapter_end starts p.
Proof.
  intros Hs. unfold at_chapter_end. rewrite Z.gtb_lt. split.
  - intros (Hlen & s & Hn & Hge). split; [lia|]. exists s.
    pose proof (nextStartAfter_gt _ _ _ Hn).
    apply (nextStartAfter_smallest _ _ _ Hs) in Hn.
    apply Z.geb_le in Hge. split; [exact Hn|lia].
  - intros (Hlen & s & Hsm & Hp). split; [lia|]. exists s.
    apply (nextStartAfter_smallest _ _ _ Hs) in Hsm.
    split; [exact Hsm|]. apply Z.geb_le. lia.
Qed.

End ChapterTable.

(** ** Playback *)

Section Playback.

(** Before the last word the updater always lands on the next index:
    a jump to a chapter start is taken from the index just before it. *)
Lemma onTimeout_next (st : reader) :
  (currentIndex st < jslength (words st) - 1)%Z ->
  onTimeout st =
  Reader (words st) (currentIndex st + 1) (isPlaying st) (wpm st) (toc st).
Proof.
  intros Hlt. unfold onTimeout.
  destruct (Z.geb_spec (currentIndex st) (jslength (words st) - 1)); [lia|].
  f_equal.
  destruct (jslength (chapterStarts (toc st)) >? 1)%Z; [|reflexivity].
  destruct (nextStartAfter (chapterStarts (toc st)) (currentIndex st))
    as [s|] eqn:Hn; [|reflexivity].
  apply nextStartAfter_gt in Hn.
  destruct (Z.geb_spec (currentIndex st) (s - 1)); lia.
Qed.

Lemma onTimeout_last (st : reader) :
  (currentIndex st >= jslength (words st) - 1)%Z ->
  onTimeout st = Reader (words st) (currentIndex st) false (wpm st) (toc st).
Proof.
  intros Hge. unfold onTimeout.
  destruct (Z.geb_spec (currentIndex st) (jslength (words st) - 1)); [|lia].
  reflexivity.
Qed.

Lemma tick_running (st : reader) :
  isPlaying st = true -> PrimFloat.ltb 0 (wpm st) = true -> words st <> [] ->
  tick st = onTimeout st.
Proof.
  intros Hp Hr Hw. unfold tick. destruct st as [ws i pl r tc]. simpl in *.
  subst pl. rewrite scheduled_running by assumption. reflexivity.
Qed.

(** C2, as the code has it.  While the scheduler runs with a rate above
    zero on a non-empty stream, a tick at the last valid index or past it
    stops playback and leaves the position where it is; before the last
    index, the tick lands on the next chapter start when the table has
    more than one entry and the position is that start minus one, and
    otherwise advances the position by exactly one.  A position that is
    a valid index stays one; nothing brings a position past the end
    back. *)
Theorem tick_advances :
  forall st : reader,
    isPlaying st = true ->
    PrimFloat.ltb 0 (wpm st) = true ->
    words st <> [] ->
    let p := currentIndex st in
    let starts := chapterStarts (toc st) in
    (words (tick st) = words st /\ toc (tick st) = toc st /\
     wpm (tick st) = wpm st) /\
    ((0 <= p <= jslength (words st) - 1)%Z ->
     (0 <= currentIndex (tick st) <= jslength (words st) - 1)%Z) /\
    ((p >= jslength (words st) - 1)%Z ->
     isPlaying (tick st) = false /\ currentIndex (tick st) = p) /\
    ((p < jslength (words st) - 1)%Z ->
     isPlaying (tick st) = true /\
     (at_chapter_end starts p ->
      exists s, smallest_after starts p s /\ currentIndex (tick st) = s) /\
     (~ at_chapter_end starts p -> currentIndex (tick st) = (p + 1)%Z)).
Proof.
  intros st Hplay Hrate Hws p starts.
  rewrite (tick_running st Hplay Hrate Hws).
  destruct (Z_lt_ge_dec p (jslength (words st) - 1)) as [Hlt|Hge].
  - rewrite (onTimeout_next st Hlt). cbn [words toc wpm currentIndex isPlaying].
    fold p. split; [repeat split|]. split; [lia|]. split; [lia|].
    intros _. split; [exact Hplay|]. split; [|reflexivity].
    intros (_ & s & Hs & Hp). exists s. split; [exact Hs|]. lia.
  - rewrite (onTimeout_last st Hge). cbn [words toc wpm currentIndex isPlaying].
    fold p. split; [repeat split|]. split; [auto|]. split; [auto|]. lia.
Qed.

(** The chapter-skip scenario of the specification: six words, starts at
    0 and 4, position 3; and the end of the book. *)
Lemma tick_advances_witness :
  at_chapter_end (chapterStarts two_chapters) 3 /\
  currentIndex (tick (Reader six_words 3 true 300 two_chapters)) = 4%Z /\
  isPlaying (tick (Reader six_words 5 true 300 two_chapters)) = false /\
  currentIndex (tick (Reader six_words 5 true 300 two_chapters)) = 5%Z.
Proof.
  assert (Hend : at_chapter_end (chapterStarts two_chapters) 3).
  { split; [reflexivity|]. exists 4%Z. split; [|reflexivity].
    apply nextStartAfter_smallest; [|reflexivity].
    apply chapterStarts_sorted. repeat constructor; simpl; lia. }
  assert (Hsix : six_words <> []) by discriminate.
  pose proof (tick_advances (Reader six_words 3 true 300 two_chapters)
                eq_refl eq_refl Hsix) as (_ & _ & _ & Hmid).
  pose proof (tick_advances (Reader six_words 5 true 300 two_chapters)
                eq_refl eq_refl Hsix) as (_ & _ & Hlast & _).
  split; [exact Hend|].
  destruct (Hmid ltac:(vm_compute; reflexivity)) as (_ & Hjump & _).
  destruct (Hjump Hend) as (s & Hs & Hcur).
  split; [|exact (Hlast ltac:(vm_compute; discriminate))].
  rewrite Hcur. destruct Hs as (Hin & Hgt & Hmin). cbn in Hgt.
  specialize (Hmin 4%Z). cbn in Hmin.
  assert (s <= 4)%Z by (apply Hmin; [auto|lia]).
  simpl in Hin. destruct Hin as [<-|[<-|[]]]; lia.
Defined.

(** C2 as stated fails past the end.  The restore step opens a ten-word
    stream at the saved index 100; there the position is not the last
    index and no chapter ends, yet the tick does not advance: it stops
    and leaves the position at 100, out of bounds. *)
Lemma tick_stays_past_the_end :
  restoreLocation ten_words [] (Parses saved_past_end) =
    Opened (Session ten_words [] (JNum 100) (JArr [JNum 3]) false) /\
  100%Z <> (jslength ten_words - 1)%Z /\
  ~ at_chapter_end (chapterStarts []) 100 /\
  tick (Reader ten_words 100 true 300 []) = Reader ten_words 100 false 300 [] /\
  word_at ten_words 100 = None.
Proof.
  split; [reflexivity|]. split; [discriminate|]. split.
  - intros [H _]. vm_compute in H. discriminate H.
  - split; reflexivity.
Qed.

(** C9, as the code has it.  [togglePlay] sets the play flag of a stopped
    reader whatever the rate and the stream are, and leaves the position
    alone.  The guard is in the interval effect: with a rate above zero
    and a non-empty stream a timeout is set; with a rate of zero (or
    less) or an empty stream none is set and a tick changes nothing. *)
Theorem togglePlay_then_guard :
  forall st : reader,
    isPlaying st = false ->
    isPlaying (togglePlay st) = true /\
    currentIndex (togglePlay st) = currentIndex st /\
    (PrimFloat.ltb 0 (wpm st) = true -> words st <> [] ->
     exists ms, scheduled (togglePlay st) = Some ms) /\
    (PrimFloat.leb (wpm st) 0 = true \/ words st = [] ->
     scheduled (togglePlay st) = None /\ tick (togglePlay st) = togglePlay st).
Proof.
  intros [ws i pl r tc] Hp. simpl in Hp. subst pl.
  unfold togglePlay. cbn [words currentIndex isPlaying wpm toc negb].
  split; [reflexivity|]. split; [reflexivity|]. split.
  - intros Hr Hws. rewrite scheduled_running by assumption. eauto.
  - intros Hoff.
    assert (Hnone : scheduled (Reader ws i true r tc) = None).
    { unfold scheduled. cbn [words currentIndex isPlaying wpm toc negb orb].
      destruct Hoff as [-> | ->]; [reflexivity|].
      rewrite orb_true_r. reflexivity. }
    split; [exact Hnone|]. unfold tick. rewrite Hnone. reflexivity.
Qed.

Lemma togglePlay_then_guard_witness :
  isPlaying stopped_at_rate_zero = false /\
  isPlaying (togglePlay stopped_at_rate_zero) = true /\
  scheduled (togglePlay stopped_at_rate_zero) = None /\
  tick (togglePlay stopped_at_rate_zero) = togglePlay stopped_at_rate_zero /\
  (exists ms,
     scheduled (togglePlay (setWpm 300 stopped_at_rate_zero)) = Some ms).
Proof.
  pose proof (togglePlay_then_guard stopped_at_rate_zero eq_refl)
    as (Hflag & _ & _ & Hoff).
  pose proof (togglePlay_then_guard (setWpm 300 stopped_at_rate_zero) eq_refl)
    as (_ & _ & Hon & _).
  split; [reflexivity|]. split; [exact Hflag|].
  split; [apply Hoff; left; reflexivity|].
  split; [apply Hoff; left; reflexivity|].
  apply Hon; [reflexivity|discriminate].
Defined.

(** C9 as stated fails: at rate 0, and on an empty stream, play is not a
    no-op, the play flag changes; once the rate is raised the reader
    advances without another play. *)
Lemma togglePlay_sets_flag_at_rate_zero :
  isPlaying stopped_at_rate_zero = false /\
  togglePlay stopped_at_rate_zero <> stopped_at_rate_zero /\
  isPlaying (togglePlay stopped_at_rate_zero) = true /\
  isPlaying (togglePlay stopped_and_empty) = true /\
  currentIndex (tick (setWpm 300 (togglePlay stopped_at_rate_zero))) = 1%Z /\
  currentIndex (tick (setWpm 300 stopped_at_rate_zero)) = 0%Z.
Proof.
  split; [reflexivity|]. split; [discriminate|].
  repeat split.
Qed.

End Playback.

(** ** Restoring the saved position *)

Section Restore.

Variables (ws : list jsstring) (tc : list tocItem).

(** C8, as the code has it.  With no saved record the reader opens at
    position 0 with no bookmarks.  A record that is not JSON makes
    [JSON.parse] throw, and the catch handler of [parseBook] leaves the
    reader.  A record that parses always opens the reader, on the words
    and chapters just parsed: a truthy [currentIndex] becomes the
    position exactly as stored, in range or not, and truthy [bookmarks]
    replace the bookmarks, each whatever the other field holds; a field
    that is absent or falsy leaves the initial value, position 0 or no
    bookmarks. *)
Theorem restoreLocation_cases :
  restoreLocation ws tc Missing =
    Opened (Session ws tc (JNum 0) (JArr []) false) /\
  restoreLocation ws tc Corrupt = Aborted /\
  (forall (saved : json) (n : Z),
     prop saved "currentIndex" = Some (JNum n) -> n <> 0%Z ->
     exists s, restoreLocation ws tc (Parses saved) = Opened s /\
               s_currentIndex s = JNum n /\ s_isLoading s = false) /\
  (forall (saved : json),
     prop saved "currentIndex" = None -> prop saved "bookmarks" = None ->
     restoreLocation ws tc (Parses saved) =
       Opened (Session ws tc (JNum 0) (JArr []) false)) /\
  (forall saved : json,
     exists s,
       restoreLocation ws tc (Parses saved) = Opened s /\
       s_words s = ws /\ s_toc s = tc /\ s_isLoading s = false /\
       (forall v, prop saved "currentIndex" = Some v -> truthy v = true ->
                  s_currentIndex s = v) /\
       (forall b, prop saved "bookmarks" = Some b -> truthy b = true ->
                  s_bookmarks s = b) /\
       ((prop saved "currentIndex" = None \/
         exists v, prop saved "currentIndex" = Some v /\ truthy v = false) ->
        s_currentIndex s = JNum 0) /\
       ((prop saved "bookmarks" = None \/
         exists b, prop saved "bookmarks" = Some b /\ truthy b = false) ->
        s_bookmarks s = JArr [])).
Proof.
  split; [reflexivity|]. split; [reflexivity|]. split; [|split].
  - intros saved n Hprop Hn. eexists. split; [reflexivity|].
    split; [|reflexivity]. cbn [s_currentIndex]. unfold restored.
    destruct saved; try discriminate Hprop.
    cbn [truthy]. rewrite Hprop. cbn [truthy].
    destruct (Z.eqb_spec n 0); [contradiction|reflexivity].
  - intros saved H1 H2. unfold restoreLocation, restored. cbn [JSON_parse].
    rewrite H1, H2. destruct (truthy saved); reflexivity.
  - intros saved. eexists. split; [reflexivity|].
    cbn [s_words s_toc s_isLoading s_currentIndex s_bookmarks].
    assert (Hset : forall key initial v,
               prop saved key = Some v -> truthy v = true ->
               restored saved key initial = v).
    { intros key initial v Hp Hv. unfold restored.
      destruct saved; try discriminate Hp.
      cbn [truthy]. rewrite Hp, Hv. reflexivity. }
    assert (Hkeep : forall key initial,
               (prop saved key = None \/
                exists v, prop saved key = Some v /\ truthy v = false) ->
               restored saved key initial = initial).
    { intros key initial [Hp|(v & Hp & Hv)]; unfold restored; rewrite Hp.
      - destruct (truthy saved); reflexivity.
      - rewrite Hv. destruct (truthy saved); reflexivity. }
    repeat (split; [reflexivity|]).
    split; [apply Hset|]. split; [apply Hset|].
    split; apply Hkeep.
Qed.

End Restore.

Lemma restoreLocation_cases_witness :
  exists s, restoreLocation ten_words [] (Parses saved_past_end) = Opened s /\
            s_currentIndex s = JNum 100 /\ s_bookmarks s = JArr [JNum 3] /\
            s_isLoading s = false.
Proof.
  pose proof (restoreLocation_cases ten_words []) as (_ & _ & _ & _ & H).
  destruct (H saved_past_end) as (s & Hs & _ & _ & Hl & Hi & Hb & _).
  exists s. split; [exact Hs|].
  split; [apply Hi; reflexivity|]. split; [apply Hb; reflexivity|exact Hl].
Defined.

(** C8 as stated fails: a corrupt record aborts the opening of the book,
    and an index past the end of a ten-word stream is restored as it
    is. *)
Lemma restoreLocation_no_fallback_no_clamp :
  restoreLocation ten_words [] Corrupt = Aborted /\
  jslength ten_words = 10%Z /\
  restoreLocation ten_words [] (Parses saved_past_end) =
  Opened (Session ten_words [] (JNum 100) (JArr [JNum 3]) false).
Proof. split; [|split]; reflexivity. Qed.

(** ** Context lines *)

Section Lines.

Lemma afterLine_step (ws : list jsstring) (m r : Z) (lw : list jsstring)
    (len : Z) :
  afterLine ws m r lw len =
  if (r <? jslength ws)%Z then
    match word_at ws r with
    | None => None
    | Some w =>
        let add := (jslength w + (if len >? 0 then 1 else 0))%Z in
        if ((len + add >? m) && (len >? 0))%Z%bool then Some (lw, r)
        else afterLine ws m (r + 1) (lw ++ [w]) (len + add)
    end
  else Some (lw, r).
Proof.
  rewrite afterLine_equation_1.
  destruct (Z_lt_ge_dec r (jslength ws)) as [H|H]; simpl.
  - destruct (Z.ltb_spec r (jslength ws)); [|lia].
    destruct (word_at ws r); reflexivity.
  - destruct (Z.ltb_spec r (jslength ws)); [lia|]. reflexivity.
Qed.

Lemma beforeLine_step (ws : list jsstring) (m l : Z) (lw : list jsstring)
    (len : Z) :
  beforeLine ws m l lw len =
  if (0 <=? l)%Z then
    match word_at ws l with
    | None => None
    | Some w =>
        let add := (jslength w + (if len >? 0 then 1 else 0))%Z in
        if ((len + add >? m) && (len >? 0))%Z%bool then Some (lw, l)
        else beforeLine ws m (l - 1) (w :: lw) (len + add)
    end
  else Some (lw, l).
Proof.
  rewrite beforeLine_equation_1.
  destruct (Z_le_gt_dec 0 l) as [H|H]; simpl.
  - destruct (Z.leb_spec 0 l); [|lia].
    destruct (word_at ws l); reflexivity.
  - destruct (Z.leb_spec 0 l); [lia|]. reflexivity.
Qed.

Lemma jslength_app {A : Type} (a b : list A) :
  jslength (a ++ b) = (jslength a + jslength b)%Z.
Proof. unfold jslength. rewrite length_app. lia. Qed.

Lemma jslength_nonneg {A : Type} (a : list A) : (0 <= jslength a)%Z.
Proof. unfold jslength. lia. Qed.

Lemma join_cons (sep w : jsstring) (l : list jsstring) :
  l <> [] -> join sep (w :: l) = w ++ sep ++ join sep l.
Proof. destruct l; [congruence|reflexivity]. Qed.

Lemma join_snoc (sep w : jsstring) (l : list jsstring) :
  l <> [] -> join sep (l ++ [w]) = join sep l ++ sep ++ w.
Proof.
  induction l as [|a l IH]; [congruence|]. intros _.
  destruct l as [|b l]; [reflexivity|].
  change ((a :: b :: l) ++ [w]) with (a :: ((b :: l) ++ [w])).
  rewrite join_cons by (simpl; discriminate).
  rewrite IH by discriminate.
  rewrite (join_cons sep a (b :: l)) by discriminate.
  rewrite <- !app_assoc. reflexivity.
Qed.

Lemma join_pos (l : list jsstring) :
  Forall (fun w => w <> []) l -> l <> [] ->
  (0 < jslength (join [space] l))%Z.
Proof.
  intros Hne Hl. destruct l as [|w l]; [congruence|].
  inversion Hne as [|? ? Hw _]; subst.
  assert (0 < jslength w)%Z.
  { unfold jslength. destruct w; [congruence|]. simpl List.length. lia. }
  destruct l as [|b l]; [exact H|].
  rewrite join_cons by discriminate. rewrite jslength_app.
  pose proof (jslength_nonneg ([space] ++ join [space] (b :: l))). lia.
Qed.

Lemma firstn_snoc {A : Type} (l : list A) :
  forall n w, nth_error l n = Some w -> firstn (S n) l = firstn n l ++ [w].
Proof.
  induction l as [|a l IH]; intros [|n] w H; simpl in *; try discriminate.
  - injection H as ->. reflexivity.
  - f_equal. apply IH. exact H.
Qed.

Lemma skipn_cons_nth {A : Type} (l : list A) :
  forall i w, nth_error l i = Some w -> skipn i l = w :: skipn (S i) l.
Proof.
  induction l as [|a l IH]; intros [|i] w H; simpl in *; try discriminate.
  - injection H as ->. reflexivity.
  - apply IH. exact H.
Qed.

Lemma nth_error_skip {A : Type} (l : list A) :
  forall i n, nth_error (skipn i l) n = nth_error l (i + n).
Proof.
  induction l as [|a l IH]; intros [|i] n; simpl; try reflexivity.
  - destruct n; reflexivity.
  - apply IH.
Qed.

Lemma segment_snoc (ws : list jsstring) (i n : nat) (w : jsstring) :
  nth_error ws (i + n) = Some w ->
  segment ws i (S n) = segment ws i n ++ [w].
Proof.
  intros H. unfold segment. apply firstn_snoc.
  rewrite nth_error_skip. exact H.
Qed.

Lemma segment_cons (ws : list jsstring) (i n : nat) (w : jsstring) :
  nth_error ws i = Some w -> segment ws i (S n) = w :: segment ws (S i) n.
Proof.
  intros H. unfold segment. rewrite (skipn_cons_nth ws i w H). reflexivity.
Qed.

Lemma segment_length (ws : list jsstring) (i n : nat) :
  i + n <= List.length ws -> List.length (segment ws i n) = n.
Proof.
  intros H. unfold segment. rewrite firstn_length_le; [reflexivity|].
  rewrite length_skipn. lia.
Qed.

Lemma segment_nonempty (ws : list jsstring) (i n : nat) :
  Forall (fun w => w <> []) ws -> Forall (fun w => w <> []) (segment ws i n).
Proof.
  intros H. rewrite Forall_forall in *. intros w Hw. apply H.
  unfold segment in Hw.
  rewrite <- (firstn_skipn i ws). apply in_or_app. right.
  rewrite <- (firstn_skipn n (skipn i ws)). apply in_or_app. left. exact Hw.
Qed.

Lemma word_at_nat (ws : list jsstring) (k : nat) :
  word_at ws (Z.of_nat k) = nth_error ws k.
Proof.
  unfold word_at. destruct (Z.ltb_spec (Z.of_nat k) 0); [lia|].
  rewrite Nat2Z.id. reflexivity.
Qed.

Lemma nth_error_some {A : Type} (l : list A) (k : nat) :
  k < List.length l -> exists w, nth_error l k = Some w.
Proof.
  intros H. destruct (nth_error l k) eqn:E; [eauto|].
  apply nth_error_None in E. lia.
Qed.

Variable ws : list jsstring.
Variable maxChars : Z.
Hypothesis tokens_nonempty : Forall (fun w => w <> []) ws.

Lemma segment_len_pos (i n : nat) :
  i + S n <= List.length ws ->
  (0 < jslength (join [space] (segment ws i (S n))))%Z.
Proof.
  intros H. apply join_pos; [apply segment_nonempty; exact tokens_nonempty|].
  intros E. apply (f_equal (@List.length _)) in E.
  rewrite segment_length in E by exact H. discriminate.
Qed.

(** The loop after the current word, started with the words of
    [k0 .. k - 1] in hand, stops with the words of [k0 .. k' - 1]. *)
Lemma afterLine_segment :
  forall (n k0 k : nat),
    List.length ws - k = n -> k0 <= k <= List.length ws ->
    fits maxChars (segment ws k0 (k - k0)) ->
    exists k',
      afterLine ws maxChars (Z.of_nat k) (segment ws k0 (k - k0))
                (jslength (join [space] (segment ws k0 (k - k0)))) =
      Some (segment ws k0 (k' - k0), Z.of_nat k') /\
      k <= k' <= List.length ws /\
      fits maxChars (segment ws k0 (k' - k0)) /\
      (k < List.length ws -> k = k0 -> k < k').
Proof.
  induction n as [|n IH]; intros k0 k Hn Hk Hfit; rewrite afterLine_step.
  - destruct (Z.ltb_spec (Z.of_nat k) (jslength ws)) as [Hlt|_].
    { unfold jslength in Hlt. lia. }
    exists k. repeat split; auto; lia.
  - destruct (Z.ltb_spec (Z.of_nat k) (jslength ws)) as [_|Hge].
    2:{ unfold jslength in Hge. lia. }
    rewrite word_at_nat.
    destruct (nth_error_some ws k ltac:(lia)) as (w & Hw). rewrite Hw.
    assert (Hsnoc : segment ws k0 (S k - k0) = segment ws k0 (k - k0) ++ [w]).
    { replace (S k - k0) with (S (k - k0)) by lia. apply segment_snoc.
      replace (k0 + (k - k0)) with k by lia. exact Hw. }
    assert (Hlen1 : List.length (segment ws k0 (S k - k0)) = S k - k0)
      by (apply segment_length; lia).
    cbv zeta. destruct (k - k0) as [|d] eqn:Hd.
    + (* nothing in hand: the word is taken whatever its length *)
      cbn [segment firstn join] in *.
      change (jslength (@nil char)) with 0%Z.
      change (0 >? 0)%Z with false. rewrite andb_false_r.
      replace (Z.of_nat k + 1)%Z with (Z.of_nat (S k)) by lia.
      destruct (IH k0 (S k) ltac:(lia) ltac:(lia)) as (k' & He & Hk' & Hf & _).
      { right. right. rewrite Hlen1. lia. }
      rewrite Hsnoc in He. cbn [app join] in He. cbn [app].
      replace (0 + (jslength w + 0))%Z with (jslength w) by lia.
      exists k'. rewrite He. repeat split; auto; lia.
    + (* words in hand: the next one is taken if it fits *)
      pose proof (segment_len_pos k0 d ltac:(lia)) as Hpos.
      set (lw := segment ws k0 (S d)) in *.
      destruct (Z.gtb_spec (jslength (join [space] lw)) 0) as [_|Hle]; [|lia].
      rewrite andb_true_r.
      destruct (Z.gtb_spec
                  (jslength (join [space] lw) + (jslength w + 1)) maxChars)
        as [Hbig|Hsmall].
      * exists k. rewrite Hd. fold lw. repeat split; auto; try lia.
      * replace (Z.of_nat k + 1)%Z with (Z.of_nat (S k)) by lia.
        assert (Hne : lw <> []).
        { intros E. rewrite E in Hpos. cbn in Hpos. lia. }
        assert (Hjoin : jslength (join [space] (lw ++ [w])) =
                        (jslength (join [space] lw) + (jslength w + 1))%Z).
        { rewrite join_snoc by exact Hne. rewrite !jslength_app.
          change (jslength [space]) with 1%Z. lia. }
        destruct (IH k0 (S k) ltac:(lia) ltac:(lia)) as (k' & He & Hk' & Hf & _).
        { right. left. rewrite Hsnoc, Hjoin. exact Hsmall. }
        rewrite Hsnoc, Hjoin in He.
        exists k'. rewrite He. repeat split; auto; lia.
Qed.

(** The loop before the current word, started with the words of
    [k .. k0 - 1] in hand, stops with the words of [k' .. k0 - 1]. *)
Lemma beforeLine_segment :
  forall (k k0 : nat),
    k <= k0 <= List.length ws ->
    fits maxChars (segment ws k (k0 - k)) ->
    exists k',
      beforeLine ws maxChars (Z.of_nat k - 1) (segment ws k (k0 - k))
                 (jslength (join [space] (segment ws k (k0 - k)))) =
      Some (segment ws k' (k0 - k'), (Z.of_nat k' - 1)%Z) /\
      k' <= k /\
      fits maxChars (segment ws k' (k0 - k')) /\
      (0 < k -> k = k0 -> k' < k).
Proof.
  induction k as [|j IH]; intros k0 Hk Hfit; rewrite beforeLine_step.
  - change (0 <=? Z.of_nat 0 - 1)%Z with false.
    exists 0. repeat split; auto; lia.
  - destruct (Z.leb_spec 0 (Z.of_nat (S j) - 1)) as [_|Hneg]; [|lia].
    replace (Z.of_nat (S j) - 1)%Z with (Z.of_nat j) by lia.
    rewrite word_at_nat.
    destruct (nth_error_some ws j ltac:(lia)) as (w & Hw). rewrite Hw.
    assert (Hcons : segment ws j (k0 - j) = w :: segment ws (S j) (k0 - S j)).
    { replace (k0 - j) with (S (k0 - S j)) by lia.
      apply segment_cons. exact Hw. }
    assert (Hlen1 : List.length (segment ws j (k0 - j)) = k0 - j)
      by (apply segment_length; lia).
    cbv zeta. destruct (k0 - S j) as [|d] eqn:Hd.
    + cbn [segment firstn join] in *.
      change (jslength (@nil char)) with 0%Z.
      change (0 >? 0)%Z with false. rewrite andb_false_r.
      destruct (IH k0 ltac:(lia)) as (k' & He & Hk' & Hf & _).
      { right. right. rewrite Hlen1. lia. }
      rewrite Hcons in He. cbn [join] in He.
      replace (0 + (jslength w + 0))%Z with (jslength w) by lia.
      exists k'. rewrite He. repeat split; auto; lia.
    + pose proof (segment_len_pos (S j) d ltac:(lia)) as Hpos.
      set (lw := segment ws (S j) (S d)) in *.
      destruct (Z.gtb_spec (jslength (join [space] lw)) 0) as [_|Hle]; [|lia].
      rewrite andb_true_r.
      destruct (Z.gtb_spec
                  (jslength (join [space] lw) + (jslength w + 1)) maxChars)
        as [Hbig|Hsmall].
      * exists (S j). rewrite Hd. fold lw.
        replace (Z.of_nat (S j) - 1)%Z with (Z.of_nat j) by lia.
        repeat split; auto; try lia.
      * assert (Hne : lw <> []).
        { intros E. rewrite E in Hpos. cbn in Hpos. lia. }
        assert (Hjoin : jslength (join [space] (w :: lw)) =
                        (jslength (join [space] lw) + (jslength w + 1))%Z).
        { rewrite join_cons by exact Hne. rewrite !jslength_app.
          change (jslength [space]) with 1%Z. lia. }
        destruct (IH k0 ltac:(lia)) as (k' & He & Hk' & Hf & _).
        { right. left. rewrite Hcons, Hjoin. exact Hsmall. }
        rewrite Hcons, Hjoin in He.
        exists k'. rewrite He. repeat split; auto; lia.
Qed.

End Lines.

Section Composer.

Variable ws : list jsstring.
Variable maxChars : Z.
Hypothesis tokens_nonempty : Forall (fun w => w <> []) ws.

Lemma pushLine_ok (lo hi i0 n : nat) (i : Z) (lines : list line) :
  lo <= i0 -> i0 + n <= hi -> hi <= List.length ws ->
  fits maxChars (segment ws i0 n) ->
  Forall (line_ok ws maxChars lo hi) lines ->
  Forall (line_ok ws maxChars lo hi) (pushLine lines (segment ws i0 n) i) /\
  List.length (pushLine lines (segment ws i0 n) i) <= S (List.length lines).
Proof.
  intros Hlo Hhi Hws Hfit Hlines. unfold pushLine, jslength.
  rewrite segment_length by lia.
  destruct n as [|d]; [cbn; auto|].
  destruct (Z.gtb_spec (Z.of_nat (S d)) 0) as [_|Hle]; [|lia].
  rewrite length_app. cbn [List.length]. split; [|lia].
  apply Forall_app. split; [exact Hlines|]. constructor; [|constructor].
  exists i0, (S d). cbn [text]. repeat split; try lia.
  destruct Hfit as [Hnil|[Hlen|Hone]].
  - apply (f_equal (@List.length _)) in Hnil.
    rewrite segment_length in Hnil by lia. discriminate.
  - left. exact Hlen.
  - right. rewrite segment_length in Hone by lia. exact Hone.
Qed.

Lemma afterLoop_ok (lo : nat) :
  forall (n : nat) (i : Z) (k : nat) (after : list line),
    lo <= k <= List.length ws ->
    Forall (line_ok ws maxChars lo (List.length ws)) after ->
    exists after',
      afterLoop ws maxChars n i (Z.of_nat k) after = Some after' /\
      List.length after' <= List.length after + n /\
      Forall (line_ok ws maxChars lo (List.length ws)) after'.
Proof.
  induction n as [|n IH]; intros i k after Hk Hok; cbn [afterLoop].
  - exists after. repeat split; auto; lia.
  - destruct (Z.ltb_spec (Z.of_nat k) (jslength ws)) as [Hlt|Hge].
    2:{ exists after. repeat split; auto; lia. }
    destruct (afterLine_segment ws maxChars tokens_nonempty _ k k eq_refl)
      as (k' & He & Hk' & Hfit & _); [lia|left; rewrite Nat.sub_diag; reflexivity|].
    rewrite Nat.sub_diag in He. cbn [segment firstn join] in He.
    change (jslength (@nil char)) with 0%Z in He. rewrite He.
    destruct (pushLine_ok lo (List.length ws) k (k' - k) i after)
      as [Hpush Hlen]; auto; try lia.
    destruct (IH (i + 1)%Z k' (pushLine after (segment ws k (k' - k)) i))
      as (after' & Hrun & Hlen' & Hok'); auto; try lia.
    exists after'. repeat split; auto; lia.
Qed.

Lemma beforeLoop_ok (hi : nat) :
  hi <= List.length ws ->
  forall (n : nat) (i : Z) (k : nat) (before : list line),
    k <= hi ->
    Forall (line_ok ws maxChars 0 hi) before ->
    exists before',
      beforeLoop ws maxChars n i (Z.of_nat k - 1) before = Some before' /\
      List.length before' <= List.length before + n /\
      Forall (line_ok ws maxChars 0 hi) before'.
Proof.
  intros Hhi. induction n as [|n IH]; intros i k before Hk Hok;
    cbn [beforeLoop].
  - exists before. repeat split; auto; lia.
  - destruct (Z.geb_spec (Z.of_nat k - 1) 0) as [Hge|Hlt].
    2:{ exists before. repeat split; auto; lia. }
    destruct (beforeLine_segment ws maxChars tokens_nonempty k k)
      as (k' & He & Hk' & Hfit & _); [lia|left; rewrite Nat.sub_diag; reflexivity|].
    rewrite Nat.sub_diag in He. cbn [segment firstn join] in He.
    change (jslength (@nil char)) with 0%Z in He. rewrite He.
    destruct (pushLine_ok 0 hi k' (k - k') i before)
      as [Hpush Hlen]; auto; try lia.
    destruct (IH (i + 1)%Z k' (pushLine before (segment ws k' (k - k')) i))
      as (before' & Hrun & Hlen' & Hok'); auto; try lia.
    exists before'. repeat split; auto; lia.
Qed.

End Composer.

(** C6, as the code has it.  For every stream of non-empty tokens, every
    position in it and every [contextLineChars], the composer gives at
    most 3 lines before and at most 3 lines after the current token;
    each line is a run of consecutive tokens, before or after the
    current one, joined by single spaces; and its text is at most
    [max(18, contextLineChars)] long, unless the line is a single
    token. *)
Theorem contextLines_bounded :
  forall (ws : list jsstring) (currentIndex contextLineChars : Z),
    Forall (fun w => w <> []) ws ->
    (0 <= currentIndex < jslength ws)%Z ->
    exists before after,
      contextLines true ws currentIndex contextLineChars =
        Some (Context before after) /\
      List.length before <= 3 /\ List.length after <= 3 /\
      Forall (line_ok ws (Z.max 18 contextLineChars) 0 (Z.to_nat currentIndex))
             before /\
      Forall (line_ok ws (Z.max 18 contextLineChars)
                      (S (Z.to_nat currentIndex)) (List.length ws))
             after.
Proof.
  intros ws ci chars Hne Hci. unfold contextLines.
  destruct (Z.eqb_spec (jslength ws) 0) as [Hz|_]; [lia|].
  cbn [negb orb]. cbv zeta.
  assert (Hci' : Z.to_nat ci < List.length ws) by (unfold jslength in Hci; lia).
  replace (ci - 1)%Z with (Z.of_nat (Z.to_nat ci) - 1)%Z by lia.
  replace (ci + 1)%Z with (Z.of_nat (S (Z.to_nat ci))) by lia.
  destruct (beforeLoop_ok ws (Z.max 18 chars) Hne (Z.to_nat ci) ltac:(lia)
              3 0%Z (Z.to_nat ci) [])
    as (before & Hb & Hlb & Hokb); [lia|constructor|].
  destruct (afterLoop_ok ws (Z.max 18 chars) Hne (S (Z.to_nat ci))
              3 0%Z (S (Z.to_nat ci)) [])
    as (after & Ha & Hla & Hoka); [lia|constructor|].
  rewrite Hb, Ha. exists (rev before), after.
  split; [reflexivity|]. rewrite length_rev.
  split; [exact Hlb|]. split; [exact Hla|]. split; [|exact Hoka].
  apply Forall_rev. exact Hokb.
Qed.

(** The tokens of the specification, at index 2 with 5 characters asked
    for: one line on each side, each within the 18 characters the
    composer allows at least. *)
Lemma contextLines_bounded_witness :
  exists before after,
    contextLines true spec_tokens 2 5 = Some (Context before after) /\
    List.length before <= 3 /\ List.length after <= 3 /\
    Forall (line_ok spec_tokens 18 0 2) before /\
    Forall (line_ok spec_tokens 18 3 5) after.
Proof.
  apply (contextLines_bounded spec_tokens 2 5).
  - repeat constructor; discriminate.
  - vm_compute. split; [discriminate|reflexivity].
Defined.

(** C6 as stated fails on its own example: with 5 characters asked for,
    the line after the current token holds two tokens and is 6 long. *)
Lemma contextLines_exceeds_asked_width :
  contextLines true spec_tokens 2 5 =
    Some (Context [Line (lit "a bb") 1] [Line (lit "dddd e") 1]) /\
  lit "dddd e" = join [space] [lit "dddd"; lit "e"] /\
  (jslength (lit "dddd e") > 5)%Z /\
  ~ In (lit "dddd e") spec_tokens.
Proof.
  split; [reflexivity|]. split; [reflexivity|]. split; [reflexivity|].
  intros H. cbn in H. intuition discriminate.
Qed.

(** The two side conditions of [contextLines_bounded] are needed.  One
    index past the last word the loop before the current word reads
    [w.length] on [undefined]; and an empty token leaves the line empty
    for the test that lets the first word in whatever its length. *)
Example contextLines_past_the_end :
  contextLines true spec_tokens 6 5 = None.
Proof. reflexivity. Qed.

Example contextLines_empty_token :
  contextLines true [lit "x"; []; lit "yyyyyyyyyyyyyyyyyyyyyyyyy"] 0 5 =
  Some (Context [] [Line (space :: lit "yyyyyyyyyyyyyyyyyyyyyyyyy") 1]).
Proof. reflexivity. Qed.

(** ** Navigation *)

Section Navigation.

(** X1. A jump never leaves the stream: the new position is a valid index,
    and 0 when there is nothing to read. *)
Theorem jump_in_bounds :
  forall (amount : Z) (st : reader),
    words (jump amount st) = words st /\
    (0 <= currentIndex (jump amount st))%Z /\
    (words st = [] -> currentIndex (jump amount st) = 0%Z) /\
    (words st <> [] ->
     exists w, word_at (words st) (currentIndex (jump amount st)) = Some w).
Proof.
  intros amount [ws i pl r tc]. unfold jump. cbn [words currentIndex].
  split; [reflexivity|]. split; [lia|]. split.
  - intros ->. cbn. lia.
  - intros Hne. pose proof (jslength_nonneg ws) as Hlen.
    assert (0 < jslength ws)%Z.
    { unfold jslength in *. destruct ws; [congruence|]. simpl List.length. lia. }
    set (n := Z.max 0 (Z.min (jslength ws - 1) (i + amount))).
    assert (0 <= n < jslength ws)%Z by lia.
    replace n with (Z.of_nat (Z.to_nat n)) by lia. rewrite word_at_nat.
    apply nth_error_some. unfold jslength in *. lia.
Qed.

(** X2. Jumping by the distance to a target, as the bookmark list, the
    chapter list and the progress bar do, lands on the target when it is
    in the stream, whatever the position before; a target past the end
    lands on the last word and a negative one on the first. *)
Theorem jump_to_target :
  forall (st : reader) (target : Z),
    words st <> [] ->
    let landed := currentIndex (jump (target - currentIndex st) st) in
    ((0 <= target < jslength (words st))%Z -> landed = target) /\
    ((jslength (words st) <= target)%Z ->
     landed = (jslength (words st) - 1)%Z) /\
    ((target < 0)%Z -> landed = 0%Z).
Proof.
  intros [ws i pl r tc] target Hne. cbn [words currentIndex] in *.
  unfold jump. cbn [words currentIndex].
  assert (0 < jslength ws)%Z.
  { unfold jslength. destruct ws; [congruence|]. simpl List.length. lia. }
  replace (i + (target - i))%Z with target by lia.
  repeat split; intros; lia.
Qed.

Lemma jump_to_target_witness :
  six_words <> [] /\
  currentIndex (jump (4 - 1) (Reader six_words 1 true 300 two_chapters)) = 4%Z /\
  currentIndex (jump (6 - 1) (Reader six_words 1 true 300 two_chapters)) = 5%Z.
Proof.
  assert (Hne : six_words <> []) by discriminate.
  pose proof (jump_to_target (Reader six_words 1 true 300 two_chapters) 4 Hne)
    as (Hin & _ & _).
  pose proof (jump_to_target (Reader six_words 1 true 300 two_chapters) 6 Hne)
    as (_ & Hout & _).
  split; [exact Hne|]. split.
  - apply Hin. vm_compute. split; [discriminate|reflexivity].
  - apply Hout. vm_compute. discriminate.
Defined.

Lemma jump_in_bounds_witness :
  stopped_and_empty = Reader [] 0 false 300 [] /\
  currentIndex (jump 50 stopped_and_empty) = 0%Z /\
  (exists w,
     word_at six_words
       (currentIndex (jump 50 (Reader six_words 1 true 300 two_chapters))) =
     Some w).
Proof.
  pose proof (jump_in_bounds 50 stopped_and_empty) as (_ & _ & Hempty & _).
  pose proof (jump_in_bounds 50 (Reader six_words 1 true 300 two_chapters))
    as (_ & _ & _ & Hword).
  split; [reflexivity|]. split; [apply Hempty; reflexivity|].
  apply Hword. discriminate.
Defined.

End Navigation.

(** ** Bookmarks *)

Section Bookmarks.

Lemma insert_asc_below (x : Z) (l : list Z) :
  Forall (fun y => (x <= y)%Z) l -> insert_asc x l = x :: l.
Proof.
  destruct l as [|y l]; [reflexivity|]. intros H. inversion H; subst. simpl.
  destruct (Z.leb_spec x y); [reflexivity|lia].
Qed.

Lemma insert_asc_head (x b : Z) (l : list Z) :
  (b <= x)%Z -> Forall (fun y => (b <= y)%Z) l ->
  Forall (fun y => (b <= y)%Z) (insert_asc x l).
Proof.
  intros Hx Hl. apply Forall_forall. intros y Hy.
  apply insert_asc_in in Hy. destruct Hy as [->|Hy]; [exact Hx|].
  rewrite Forall_forall in Hl. auto.
Qed.

Lemma insert_asc_swap (x b : Z) (l : list Z) :
  Forall (fun y => (b <= y)%Z) l ->
  insert_asc b (insert_asc x l) = insert_asc x (b :: l).
Proof.
  intros Hl. cbn [insert_asc]. destruct (Z.leb_spec x b) as [Hxb|Hbx].
  - rewrite (insert_asc_below x l).
    2:{ eapply Forall_impl; [|exact Hl]. intros a Ha. simpl in Ha. lia. }
    cbn [insert_asc]. destruct (Z.leb_spec b x) as [Hbx|Hbx].
    + assert (b = x) by lia. subst. reflexivity.
    + rewrite (insert_asc_below b l Hl). reflexivity.
  - apply insert_asc_below. apply insert_asc_head; [lia|exact Hl].
Qed.

(** Sorting a sorted list with one more element at its end inserts the
    element. *)
Lemma sort_asc_snoc (x : Z) (l : list Z) :
  StronglySorted Z.le l -> sort_asc (l ++ [x]) = insert_asc x l.
Proof.
  induction 1 as [|b l Hs IH Hb]; [reflexivity|].
  change (sort_asc ((b :: l) ++ [x])) with (insert_asc b (sort_asc (l ++ [x]))).
  rewrite IH. apply insert_asc_swap. exact Hb.
Qed.

Lemma lt_sorted_le (l : list Z) :
  StronglySorted Z.lt l -> StronglySorted Z.le l.
Proof.
  induction 1 as [|b l Hs IH Hb]; constructor; [exact IH|].
  eapply Forall_impl; [|exact Hb]. intros a Ha. simpl in Ha. lia.
Qed.

Lemma insert_asc_lt_sorted (x : Z) (l : list Z) :
  StronglySorted Z.lt l -> ~ In x l -> StronglySorted Z.lt (insert_asc x l).
Proof.
  induction 1 as [|b l Hs IH Hb]; intros Hx; simpl.
  - constructor; constructor.
  - assert (x <> b) by (intros ->; apply Hx; left; reflexivity).
    assert (~ In x l) by (intros Hin; apply Hx; right; exact Hin).
    destruct (Z.leb_spec x b).
    + constructor; [constructor; assumption|].
      constructor; [lia|].
      eapply Forall_impl; [|exact Hb]. intros a Ha. simpl in Ha. lia.
    + constructor; [apply IH; assumption|].
      apply Forall_forall. intros a Ha. apply insert_asc_in in Ha.
      destruct Ha as [->|Ha]; [lia|]. rewrite Forall_forall in Hb. auto.
Qed.

Lemma filter_lt_sorted (f : Z -> bool) (l : list Z) :
  StronglySorted Z.lt l -> StronglySorted Z.lt (filter f l).
Proof.
  induction 1 as [|b l Hs IH Hb]; simpl; [constructor|].
  destruct (f b); [|exact IH]. constructor; [exact IH|].
  apply Forall_forall. intros a Ha. apply filter_In in Ha.
  rewrite Forall_forall in Hb. apply Hb. tauto.
Qed.

Lemma includes_iff (x : Z) (l : list Z) :
  existsb (Z.eqb x) l = true <-> In x l.
Proof.
  rewrite existsb_exists. split.
  - intros (y & Hy & He). apply Z.eqb_eq in He. subst. exact Hy.
  - intros H. exists x. split; [exact H|apply Z.eqb_refl].
Qed.

Lemma includes_not (x : Z) (l : list Z) :
  existsb (Z.eqb x) l = false <-> ~ In x l.
Proof.
  rewrite <- includes_iff. destruct (existsb (Z.eqb x) l); split; congruence.
Qed.

Lemma toggle_flips (bm : list Z) (i j : Z) :
  In j (toggleBookmark bm i) <->
  (j = i /\ ~ In i bm) \/ (j <> i /\ In j bm).
Proof.
  unfold toggleBookmark.
  destruct (existsb (Z.eqb i) bm) eqn:Hin.
  - apply includes_iff in Hin. rewrite filter_In.
    rewrite negb_true_iff, Z.eqb_neq. tauto.
  - apply includes_not in Hin. rewrite sort_asc_in, in_app_iff. simpl.
    destruct (Z.eq_dec j i) as [->|Hne]; [tauto|].
    split; [intros [H|[H|[]]]; [tauto|congruence]|tauto].
Qed.

(** X3. The bookmark button flips the membership of the current index and of
    no other. *)
Theorem toggleBookmark_member :
  forall (bookmarks : list Z) (currentIndex j : Z),
    In j (toggleBookmark bookmarks currentIndex) <->
    (j = currentIndex /\ ~ In currentIndex bookmarks) \/
    (j <> currentIndex /\ In j bookmarks).
Proof. intros bm i j. apply toggle_flips. Qed.

(** X4. A list of bookmarks in strictly increasing order stays so. *)
Theorem toggleBookmark_sorted :
  forall (bookmarks : list Z) (currentIndex : Z),
    StronglySorted Z.lt bookmarks ->
    StronglySorted Z.lt (toggleBookmark bookmarks currentIndex).
Proof.
  intros bm i Hs. unfold toggleBookmark.
  destruct (existsb (Z.eqb i) bm) eqn:Hin.
  - apply filter_lt_sorted. exact Hs.
  - apply includes_not in Hin.
    rewrite sort_asc_snoc by (apply lt_sorted_le; exact Hs).
    apply insert_asc_lt_sorted; assumption.
Qed.

Lemma toggleBookmark_sorted_witness :
  StronglySorted Z.lt [2; 5; 9]%Z /\
  StronglySorted Z.lt (toggleBookmark [2; 5; 9]%Z 7) /\
  toggleBookmark [2; 5; 9]%Z 7 = [2; 5; 7; 9]%Z.
Proof.
  assert (Hs : StronglySorted Z.lt [2; 5; 9]%Z)
    by (repeat constructor; lia).
  split; [exact Hs|]. split; [|reflexivity].
  apply (toggleBookmark_sorted [2; 5; 9]%Z 7 Hs).
Defined.

Lemma filter_absent (x : Z) (l : list Z) :
  ~ In x l -> filter (fun b => negb (b =? x)%Z) l = l.
Proof.
  induction l as [|b l IH]; [reflexivity|]. intros Hx. simpl.
  destruct (Z.eqb_spec b x) as [->|_]; [exfalso; apply Hx; left; reflexivity|].
  simpl. f_equal. apply IH. intros H. apply Hx. right. exact H.
Qed.

Lemma filter_insert_asc (x : Z) (l : list Z) :
  ~ In x l -> filter (fun b => negb (b =? x)%Z) (insert_asc x l) = l.
Proof.
  induction l as [|b l IH]; intros Hx; simpl.
  - rewrite Z.eqb_refl. reflexivity.
  - assert (b <> x) by (intros ->; apply Hx; left; reflexivity).
    assert (~ In x l) by (intros Hin; apply Hx; right; exact Hin).
    destruct (Z.leb_spec x b); simpl.
    + rewrite Z.eqb_refl. simpl.
      destruct (Z.eqb_spec b x); [contradiction|]. simpl.
      f_equal. apply filter_absent. assumption.
    + destruct (Z.eqb_spec b x); [contradiction|]. simpl.
      f_equal. apply IH. assumption.
Qed.

Lemma insert_asc_filter (x : Z) (l : list Z) :
  StronglySorted Z.lt l -> In x l ->
  insert_asc x (filter (fun b => negb (b =? x)%Z) l) = l.
Proof.
  induction 1 as [|b l Hs IH Hb]; intros Hx; [contradiction|].
  rewrite Forall_forall in Hb. simpl.
  destruct (Z.eqb_spec b x) as [->|Hne]; simpl.
  - rewrite filter_absent.
    2:{ intros Hin. specialize (Hb x Hin). lia. }
    apply insert_asc_below. apply Forall_forall. intros y Hy.
    specialize (Hb y Hy). lia.
  - destruct Hx as [->|Hx]; [congruence|]. specialize (Hb x Hx).
    destruct (Z.leb_spec x b); [lia|]. f_equal. apply IH. exact Hx.
Qed.

(** X5. Pressing the bookmark button twice at the same position gives the
    bookmarks back. *)
Theorem toggleBookmark_twice :
  forall (bookmarks : list Z) (currentIndex : Z),
    StronglySorted Z.lt bookmarks ->
    toggleBookmark (toggleBookmark bookmarks currentIndex) currentIndex =
    bookmarks.
Proof.
  intros bm i Hs.
  assert (Hflip := toggle_flips bm i i).
  unfold toggleBookmark at 1.
  destruct (existsb (Z.eqb i) (toggleBookmark bm i)) eqn:Hin2.
  - apply includes_iff in Hin2. apply Hflip in Hin2.
    destruct Hin2 as [[_ Hnot]|[Hne _]]; [|congruence].
    unfold toggleBookmark. rewrite (proj2 (includes_not i bm) Hnot).
    rewrite sort_asc_snoc by (apply lt_sorted_le; exact Hs).
    apply filter_insert_asc. exact Hnot.
  - apply includes_not in Hin2.
    assert (Hin : In i bm).
    { destruct (existsb (Z.eqb i) bm) eqn:E; [apply includes_iff; exact E|].
      exfalso. apply Hin2. apply Hflip. left.
      split; [reflexivity|apply includes_not; exact E]. }
    unfold toggleBookmark. rewrite (proj2 (includes_iff i bm) Hin).
    rewrite sort_asc_snoc.
    2:{ apply lt_sorted_le. apply filter_lt_sorted. exact Hs. }
    apply insert_asc_filter; assumption.
Qed.

Lemma toggleBookmark_twice_witness :
  StronglySorted Z.lt [2; 5; 9]%Z /\
  toggleBookmark (toggleBookmark [2; 5; 9]%Z 5) 5 = [2; 5; 9]%Z /\
  toggleBookmark (toggleBookmark [2; 5; 9]%Z 7) 7 = [2; 5; 9]%Z.
Proof.
  assert (Hs : StronglySorted Z.lt [2; 5; 9]%Z)
    by (repeat constructor; lia).
  split; [exact Hs|]. split.
  - apply (toggleBookmark_twice [2; 5; 9]%Z 5 Hs).
  - apply (toggleBookmark_twice [2; 5; 9]%Z 7 Hs).
Defined.

End Bookmarks.

(** ** The word on screen *)

Section Screen.

Lemma three_parts {A : Type} (s : list A) (n : nat) :
  firstn n s ++
  match nth_error s n with Some c => [c] | None => [] end ++
  skipn (S n) s = s.
Proof.
  revert s. induction n as [|n IH]; intros [|a s]; simpl; try reflexivity.
  f_equal. apply IH.
Qed.

(** The ORP index points inside a word that is not empty. *)
Lemma getORPIndex_inside (c : jsstring) :
  c <> [] -> (0 <= getORPIndex c < jslength c)%Z.
Proof.
  intros Hc. unfold getORPIndex.
  assert (0 < jslength c)%Z.
  { unfold jslength. destruct c; [congruence|]. simpl List.length. lia. }
  repeat match goal with
         | |- context [(?a <=? ?b)%Z] => destruct (Z.leb_spec a b)
         end; lia.
Qed.

Lemma or_else_core (w : jsstring) :
  or_else (core (splitWord w)) w = core (splitWord w).
Proof.
  destruct (core (splitWord w)) eqn:Hc; [|reflexivity].
  apply (proj1 (splitWord_core_empty w)) in Hc. subst. reflexivity.
Qed.

Lemma splitWord_concat (w : jsstring) :
  leading (splitWord w) ++ core (splitWord w) ++ trailing (splitWord w) = w.
Proof.
  destruct (splitWord_cases w) as [[_ ->]|(l & c & t & -> & Hw & _)];
    cbn [leading core trailing].
  - rewrite app_nil_r. reflexivity.
  - symmetry. exact Hw.
Qed.

(** X6. The three parts on screen always spell the current word: nothing is
    lost or repeated around the highlighted character, whatever the word
    and the position; off the stream all three are empty. *)
Theorem render_spells_word :
  forall (ws : list jsstring) (currentIndex : Z),
    leftPart (render ws currentIndex) ++ centerChar (render ws currentIndex)
      ++ rightPart (render ws currentIndex) =
    match word_at ws currentIndex with
    | Some w => w
    | None => []
    end.
Proof.
  intros ws i. unfold render. cbn [leftPart centerChar rightPart].
  set (w := match word_at ws i with Some w => w | None => [] end).
  rewrite or_else_core.
  set (c := core (splitWord w)).
  unfold slice_to, slice_from, char_or_empty.
  assert (Ho : (0 <= getORPIndex c)%Z).
  { unfold getORPIndex.
    repeat match goal with
           | |- context [(?a <=? ?b)%Z] => destruct (Z.leb_spec a b)
           end; lia. }
  replace (Z.to_nat (getORPIndex c + 1)) with (S (Z.to_nat (getORPIndex c)))
    by lia.
  etransitivity; [|exact (splitWord_concat w)]. fold c.
  rewrite <- app_assoc. f_equal. rewrite !app_assoc. f_equal.
  rewrite <- app_assoc. apply three_parts.
Qed.

(** X7. For a word that is not empty the highlighted part is exactly one
    character, the one of the core at the ORP index. *)
Theorem render_center_is_one_char :
  forall (ws : list jsstring) (currentIndex : Z) (w : jsstring),
    word_at ws currentIndex = Some w -> w <> [] ->
    exists c,
      centerChar (render ws currentIndex) = [c] /\
      nth_error (core (splitWord w))
                (Z.to_nat (getORPIndex (core (splitWord w)))) = Some c /\
      jslength (leftPart (render ws currentIndex)) =
        (jslength (leading (splitWord w)) + getORPIndex (core (splitWord w)))%Z.
Proof.
  intros ws i w Hw Hne. unfold render. cbn [leftPart centerChar rightPart].
  rewrite Hw, or_else_core.
  set (c := core (splitWord w)).
  assert (Hc : c <> []).
  { unfold c. intros E. apply (proj1 (splitWord_core_empty w)) in E.
    contradiction. }
  pose proof (getORPIndex_inside c Hc) as Hin.
  unfold char_or_empty, slice_to.
  destruct (nth_error_some c (Z.to_nat (getORPIndex c))) as (x & Hx).
  { unfold jslength in Hin. lia. }
  exists x. rewrite Hx. repeat split.
  rewrite jslength_app. f_equal. unfold jslength.
  rewrite firstn_length_le; [lia|]. unfold jslength in Hin. lia.
Qed.

Lemma render_center_is_one_char_witness :
  word_at [lit "(don't!)"] 0 = Some (lit "(don't!)") /\
  exists c,
    centerChar (render [lit "(don't!)"] 0) = [c] /\
    nth_error (core (splitWord (lit "(don't!)")))
              (Z.to_nat (getORPIndex (core (splitWord (lit "(don't!)"))))) =
      Some c /\
    jslength (leftPart (render [lit "(don't!)"] 0)) =
      (jslength (leading (splitWord (lit "(don't!)")))
       + getORPIndex (core (splitWord (lit "(don't!)"))))%Z.
Proof.
  split; [reflexivity|].
  apply (render_center_is_one_char [lit "(don't!)"] 0 (lit "(don't!)"));
    [reflexivity|discriminate].
Defined.

End Screen.

(** ** Playing to the end *)

Section PlayToEnd.

Lemma tick_stopped (st : reader) : isPlaying st = false -> tick st = st.
Proof.
  intros Hp. unfold tick, scheduled. rewrite Hp. reflexivity.
Qed.

Lemma iter_tick_stopped (n : nat) (st : reader) :
  isPlaying st = false -> Nat.iter n tick st = st.
Proof.
  intros Hp. induction n as [|n IH]; [reflexivity|].
  simpl. rewrite IH. apply tick_stopped. exact Hp.
Qed.

Lemma iter_tick_shift (n : nat) (st : reader) :
  Nat.iter (S n) tick st = Nat.iter n tick (tick st).
Proof.
  induction n as [|n IH]; [reflexivity|].
  simpl in *. rewrite IH. reflexivity.
Qed.

(** X8. Left alone on a stream that is not empty, a running reader with a
    rate above zero that stands before the last word shows every word
    from its position to the last one, one per tick, then stops there:
    after [n] ticks the position is [min (p + n) (length - 1)], and the
    reader still plays exactly as long as [p + n] is at most the last
    index.  A reader that stands on the last word or past the end, where
    a restored position can put it, stays where it is and is stopped by
    the first tick.  The words, the rate and the chapters never
    change. *)
Theorem ticks_play_to_end :
  forall (n : nat) (ws : list jsstring) (p : Z) (r : float)
         (tc : list tocItem),
    PrimFloat.ltb 0 r = true ->
    ws <> [] ->
    Nat.iter n tick (Reader ws p true r tc) =
    if (p <? jslength ws - 1)%Z
    then Reader ws (Z.min (p + Z.of_nat n) (jslength ws - 1))
                (p + Z.of_nat n <=? jslength ws - 1)%Z r tc
    else Reader ws p (Nat.eqb n 0) r tc.
Proof.
  induction n as [|n IH]; intros ws p r tc Hr Hws.
  - simpl. rewrite Z.add_0_r.
    destruct (Z.ltb_spec p (jslength ws - 1)); [|reflexivity].
    destruct (Z.leb_spec p (jslength ws - 1)); [|lia].
    f_equal. lia.
  - rewrite iter_tick_shift.
    rewrite (tick_running (Reader ws p true r tc) eq_refl Hr Hws).
    destruct (Z.ltb_spec p (jslength ws - 1)) as [Hlt|Hge].
    + rewrite onTimeout_next by exact Hlt.
      cbn [words currentIndex isPlaying wpm toc].
      rewrite IH by assumption.
      replace (p + 1 + Z.of_nat n)%Z with (p + Z.of_nat (S n))%Z by lia.
      destruct (Z.ltb_spec (p + 1) (jslength ws - 1)) as [Hlt'|Hge'];
        [reflexivity|].
      destruct n as [|n].
      * cbn [Nat.eqb].
        destruct (Z.leb_spec (p + Z.of_nat 1) (jslength ws - 1)); [|lia].
        f_equal. lia.
      * cbn [Nat.eqb].
        destruct (Z.leb_spec (p + Z.of_nat (S (S n))) (jslength ws - 1));
          [lia|].
        f_equal. lia.
    + rewrite onTimeout_last by (cbn [words currentIndex]; lia).
      cbn [words currentIndex isPlaying wpm toc].
      rewrite iter_tick_stopped by reflexivity. reflexivity.
Qed.

Lemma ticks_play_to_end_witness :
  PrimFloat.ltb 0 300 = true /\
  Nat.iter 2 tick (Reader six_words 1 true 300 two_chapters) =
    Reader six_words 3 true 300 two_chapters /\
  Nat.iter 9 tick (Reader six_words 1 true 300 two_chapters) =
    Reader six_words 5 false 300 two_chapters /\
  Nat.iter 3 tick (Reader ten_words 100 true 300 []) =
    Reader ten_words 100 false 300 [].
Proof.
  split; [reflexivity|]. split; [|split].
  - apply (ticks_play_to_end 2 six_words 1 300 two_chapters);
      [reflexivity|discriminate].
  - apply (ticks_play_to_end 9 six_words 1 300 two_chapters);
      [reflexivity|discriminate].
  - apply (ticks_play_to_end 3 ten_words 100 300 []);
      [reflexivity|discriminate].
Defined.

End PlayToEnd.

(** ** The chapter table, again *)

Section ChapterTableShape.

Lemma chapterStarts_head (tc : list tocItem) :
  tc <> [] -> exists rest, chapterStarts tc = 0%Z :: rest.
Proof.
  intros Hne. unfold chapterStarts. destruct tc as [|it tc]; [congruence|].
  set (l := sort_asc (filter isFinite (List.map index (it :: tc)))).
  assert (Hin : In (index it) l).
  { unfold l. apply sort_asc_in. apply filter_In. split; [|reflexivity].
    left. reflexivity. }
  destruct l as [|s0 rest]; [contradiction|].
  destruct (Z.eqb_spec s0 0) as [->|Hs0]; cbn [negb dedupe existsb]; eauto.
Qed.

Lemma chapterStarts_in (tc : list tocItem) :
  tc <> [] ->
  forall y, In y (chapterStarts tc) <-> y = 0%Z \/ In y (List.map index tc).
Proof.
  intros Hne y. unfold chapterStarts. destruct tc as [|it tc]; [congruence|].
  set (l := sort_asc (filter isFinite (List.map index (it :: tc)))).
  assert (Hl : forall z, In z l <-> In z (List.map index (it :: tc))).
  { intros z. unfold l. rewrite sort_asc_in, filter_In.
    unfold isFinite. tauto. }
  assert (Hin : In (index it) l) by (apply Hl; left; reflexivity).
  destruct l as [|s0 rest] eqn:El; [contradiction|].
  rewrite dedupe_in.
  destruct (Z.eqb_spec s0 0) as [Hs0|Hs0]; cbn [negb].
  - rewrite Hl. split; [tauto|]. intros [->|H]; [|tauto].
    split; [|tauto]. apply Hl. left. exact Hs0.
  - change (In y (0%Z :: s0 :: rest))
      with (0%Z = y \/ In y (s0 :: rest)).
    rewrite Hl. split; [intros [[H|H] _]; auto|].
    intros [->|H]; tauto.
Qed.

(** X9. A table of contents with indices that are not negative gives a
    chapter table that starts at 0, is strictly increasing (so it has no
    duplicates) and holds 0 and the recorded indices, nothing else. *)
Theorem chapterStarts_table :
  forall tc : list tocItem,
    tc <> [] ->
    Forall (fun it => (0 <= index it)%Z) tc ->
    (exists rest, chapterStarts tc = 0%Z :: rest) /\
    StronglySorted Z.lt (chapterStarts tc) /\
    (forall y, In y (chapterStarts tc) <->
               y = 0%Z \/ In y (List.map index tc)).
Proof.
  intros tc Hne Hpos.
  split; [apply chapterStarts_head; exact Hne|].
  split; [apply chapterStarts_sorted; exact Hpos|].
  apply chapterStarts_in. exact Hne.
Qed.

Lemma chapterStarts_table_witness :
  chapterStarts [TocItem (lit "b") 7; TocItem (lit "a") 3; TocItem (lit "c") 7]
    = [0; 3; 7]%Z /\
  StronglySorted Z.lt
    (chapterStarts
       [TocItem (lit "b") 7; TocItem (lit "a") 3; TocItem (lit "c") 7]).
Proof.
  split; [reflexivity|].
  apply (chapterStarts_table
           [TocItem (lit "b") 7; TocItem (lit "a") 3; TocItem (lit "c") 7]).
  - discriminate.
  - repeat constructor; simpl; lia.
Defined.

End ChapterTableShape.

(** ** The navigation search *)

Section NavSearch.

Lemma find_app_first {A : Type} (f : A -> bool) (a b : list A) :
  find f (a ++ b) =
  match find f a with
  | Some x => Some x
  | None => find f b
  end.
Proof.
  induction a as [|x a IH]; [reflexivity|]. simpl.
  destruct (f x); [reflexivity|exact IH].
Qed.

Lemma findTocItem_flatten (href : jsstring) :
  forall item : navItem,
    findTocItem href item = find (href_matches href) (flattenNav item).
Proof.
  fix IH 1. intros [l h subs].
  cbn [findTocItem flattenNav find].
  destruct (href_matches href (NavItem l h subs)); [reflexivity|].
  destruct subs as [sl|]; [|reflexivity].
  induction sl as [|it sl IHsl]; [reflexivity|].
  cbn [flat_map]. rewrite find_app_first, <- (IH it).
  destruct (findTocItem href it); [reflexivity|exact IHsl].
Qed.

(** X10. [findToc] returns the first entry of the navigation, parents before
    children, whose reference contains the reference of the section or is
    contained in it; it returns nothing exactly when no entry at any
    depth is such. *)
Theorem findToc_first_match :
  forall (nav : list navItem) (href : jsstring),
    findToc nav href = find (href_matches href) (flat_map flattenNav nav).
Proof.
  intros nav href. induction nav as [|item nav IH]; [reflexivity|].
  cbn [findToc flat_map]. rewrite find_app_first, <- findTocItem_flatten.
  destruct (findTocItem href item); [reflexivity|exact IH].
Qed.

End NavSearch.

(** ** The loop over the spine *)

Section Spine.

Variable nav : list navItem.

Lemma parseSection_words (w : list jsstring) (t : list tocItem) (n : Z)
    (item : spineItem) :
  parseSection nav (w, t, n) item =
  (w ++ sectionWords item,
   t ++ match findToc nav (sp_href item) with
        | Some tocMatch => [TocItem (nav_label_of tocMatch) n]
        | None => []
        end,
   (n + jslength (sectionWords item))%Z).
Proof.
  unfold parseSection, sectionWords.
  assert (Ht : match findToc nav (sp_href item) with
               | Some tocMatch => t ++ [TocItem (nav_label_of tocMatch) n]
               | None => t
               end =
               t ++ match findToc nav (sp_href item) with
                    | Some tocMatch => [TocItem (nav_label_of tocMatch) n]
                    | None => []
                    end).
  { destruct (findToc nav (sp_href item)); [reflexivity|].
    rewrite app_nil_r. reflexivity. }
  rewrite Ht.
  destruct (sp_text item) as [raw|].
  - cbv zeta. destruct (jslength (cleanText raw) >? 0)%Z; [reflexivity|].
    rewrite app_nil_r. change (jslength (@nil jsstring)) with 0%Z.
    rewrite Z.add_0_r. reflexivity.
  - rewrite app_nil_r. change (jslength (@nil jsstring)) with 0%Z.
    rewrite Z.add_0_r. reflexivity.
Qed.

(** The loop with its three accumulators, section by section. *)
Lemma parse_loop (spine : list spineItem) :
  forall (w : list jsstring) (t : list tocItem) (n : Z),
    fold_left (parseSection nav) spine (w, t, n) =
    (w ++ flat_map sectionWords spine,
     t ++ chaptersFrom nav n spine,
     (n + jslength (flat_map sectionWords spine))%Z).
Proof.
  induction spine as [|item spine IH]; intros w t n.
  - simpl. rewrite !app_nil_r. change (jslength (@nil jsstring)) with 0%Z.
    rewrite Z.add_0_r. reflexivity.
  - cbn [fold_left flat_map chaptersFrom].
    rewrite parseSection_words, IH, jslength_app, <- !app_assoc.
    f_equal. lia.
Qed.

Lemma parseEpub_loop (spine : list spineItem) :
  parseEpub nav spine =
  match flat_map sectionWords spine with
  | [] => None
  | _ :: _ =>
      Some (flat_map sectionWords spine, chaptersFrom nav 0 spine)
  end.
Proof.
  unfold parseEpub. rewrite parse_loop. cbn [app].
  destruct (flat_map sectionWords spine) as [|w ws]; [reflexivity|].
  destruct (Z.eqb_spec (jslength (w :: ws)) 0) as [H|_]; [|reflexivity].
  unfold jslength in H. simpl List.length in H. lia.
Qed.

Lemma flat_map_nil_iff {A B : Type} (f : A -> list B) (l : list A) :
  flat_map f l = [] <-> Forall (fun x => f x = []) l.
Proof.
  induction l as [|x l IH]; simpl.
  - split; [constructor|reflexivity].
  - split.
    + intros H. apply app_eq_nil in H. destruct H as [H1 H2].
      constructor; [exact H1|apply IH; exact H2].
    + intros H. inversion H as [|? ? H1 H2]; subst.
      rewrite H1. apply IH. exact H2.
Qed.

(** X11. The book is rejected as empty exactly when no section gives a word:
    a section that fails to load, or whose text is blank, counts for
    nothing and stops nothing. *)
Theorem parseEpub_empty_book :
  forall spine : list spineItem,
    parseEpub nav spine = None <->
    Forall (fun item => sectionWords item = []) spine.
Proof.
  intros spine. rewrite parseEpub_loop, <- flat_map_nil_iff.
  destruct (flat_map sectionWords spine); split; congruence.
Qed.

(** X12. The words of the book are the words of its sections in spine order,
    and a section found in the navigation gets a chapter whose index is
    the number of words before the section: when the section has words,
    the chapter starts on its first word. *)
Theorem parseEpub_chapter_at_first_word :
  forall (before after : list spineItem) (item : spineItem)
         (tocMatch : navItem) (ws : list jsstring) (tc : list tocItem),
    parseEpub nav (before ++ item :: after) = Some (ws, tc) ->
    findToc nav (sp_href item) = Some tocMatch ->
    let start := jslength (flat_map sectionWords before) in
    ws = flat_map sectionWords before ++ sectionWords item
           ++ flat_map sectionWords after /\
    In (TocItem (nav_label_of tocMatch) start) tc /\
    (forall w rest, sectionWords item = w :: rest ->
                    word_at ws start = Some w).
Proof.
  intros before after item m ws tc Hparse Hfind start.
  rewrite parseEpub_loop in Hparse.
  destruct (flat_map sectionWords (before ++ item :: after)) as [|w0 ws0] eqn:Hw;
    [discriminate|].
  injection Hparse as <- <-.
  rewrite flat_map_app in Hw. cbn [flat_map] in Hw.
  split; [symmetry; exact Hw|]. split.
  - clear Hw. unfold start.
    assert (Hgen : forall n0,
               In (TocItem (nav_label_of m)
                           (n0 + jslength (flat_map sectionWords before)))
                  (chaptersFrom nav n0 (before ++ item :: after))).
    { induction before as [|b before IH]; intros n0.
      - cbn [app chaptersFrom flat_map]. rewrite Hfind.
        change (jslength (@nil jsstring)) with 0%Z. rewrite Z.add_0_r.
        left. reflexivity.
      - cbn [app chaptersFrom flat_map]. apply in_or_app. right.
        rewrite jslength_app, Z.add_assoc. apply IH. }
    specialize (Hgen 0%Z). rewrite Z.add_0_l in Hgen. exact Hgen.
  - intros w rest Hitem. rewrite <- Hw, Hitem. unfold start, jslength.
    rewrite word_at_nat, nth_error_app2 by lia.
    rewrite Nat.sub_diag. reflexivity.
Qed.

End Spine.

(** ** The chapters of a parsed book *)

Section ParsedChapters.

Variable nav : list navItem.

Lemma chaptersFrom_bounds (spine : list spineItem) :
  forall n : Z,
    Forall (fun it =>
              (n <= index it <= n + jslength (flat_map sectionWords spine))%Z)
           (chaptersFrom nav n spine) /\
    StronglySorted Z.le (List.map index (chaptersFrom nav n spine)).
Proof.
  induction spine as [|item spine IH]; intros n.
  - split; constructor.
  - cbn [chaptersFrom flat_map].
    destruct (IH (n + jslength (sectionWords item))%Z) as [Hb Hs].
    pose proof (jslength_nonneg (sectionWords item)) as Hitem.
    pose proof (jslength_nonneg (flat_map sectionWords spine)) as Hrest.
    assert (Hb' : Forall
                    (fun it =>
                       (n <= index it <=
                        n + jslength (sectionWords item
                                        ++ flat_map sectionWords spine))%Z)
                    (chaptersFrom nav (n + jslength (sectionWords item)) spine)).
    { eapply Forall_impl; [|exact Hb]. intros it Hit. simpl in Hit.
      rewrite jslength_app. lia. }
    destruct (findToc nav (sp_href item)) as [m|]; cbn [app List.map].
    + split.
      * constructor; [|exact Hb']. cbn [index]. rewrite jslength_app. lia.
      * constructor; [exact Hs|]. cbn [index].
        apply Forall_forall. intros y Hy. apply in_map_iff in Hy.
        destruct Hy as (it & <- & Hit). rewrite Forall_forall in Hb.
        specialize (Hb it Hit). lia.
    + split; [exact Hb'|exact Hs].
Qed.

(** X13. The chapters of a parsed book come in reading order, each index
    between 0 and the number of words; the chapter table built from them
    is strictly increasing and stays within the same bounds.  An index
    can equal the number of words: a listed section at the end of the
    book that gives no word. *)
Theorem parseEpub_chapters_in_order :
  forall (spine : list spineItem) (ws : list jsstring) (tc : list tocItem),
    parseEpub nav spine = Some (ws, tc) ->
    ws <> [] /\
    StronglySorted Z.le (List.map index tc) /\
    Forall (fun it => (0 <= index it <= jslength ws)%Z) tc /\
    StronglySorted Z.lt (chapterStarts tc) /\
    Forall (fun s => (0 <= s <= jslength ws)%Z) (chapterStarts tc).
Proof.
  intros spine ws tc Hparse. rewrite parseEpub_loop in Hparse.
  destruct (flat_map sectionWords spine) as [|w0 ws0] eqn:Hw; [discriminate|].
  injection Hparse as <- <-.
  destruct (chaptersFrom_bounds spine 0) as [Hb Hs]. rewrite Hw in Hb.
  rewrite Z.add_0_l in Hb.
  assert (Hpos : Forall (fun it => (0 <= index it)%Z) (chaptersFrom nav 0 spine)).
  { eapply Forall_impl; [|exact Hb]. intros it Hit. simpl in Hit. lia. }
  split; [discriminate|]. split; [exact Hs|]. split; [exact Hb|].
  split; [apply chapterStarts_sorted; exact Hpos|].
  apply Forall_forall. intros s Hin.
  destruct (chaptersFrom nav 0 spine) as [|it tc] eqn:Htc; [contradiction|].
  apply chapterStarts_in in Hin; [|discriminate].
  destruct Hin as [->|Hin].
  - pose proof (jslength_nonneg (w0 :: ws0)). lia.
  - apply in_map_iff in Hin. destruct Hin as (x & <- & Hx).
    rewrite Forall_forall in Hb. apply Hb. exact Hx.
Qed.

(** X14. Choosing a chapter in the table of contents of a parsed book always
    lands on a word of the book: the first word of the chapter, or the
    last word of the book for a chapter recorded past it. *)
Theorem chapter_click_lands_in_book :
  forall (spine : list spineItem) (ws : list jsstring) (tc : list tocItem)
         (item : tocItem) (st : reader),
    parseEpub nav spine = Some (ws, tc) ->
    In item tc ->
    words st = ws ->
    let landed := currentIndex (jump (index item - currentIndex st) st) in
    landed = Z.min (index item) (jslength ws - 1) /\
    exists w, word_at ws landed = Some w.
Proof.
  intros spine ws tc item st Hparse Hin Hws landed.
  rewrite parseEpub_loop in Hparse.
  destruct (flat_map sectionWords spine) as [|w0 ws0] eqn:Hw; [discriminate|].
  injection Hparse as <- <-.
  destruct (chaptersFrom_bounds spine 0) as [Hb _]. rewrite Hw in Hb.
  rewrite Forall_forall in Hb. specialize (Hb item Hin).
  assert (Hlen : (0 < jslength (w0 :: ws0))%Z).
  { unfold jslength. simpl List.length. lia. }
  assert (Hl : landed = Z.min (index item) (jslength (w0 :: ws0) - 1)).
  { unfold landed, jump. cbn [currentIndex]. rewrite Hws. lia. }
  split; [exact Hl|]. rewrite Hl.
  set (n := Z.min (index item) (jslength (w0 :: ws0) - 1)).
  replace n with (Z.of_nat (Z.to_nat n)) by lia. rewrite word_at_nat.
  apply nth_error_some. unfold jslength in *. lia.
Qed.

End ParsedChapters.

Lemma parseEpub_chapter_at_first_word_witness :
  parseEpub small_nav small_spine =
    Some ([lit "Hi"; lit "you"; lit "a"; lit "b"; lit "c"; lit "d"; lit "e"],
          [TocItem (lit "One") 2; TocItem (lit "Two") 5;
           TocItem (lit "After") 7]) /\
  word_at [lit "Hi"; lit "you"; lit "a"; lit "b"; lit "c"; lit "d"; lit "e"] 5
    = Some (lit "d").
Proof.
  split; [reflexivity|].
  assert (Hparse : parseEpub small_nav small_spine =
            Some ([lit "Hi"; lit "you"; lit "a"; lit "b"; lit "c"; lit "d";
                   lit "e"],
                  [TocItem (lit "One") 2; TocItem (lit "Two") 5;
                   TocItem (lit "After") 7])) by reflexivity.
  pose proof (parseEpub_chapter_at_first_word small_nav
                (firstn 2 small_spine) (skipn 3 small_spine)
                (SpineItem (lit "ch2.xhtml") (Some (lit "d e")))
                (NavItem (lit "Two") (lit "ch2.xhtml#start") None)
                _ _ Hparse eq_refl) as (_ & _ & Hword).
  exact (Hword (lit "d") [lit "e"] eq_refl).
Defined.

Lemma parseEpub_chapters_in_order_witness :
  StronglySorted Z.lt
    (chapterStarts
       [TocItem (lit "One") 2; TocItem (lit "Two") 5; TocItem (lit "After") 7])
  /\
  Forall (fun s => (0 <= s <= 7)%Z)
    (chapterStarts
       [TocItem (lit "One") 2; TocItem (lit "Two") 5; TocItem (lit "After") 7]).
Proof.
  pose proof (parseEpub_chapters_in_order small_nav small_spine _ _ eq_refl)
    as (_ & _ & _ & Hs & Hb).
  split; [exact Hs|exact Hb].
Defined.

Lemma chapter_click_lands_in_book_witness :
  currentIndex
    (jump (7 - 0)
       (Reader [lit "Hi"; lit "you"; lit "a"; lit "b"; lit "c"; lit "d"; lit "e"]
               0 false 300
               [TocItem (lit "One") 2; TocItem (lit "Two") 5;
                TocItem (lit "After") 7])) = 6%Z.
Proof.
  pose proof (chapter_click_lands_in_book small_nav small_spine _ _
                (TocItem (lit "After") 7)
                (Reader [lit "Hi"; lit "you"; lit "a"; lit "b"; lit "c";
                         lit "d"; lit "e"]
                        0 false 300
                        [TocItem (lit "One") 2; TocItem (lit "Two") 5;
                         TocItem (lit "After") 7])
                eq_refl ltac:(right; right; left; reflexivity) eq_refl)
    as (Hl & _).
  exact Hl.
Defined.

Lemma parseEpub_empty_book_witness :
  parseEpub small_nav
    [SpineItem (lit "ch1.xhtml") None;
     SpineItem (lit "ch2.xhtml") (Some (lit "  " ++ [10%N]))] = None.
Proof.
  apply (proj2 (parseEpub_empty_book small_nav _)).
  repeat constructor.
Defined.

(** ** Saving and restoring *)

Section SaveRestore.

(** X15. What the save effect writes is what the next opening of the book
    restores: the position, 0 included although 0 is falsy, and the
    bookmarks, the empty list included.  On an empty stream the effect
    writes nothing and what was stored stays. *)
Theorem save_then_restore :
  forall (ws : list jsstring) (currentIndex : Z) (bookmarks : list Z)
         (old : stored) (resultWords : list jsstring)
         (resultToc : list tocItem),
    (ws <> [] ->
     restoreLocation resultWords resultToc
       (saveProgress ws currentIndex bookmarks old) =
     Opened (Session resultWords resultToc (JNum currentIndex)
               (JArr (List.map JNum bookmarks)) false)) /\
    (ws = [] -> saveProgress ws currentIndex bookmarks old = old).
Proof.
  intros ws i bm old rw rt. split.
  - intros Hne. unfold saveProgress.
    destruct (Z.eqb_spec (jslength ws) 0) as [H|_].
    { unfold jslength in H. destruct ws; [congruence|].
      simpl List.length in H. lia. }
    unfold restoreLocation, progressRecord. cbn [JSON_parse]. f_equal.
    f_equal. unfold restored. cbn.
    destruct (Z.eqb_spec i 0) as [->|_]; reflexivity.
  - intros ->. reflexivity.
Qed.

Lemma save_then_restore_witness :
  restoreLocation six_words two_chapters
    (saveProgress six_words 0 [] Corrupt) =
  Opened (Session six_words two_chapters (JNum 0) (JArr []) false) /\
  saveProgress [] 3 [1%Z] Missing = Missing.
Proof.
  pose proof (save_then_restore six_words 0 [] Corrupt six_words two_chapters)
    as (Hsave & _).
  pose proof (save_then_restore [] 3 [1%Z] Missing [] []) as (_ & Hkeep).
  split; [apply Hsave; discriminate|apply Hkeep; reflexivity].
Defined.

End SaveRestore.

(** ** The library *)

Section Library.

Lemma str_eqb_eq (a b : jsstring) : str_eqb a b = true <-> a = b.
Proof.
  revert b. induction a as [|x a IH]; intros [|y b]; simpl;
    try (split; [discriminate|congruence]); [tauto|].
  rewrite andb_true_iff, N.eqb_eq, IH. split.
  - intros [-> ->]. reflexivity.
  - intros [= -> ->]. auto.
Qed.

Lemma str_eqb_neq (a b : jsstring) : str_eqb a b = false <-> a <> b.
Proof.
  rewrite <- str_eqb_eq. destruct (str_eqb a b); split; congruence.
Qed.

Lemma delete_absent (id : jsstring) (library : list bookMeta) :
  Forall (fun b => b_id b <> id) library ->
  filter (fun b => negb (str_eqb (b_id b) id)) library = library.
Proof.
  induction 1 as [|b l Hb Hl IH]; [reflexivity|]. simpl.
  rewrite (proj2 (str_eqb_neq (b_id b) id) Hb). simpl. f_equal. exact IH.
Qed.

(** X16. Deleting the book that was just added gives the library back, as
    long as its identifier is not the identifier of another book; and a
    deletion the user does not confirm changes nothing. *)
Theorem delete_after_add :
  forall (metadata : bookMeta) (library : list bookMeta),
    (Forall (fun b => b_id b <> b_id metadata) library ->
     handleDeleteBook true (b_id metadata) (addToLibrary metadata library) =
     library) /\
    handleDeleteBook false (b_id metadata) (addToLibrary metadata library) =
    metadata :: library.
Proof.
  intros m lib. split; [|reflexivity]. intros Hfresh.
  unfold handleDeleteBook, addToLibrary. simpl.
  rewrite (proj2 (str_eqb_eq (b_id m) (b_id m)) eq_refl). simpl.
  apply delete_absent. exact Hfresh.
Qed.

Lemma delete_after_add_witness :
  handleDeleteBook true (b_id book_two) (addToLibrary book_two [book_one]) =
  [book_one].
Proof.
  apply (proj1 (delete_after_add book_two [book_one])).
  repeat constructor. discriminate.
Defined.

(** X17. Updating the progress of a book keeps every book in place with its
    identifier, title, author, file name, type, date and cover flag; it
    changes the progress and the word count of the books with that
    identifier only, and it changes nothing when no book has it. *)
Theorem handleUpdateProgress_touches_one_book :
  forall (id : jsstring) (progress : float) (totalWords : Z)
         (library : list bookMeta),
    List.map
      (fun b => (b_id b, b_title b, b_author b, b_filename b, b_type b,
                 b_addedAt b, b_hasCover b))
      (handleUpdateProgress id progress totalWords library) =
    List.map
      (fun b => (b_id b, b_title b, b_author b, b_filename b, b_type b,
                 b_addedAt b, b_hasCover b))
      library /\
    (forall k b,
       nth_error library k = Some b ->
       nth_error (handleUpdateProgress id progress totalWords library) k =
       Some (if str_eqb (b_id b) id then withProgress b progress totalWords
             else b)) /\
    (Forall (fun b => b_id b <> id) library ->
     handleUpdateProgress id progress totalWords library = library).
Proof.
  intros id pr tw lib. unfold handleUpdateProgress. split; [|split].
  - rewrite map_map. apply map_ext. intros b.
    destruct (str_eqb (b_id b) id); reflexivity.
  - intros k b Hk. rewrite nth_error_map, Hk. reflexivity.
  - induction 1 as [|b l Hb Hl IH]; [reflexivity|]. simpl.
    rewrite (proj2 (str_eqb_neq (b_id b) id) Hb). f_equal. exact IH.
Qed.

Lemma handleUpdateProgress_touches_one_book_witness :
  handleUpdateProgress (lit "nobody") 1 10 [book_one; book_two] =
    [book_one; book_two] /\
  nth_error (handleUpdateProgress (b_id book_two) 1 10 [book_one; book_two]) 1 =
    Some (withProgress book_two 1 10).
Proof.
  pose proof (handleUpdateProgress_touches_one_book (lit "nobody") 1 10
                [book_one; book_two]) as (_ & _ & Habsent).
  pose proof (handleUpdateProgress_touches_one_book (b_id book_two) 1 10
                [book_one; book_two]) as (_ & Hnth & _).
  split.
  - apply Habsent. repeat constructor; discriminate.
  - exact (Hnth 1%nat book_two eq_refl).
Defined.

End Library.

(** ** The first match of a pattern *)

Section FirstMatch.

Lemma take_drop (p : char -> bool) (s : jsstring) :
  take_while p s ++ drop_while p s = s.
Proof.
  induction s as [|c s IH]; [reflexivity|]. simpl.
  destruct (p c); [simpl; f_equal; exact IH|reflexivity].
Qed.

Lemma take_while_all (p : char -> bool) (s : jsstring) :
  forallb p (take_while p s) = true.
Proof.
  induction s as [|c s IH]; [reflexivity|]. simpl.
  destruct (p c) eqn:Hc; [simpl; rewrite Hc; exact IH|reflexivity].
Qed.

Lemma drop_while_head (p : char -> bool) (s : jsstring) (c : char)
    (r : jsstring) :
  drop_while p s = c :: r -> p c = false.
Proof.
  induction s as [|x s IH]; simpl; [discriminate|].
  destruct (p x) eqn:Hx; [exact IH|]. intros [= <- <-]. exact Hx.
Qed.

Lemma take_while_app (p : char -> bool) (pre rest : jsstring) :
  forallb p pre = true ->
  take_while p (pre ++ rest) = pre ++ take_while p rest /\
  drop_while p (pre ++ rest) = drop_while p rest.
Proof.
  induction pre as [|x pre IH]; intros H; [split; reflexivity|].
  simpl in *. apply andb_prop in H. destruct H as [Hx Hp]. rewrite Hx.
  destruct (IH Hp) as [-> ->]. split; reflexivity.
Qed.

Lemma take_while_stop (p : char -> bool) (c : char) (r : jsstring) :
  p c = false -> take_while p (c :: r) = [] /\ drop_while p (c :: r) = c :: r.
Proof. intros H. simpl. rewrite H. split; reflexivity. Qed.

(** The repetition of a class tries the longest run first. *)
Lemma star_run_hd (p : char -> bool) (s : jsstring) :
  forall i cs,
    hd_error (star_run p i s cs) =
    Some (MState (i + List.length (take_while p s)) (drop_while p s) cs).
Proof.
  induction s as [|c s IH]; intros i cs; simpl.
  - rewrite Nat.add_0_r. reflexivity.
  - destruct (p c).
    + specialize (IH (S i) cs).
      destruct (star_run p (S i) s cs) as [|x l]; [discriminate|].
      simpl in *. rewrite IH. simpl. rewrite Nat.add_succ_r. reflexivity.
    + simpl. rewrite Nat.add_0_r. reflexivity.
Qed.

Lemma hd_seq (r1 r2 : regex) (st m y : mstate) :
  hd_error (run r1 st) = Some m -> hd_error (run r2 m) = Some y ->
  hd_error (run (Seq r1 r2) st) = Some y.
Proof.
  intros H1 H2. cbn [run].
  destruct (run r1 st) as [|x l]; [discriminate|]. injection H1 as ->.
  cbn [flat_map]. destruct (run r2 m) as [|z l2]; [discriminate|].
  exact H2.
Qed.

Lemma hd_grp (r : regex) (st m : mstate) (pre : jsstring) :
  hd_error (run r st) = Some m -> rest st = pre ++ rest m ->
  hd_error (run (Grp r) st) =
  Some (MState (pos m) (rest m) (caps m ++ [pre])).
Proof.
  intros H Hr.
  assert (Hin : In m (run r st)) by (apply hd_error_in; exact H).
  destruct (run_consumes r st m Hin) as (pre' & Hr' & Hp).
  assert (pre' = pre) as -> by (rewrite Hr in Hr'; eapply app_inv_tail; eauto).
  cbn [run]. destruct (run r st) as [|x l]; [discriminate|].
  injection H as ->. cbn [List.map hd_error]. rewrite Hr, Hp.
  replace (pos st + List.length pre - pos st) with (List.length pre) by lia.
  rewrite firstn_app, firstn_all, Nat.sub_diag. simpl. rewrite app_nil_r.
  reflexivity.
Qed.

Lemma hd_star (p : char -> bool) (st : mstate) :
  hd_error (run (Star p) st) =
  Some (MState (pos st + List.length (take_while p (rest st)))
               (drop_while p (rest st)) (caps st)).
Proof. cbn [run]. apply star_run_hd. Qed.

Lemma hd_cls (p : char -> bool) (st : mstate) (c : char) (s' : jsstring) :
  rest st = c :: s' -> p c = true ->
  hd_error (run (Cls p) st) = Some (MState (S (pos st)) s' (caps st)).
Proof. intros Hr Hc. cbn [run]. rewrite Hr, Hc. reflexivity. Qed.

(** When the rest of the word after the longest core holds no
    alphanumeric, the first match of the pattern of [splitWord] is the
    one with the longest leading run and the longest core. *)
Lemma word_re_first (w : jsstring) (a : char) (r : jsstring) :
  drop_while not_alnum w = a :: r ->
  forallb not_alnum (drop_while core_char r) = true ->
  match_ word_re w =
  Some [w; take_while not_alnum w; a :: take_while core_char r;
        drop_while core_char r].
Proof.
  intros Hd Ht.
  pose proof (drop_while_head _ _ _ _ Hd) as Ha.
  unfold not_alnum in Ha. apply negb_false_iff in Ha.
  set (L := take_while not_alnum w) in *.
  set (C := take_while core_char r) in *.
  set (T := drop_while core_char r) in *.
  assert (Hw : w = L ++ (a :: C) ++ T).
  { rewrite <- (take_drop not_alnum w) at 1. fold L. rewrite Hd.
    rewrite <- (take_drop core_char r) at 1. reflexivity. }
  assert (Hm : match_at word_re 0 w =
               Some (MState (List.length w) [] [L; a :: C; T])).
  { unfold match_at, word_re.
    eapply hd_seq; [cbn; reflexivity|].
    eapply hd_seq.
    { eapply hd_grp with (pre := L); [apply hd_star|].
      cbn [rest]. symmetry. apply take_drop. }
    cbn [pos rest caps app]. fold L. rewrite Hd.
    eapply hd_seq.
    { eapply hd_grp with (pre := a :: C).
      - eapply hd_seq; [apply (hd_cls alnum _ a r); [reflexivity|exact Ha]|].
        apply hd_star.
      - cbn [rest]. fold C T. rewrite <- (take_drop core_char r) at 1.
        reflexivity. }
    cbn [pos rest caps app]. fold C T.
    eapply hd_seq.
    { eapply hd_grp with (pre := T); [apply hd_star|].
      cbn [rest]. rewrite (drop_while_all not_alnum T Ht), app_nil_r.
      reflexivity. }
    cbn [pos rest caps app run].
    assert (Htake : take_while not_alnum T = T).
    { pose proof (take_drop not_alnum T) as Htd.
      rewrite (drop_while_all not_alnum T Ht), app_nil_r in Htd. exact Htd. }
    rewrite (drop_while_all not_alnum T Ht), Htake. cbn [hd_error].
    f_equal. f_equal. rewrite Hw, !length_app. simpl. lia. }
  unfold match_. destruct w as [|c w'].
  - destruct L; discriminate Hw.
  - cbn [exec_from]. rewrite Hm. cbn [pos caps].
    rewrite Nat.sub_0_r, firstn_all. reflexivity.
Qed.

End FirstMatch.

(** ** The decomposition, read off directly *)

Section DirectSplit.

Lemma existsb_alnum_not (s : jsstring) :
  forallb not_alnum s = true -> existsb alnum s = false.
Proof.
  induction s as [|c s IH]; [reflexivity|]. simpl. unfold not_alnum at 1.
  intros H. apply andb_prop in H. destruct H as [Hc Hs].
  apply negb_true_iff in Hc. rewrite Hc. exact (IH Hs).
Qed.

Lemma splitWord_is_direct_eq (w : jsstring) : splitWord w = splitDirect w.
Proof.
  revert w.
  intros w. unfold splitDirect.
  destruct (drop_while not_alnum w) as [|a r] eqn:Hd.
  - (* no alphanumeric at all *)
    assert (Hall : forallb not_alnum w = true).
    { pose proof (take_drop not_alnum w) as H. rewrite Hd, app_nil_r in H.
      rewrite <- H. apply take_while_all. }
    destruct (splitWord_cases w) as [[_ H]|(l & c & t & _ & Hw & _ & Hc & _)];
      [exact H|].
    apply core_shape_alnum in Hc. destruct Hc as [_ Hc].
    apply existsb_alnum_not in Hall.
    rewrite Hw, !existsb_app, Hc, orb_true_r in Hall. discriminate.
  - destruct (forallb not_alnum (drop_while core_char r)) eqn:Ht.
    + unfold splitWord. rewrite (word_re_first w a r Hd Ht). reflexivity.
    + destruct (splitWord_cases w)
        as [[_ H]|(l & c & t & _ & Hw & Hl & Hc & Htl)]; [exact H|].
      exfalso.
      destruct c as [|a' c']; [discriminate|]. simpl in Hc.
      apply andb_prop in Hc. destruct Hc as [Ha' Hc'].
      destruct (take_while_app not_alnum l ((a' :: c') ++ t) Hl) as [_ Hdl].
      rewrite <- Hw in Hdl.
      assert (Hna : not_alnum a' = false)
        by (unfold not_alnum; rewrite Ha'; reflexivity).
      cbn [app] in Hdl.
      rewrite (proj2 (take_while_stop not_alnum a' (c' ++ t) Hna)) in Hdl.
      rewrite Hd in Hdl. injection Hdl as -> ->.
      destruct (take_while_app core_char c' t Hc') as [_ Hdc].
      rewrite Hdc in Ht.
      assert (forallb not_alnum (drop_while core_char t) = true).
      { rewrite <- (take_drop core_char t) in Htl.
        rewrite forallb_app in Htl. apply andb_prop in Htl. tauto. }
      congruence.
Qed.

(** X18. [splitWord] is the decomposition read off directly: the matcher
    backtracks to nothing else.  So the core keeps the apostrophes and
    hyphens at its end, and a word with an alphanumeric after the core
    has ended comes back whole. *)
Theorem splitWord_is_direct :
  forall w : jsstring, splitWord w = splitDirect w.
Proof. exact splitWord_is_direct_eq. Qed.

End DirectSplit.

(** ** The tokens, read off directly *)

Section CharacterClasses.

Lemma alnum_not_space (c : char) : alnum c = true -> is_space c = false.
Proof.
  unfold alnum, is_space, in_range, one_of. cbn [existsb].
  rewrite !orb_true_iff, !andb_true_iff, !N.leb_le.
  rewrite !orb_false_iff, !andb_false_iff, !N.leb_gt, !N.eqb_neq. lia.
Qed.

Lemma alnum_not_dash (c : char) : alnum c = true -> dash_class c = false.
Proof.
  unfold alnum, dash_class, in_range, one_of, em_dash, en_dash. cbn [existsb].
  rewrite !orb_true_iff, !andb_true_iff, !N.leb_le.
  rewrite !orb_false_iff, !N.eqb_neq. lia.
Qed.

Lemma dash_not_space (c : char) : dash_class c = true -> is_space c = false.
Proof.
  unfold is_space, dash_class, in_range, one_of, em_dash, en_dash.
  cbn [existsb].
  rewrite !orb_true_iff, !N.eqb_eq.
  rewrite !orb_false_iff, !andb_false_iff, !N.leb_gt, !N.eqb_neq. lia.
Qed.

Lemma space_not_dash (c : char) : is_space c = true -> dash_class c = false.
Proof.
  intros H. destruct (dash_class c) eqn:Hd; [|reflexivity].
  apply dash_not_space in Hd. congruence.
Qed.

Lemma line_break_is_space (c : char) :
  line_break_or_tab c = true -> is_space c = true.
Proof.
  unfold line_break_or_tab, is_space, in_range, one_of. cbn [existsb].
  rewrite !orb_true_iff, !andb_true_iff, !N.leb_le, !N.eqb_eq. lia.
Qed.

End CharacterClasses.

Section TokensOfReplacements.

Lemma tokens_context (X Y : jsstring) :
  (forall cur, tokensFrom X cur = tokensFrom Y cur) ->
  forall A cur, tokensFrom (A ++ X) cur = tokensFrom (A ++ Y) cur.
Proof.
  intros H A. induction A as [|c A IH]; intros cur; [apply H|].
  cbn [app tokensFrom]. rewrite !IH. reflexivity.
Qed.

Lemma tokens_space (c : char) (Y cur : jsstring) :
  is_space c = true -> tokensFrom (c :: Y) cur = flush cur ++ tokensFrom Y [].
Proof. intros H. cbn [tokensFrom]. rewrite H. reflexivity. Qed.

Lemma tokens_dash (d : char) (Y cur : jsstring) :
  dash_class d = true ->
  tokensFrom (d :: Y) cur = flush cur ++ [d] :: tokensFrom Y [].
Proof.
  intros H. cbn [tokensFrom]. rewrite (dash_not_space d H), H. reflexivity.
Qed.

Lemma tokens_plain (c : char) (Y cur : jsstring) :
  is_space c = false -> dash_class c = false ->
  tokensFrom (c :: Y) cur = tokensFrom Y (cur ++ [c]).
Proof. intros H1 H2. cbn [tokensFrom]. rewrite H1, H2. reflexivity. Qed.

(** White space before anything else only ends the word in hand. *)
Lemma tokens_spaces (W Y cur : jsstring) :
  forallb is_space W = true ->
  flush cur ++ tokensFrom (W ++ Y) [] = flush cur ++ tokensFrom Y [] /\
  (W <> [] -> tokensFrom (W ++ Y) cur = flush cur ++ tokensFrom Y []).
Proof.
  revert cur. induction W as [|c W IH]; intros cur H.
  - split; [reflexivity|congruence].
  - simpl in H. apply andb_prop in H. destruct H as [Hc HW].
    cbn [app]. rewrite !(tokens_space c) by exact Hc. cbn [flush app].
    destruct (IH [] HW) as [IH1 _]. cbn [flush app] in IH1.
    rewrite IH1. split; [reflexivity|]. intros _. reflexivity.
Qed.

Lemma tokens_spaces_nil (W Y : jsstring) :
  forallb is_space W = true -> tokensFrom (W ++ Y) [] = tokensFrom Y [].
Proof.
  intros H. destruct (tokens_spaces W Y [] H) as [H1 _]. exact H1.
Qed.

(** A dash with white space around it reads as the dash alone. *)
Lemma tokens_spaced_dash (W W2 X cur : jsstring) (d : char) :
  forallb is_space W = true -> dash_class d = true ->
  forallb is_space W2 = true ->
  tokensFrom (W ++ d :: W2 ++ X) cur = flush cur ++ [d] :: tokensFrom X [].
Proof.
  intros HW Hd HW2. destruct W as [|c W].
  - cbn [app]. rewrite tokens_dash by exact Hd.
    rewrite tokens_spaces_nil by exact HW2. reflexivity.
  - destruct (tokens_spaces (c :: W) (d :: W2 ++ X) cur HW) as [_ H].
    rewrite H by discriminate. rewrite tokens_dash by exact Hd.
    rewrite tokens_spaces_nil by exact HW2. reflexivity.
Qed.

Lemma replace_scan_skip (r : regex) (t : list titem) :
  forall (k : nat) (s : jsstring) (i : nat),
    k <= List.length s ->
    replace_scan r t i s k = replace_scan r t (i + k) (skipn k s) 0.
Proof.
  induction k as [|k IH]; intros s i Hk.
  - rewrite Nat.add_0_r. reflexivity.
  - destruct s as [|c s]; [simpl in Hk; lia|].
    cbn [replace_scan skipn]. rewrite IH by (simpl in Hk; lia).
    f_equal. lia.
Qed.

(** A global replacement keeps the tokens of a text when every match is
    replaced by a text that reads the same in every context. *)
Lemma replace_keeps_tokens (r : regex) (t : list titem) :
  (forall i s st,
     match_at r i s = Some st ->
     exists m,
       pos st = i + m /\ 1 <= m <= List.length s /\
       forall X cur,
         tokensFrom (expand t (caps st) ++ X) cur =
         tokensFrom (firstn m s ++ X) cur) ->
  forall (n : nat) (s : jsstring),
    List.length s <= n ->
    forall i cur, tokensFrom (replace_scan r t i s 0) cur = tokensFrom s cur.
Proof.
  intros Hr. induction n as [|n IH]; intros s Hn i cur.
  - destruct s; [|simpl in Hn; lia]. cbn [replace_scan].
    destruct (match_at r i []) as [st|] eqn:Hm; [|reflexivity].
    destruct (Hr _ _ _ Hm) as (m & _ & Hlen & _). simpl in Hlen. lia.
  - destruct s as [|c s1].
    { cbn [replace_scan].
      destruct (match_at r i []) as [st|] eqn:Hm; [|reflexivity].
      destruct (Hr _ _ _ Hm) as (m & _ & Hlen & _). simpl in Hlen. lia. }
    simpl in Hn. cbn [replace_scan].
    destruct (match_at r i (c :: s1)) as [st|] eqn:Hm.
    + destruct (Hr _ _ _ Hm) as (m & Hpos & Hlen & Heq).
      rewrite Hpos. replace (i + m - i) with m by lia.
      destruct m as [|k]; [lia|]. simpl in Hlen.
      rewrite replace_scan_skip by lia.
      rewrite (tokens_context _ (skipn k s1)).
      2:{ intros cur'. apply IH. rewrite length_skipn. lia. }
      rewrite Heq. cbn [firstn app]. rewrite firstn_skipn. reflexivity.
    + change (c :: replace_scan r t (S i) s1 0)
        with ([c] ++ replace_scan r t (S i) s1 0).
      rewrite (tokens_context _ s1); [reflexivity|].
      intros cur'. apply IH. lia.
Qed.

Lemma run_grp_cls_inv (p : char -> bool) (st st' : mstate) :
  In st' (run (Grp (Cls p)) st) ->
  exists c s',
    rest st = c :: s' /\ p c = true /\
    st' = MState (S (pos st)) s' (caps st ++ [[c]]).
Proof.
  intros H. apply run_grp_inv in H.
  destruct H as (m & pre & Hm & Hr & Hp & Hrest & Hc).
  apply run_cls_inv in Hm. destruct Hm as (c & s' & Hrs & Hpc & ->).
  cbn [pos rest caps] in *. exists c, s'. split; [exact Hrs|].
  split; [exact Hpc|].
  assert (pre = [c]).
  { rewrite Hrs in Hr. change (c :: s') with ([c] ++ s') in Hr.
    symmetry. eapply app_inv_tail. exact Hr. }
  subst pre. destruct st' as [p' r' c']. cbn [pos rest caps] in *.
  subst. reflexivity.
Qed.

(** The first replacement of [normalizeWords] matches an alphanumeric, a
    dash and an alphanumeric. *)
Lemma glued_inv (i : nat) (s : jsstring) (st : mstate) :
  match_at glued_dash_re i s = Some st ->
  exists a d b,
    s = a :: d :: b :: rest st /\ alnum a = true /\ dash_class d = true /\
    alnum b = true /\ caps st = [[a]; [d]; [b]] /\ pos st = i + 3.
Proof.
  intros H. apply hd_error_in in H. unfold glued_dash_re in H.
  apply run_seq_inv in H. destruct H as (m1 & H1 & H).
  apply run_grp_cls_inv in H1. destruct H1 as (a & s1 & Hs & Ha & ->).
  apply run_seq_inv in H. destruct H as (m2 & H2 & H).
  apply run_grp_cls_inv in H2. destruct H2 as (d & s2 & Hs2 & Hd & ->).
  apply run_grp_cls_inv in H. destruct H as (b & s3 & Hs3 & Hb & ->).
  cbn [pos rest caps app] in *. subst. exists a, d, b.
  repeat split; auto; lia.
Qed.

Lemma pass1_keeps_tokens (s : jsstring) :
  tokens (replace_g glued_dash_re
            [TGrp 1; TGrp 2; TLit space; TGrp 3] s) = tokens s.
Proof.
  unfold tokens, replace_g.
  apply (replace_keeps_tokens glued_dash_re _) with (n := List.length s);
    [|lia].
  intros i x st Hm. apply glued_inv in Hm.
  destruct Hm as (a & d & b & -> & Ha & Hd & Hb & Hc & Hp).
  exists 3. split; [exact Hp|]. split; [simpl; lia|].
  intros X cur. rewrite Hc. cbn [expand flat_map nth Nat.sub app firstn].
  rewrite !(tokens_plain a) by (auto using alnum_not_space, alnum_not_dash).
  rewrite !(tokens_dash d) by exact Hd.
  rewrite (tokens_space space) by reflexivity. reflexivity.
Qed.

(** The second replacement matches a dash and the white space around
    it. *)
Lemma spaced_inv (i : nat) (s : jsstring) (st : mstate) :
  match_at spaced_dash_re i s = Some st ->
  exists W d W2,
    s = W ++ d :: W2 ++ rest st /\ forallb is_space W = true /\
    dash_class d = true /\ forallb is_space W2 = true /\
    caps st = [[d]] /\ pos st = i + (List.length W + 1 + List.length W2).
Proof.
  intros H. apply hd_error_in in H. unfold spaced_dash_re in H.
  apply run_seq_inv in H. destruct H as (m1 & H1 & H).
  apply run_star_inv in H1. destruct H1 as (W & Hs & HW & Hp1 & Hc1).
  apply run_seq_inv in H. destruct H as (m2 & H2 & H).
  apply run_grp_cls_inv in H2. destruct H2 as (d & s2 & Hs2 & Hd & ->).
  apply run_star_inv in H. destruct H as (W2 & Hs3 & HW2 & Hp3 & Hc3).
  cbn [pos rest caps app] in *. exists W, d, W2.
  rewrite Hs, Hs2, Hs3, Hc3, Hc1, Hp3, Hp1.
  repeat split; auto; lia.
Qed.

Lemma pass2_keeps_tokens (s : jsstring) :
  tokens (replace_g spaced_dash_re [TLit space; TGrp 1; TLit space] s) =
  tokens s.
Proof.
  unfold tokens, replace_g.
  apply (replace_keeps_tokens spaced_dash_re _) with (n := List.length s);
    [|lia].
  intros i x st Hm. apply spaced_inv in Hm.
  destruct Hm as (W & d & W2 & Hx & HW & Hd & HW2 & Hc & Hp).
  exists (List.length W + 1 + List.length W2). split; [exact Hp|].
  split; [rewrite Hx, !length_app; simpl; rewrite length_app; lia|].
  intros X cur. rewrite Hc. cbn [expand flat_map nth Nat.sub app].
  rewrite (tokens_space space) by reflexivity.
  rewrite (tokens_dash d) by exact Hd.
  rewrite (tokens_space space) by reflexivity. cbn [flush app].
  assert (Hfirst : firstn (List.length W + 1 + List.length W2) x =
                   W ++ d :: W2).
  { rewrite Hx.
    replace (W ++ d :: W2 ++ rest st) with ((W ++ d :: W2) ++ rest st)
      by (rewrite <- app_assoc; reflexivity).
    replace (List.length W + 1 + List.length W2)
      with (List.length (W ++ d :: W2)) by (rewrite length_app; simpl; lia).
    rewrite firstn_app, firstn_all, Nat.sub_diag. simpl.
    rewrite app_nil_r. reflexivity. }
  rewrite Hfirst, <- app_assoc. cbn [app].
  rewrite tokens_spaced_dash by assumption. reflexivity.
Qed.

End TokensOfReplacements.

Section TokensOfSplit.

(** A dash is always matched by the second replacement. *)
Lemma spaced_at_dash (i : nat) (d : char) (s : jsstring) :
  dash_class d = true -> match_at spaced_dash_re i (d :: s) <> None.
Proof.
  intros Hd. unfold match_at, spaced_dash_re.
  pose proof (dash_not_space d Hd) as Hns.
  erewrite hd_seq; [discriminate| |].
  - apply hd_star.
  - cbn [pos rest caps]. cbn [take_while drop_while]. rewrite Hns.
    eapply hd_seq.
    + eapply hd_grp with (pre := [d]);
        [apply (hd_cls dash_class _ d s); [reflexivity|exact Hd]|reflexivity].
    + apply hd_star.
Qed.

(** After the second replacement every dash stands between two white
    spaces. *)
Lemma pass2_spaces_dashes :
  forall (n : nat) (s : jsstring),
    List.length s <= n ->
    forall i b,
      dashes_spaced
        (replace_scan spaced_dash_re [TLit space; TGrp 1; TLit space] i s 0)
        b = true.
Proof.
  induction n as [|n IH]; intros s Hn i b.
  - destruct s; [|simpl in Hn; lia]. cbn [replace_scan].
    destruct (match_at spaced_dash_re i []) as [st|] eqn:Hm; [|reflexivity].
    apply spaced_inv in Hm. destruct Hm as (W & d & W2 & Hx & _).
    destruct W; discriminate Hx.
  - destruct s as [|c s1].
    { cbn [replace_scan].
      destruct (match_at spaced_dash_re i []) as [st|] eqn:Hm; [|reflexivity].
      apply spaced_inv in Hm. destruct Hm as (W & d & W2 & Hx & _).
      destruct W; discriminate Hx. }
    simpl in Hn. cbn [replace_scan].
    destruct (match_at spaced_dash_re i (c :: s1)) as [st|] eqn:Hm.
    + apply spaced_inv in Hm.
      destruct Hm as (W & d & W2 & Hx & HW & Hd & HW2 & Hc & Hp).
      rewrite Hc, Hp. cbn [expand flat_map nth Nat.sub app].
      replace (i + (List.length W + 1 + List.length W2) - i)
        with (S (List.length W + List.length W2)) by lia.
      assert (Hlen : List.length W + List.length W2 <= List.length s1).
      { apply (f_equal (@List.length _)) in Hx.
        rewrite !length_app in Hx. simpl in Hx. rewrite length_app in Hx.
        lia. }
      rewrite replace_scan_skip by exact Hlen.
      cbn [dashes_spaced].
      change (dash_class space) with false. change (is_space space) with true.
      rewrite Hd. cbn [andb]. apply IH. rewrite length_skipn. lia.
    + cbn [dashes_spaced].
      destruct (dash_class c) eqn:Hd.
      { exfalso. revert Hm. apply spaced_at_dash. exact Hd. }
      apply IH. lia.
Qed.

Lemma words_space (c : char) (Y cur : jsstring) :
  is_space c = true -> wordsFrom (c :: Y) cur = flush cur ++ wordsFrom Y [].
Proof. intros H. cbn [wordsFrom]. rewrite H. reflexivity. Qed.

Lemma words_plain (c : char) (Y cur : jsstring) :
  is_space c = false -> wordsFrom (c :: Y) cur = wordsFrom Y (cur ++ [c]).
Proof. intros H. cbn [wordsFrom]. rewrite H. reflexivity. Qed.

(** When every dash stands between white spaces, cutting at white space
    alone gives the tokens. *)
Lemma spaced_words (s : jsstring) :
  forall cur b,
    (b = true -> cur = []) -> dashes_spaced s b = true ->
    wordsFrom s cur = tokensFrom s cur.
Proof.
  induction s as [|c s IH]; intros cur b Hb Hs; [reflexivity|].
  cbn [dashes_spaced] in Hs. destruct (dash_class c) eqn:Hd.
  - apply andb_prop in Hs. destruct Hs as [Hs Hrest].
    apply andb_prop in Hs. destruct Hs as [Hafter Hnext].
    rewrite (Hb Hafter). destruct s as [|x s']; [discriminate|].
    rewrite tokens_dash by exact Hd.
    rewrite words_plain by (apply dash_not_space; exact Hd).
    cbn [app flush]. rewrite words_space by exact Hnext.
    rewrite <- (IH [] false) by (congruence || exact Hrest).
    rewrite words_space by exact Hnext. reflexivity.
  - destruct (is_space c) eqn:Hsp.
    + rewrite words_space, tokens_space by exact Hsp.
      rewrite (IH [] true); [reflexivity|reflexivity|exact Hs].
    + rewrite words_plain, tokens_plain by assumption.
      apply (IH _ false); [discriminate|exact Hs].
Qed.

Lemma words_spaces_nil (W Y : jsstring) :
  forallb is_space W = true -> wordsFrom (W ++ Y) [] = wordsFrom Y [].
Proof.
  induction W as [|c W IH]; intros H; [reflexivity|].
  simpl in H. apply andb_prop in H. destruct H as [Hc HW].
  cbn [app]. rewrite words_space by exact Hc. apply IH. exact HW.
Qed.

Lemma words_trailing_spaces (Y W : jsstring) :
  forallb is_space W = true ->
  forall cur, wordsFrom (Y ++ W) cur = wordsFrom Y cur.
Proof.
  intros HW. induction Y as [|c Y IH]; intros cur.
  - cbn [app]. destruct W as [|x W]; [reflexivity|].
    simpl in HW. apply andb_prop in HW. destruct HW as [Hx HW].
    rewrite words_space by exact Hx.
    rewrite <- (app_nil_r W), words_spaces_nil by exact HW.
    cbn [wordsFrom flush]. rewrite app_nil_r. reflexivity.
  - cbn [app wordsFrom]. rewrite !IH. reflexivity.
Qed.

Lemma strip_trailing_run (p : char -> bool) (s : jsstring) :
  exists run, s = strip_trailing p s ++ run /\ forallb p run = true.
Proof.
  induction s as [|c s IH].
  - exists []. split; reflexivity.
  - rewrite strip_trailing_cons. destruct (forallb p (c :: s)) eqn:Hall.
    + exists (c :: s). split; [reflexivity|exact Hall].
    + destruct IH as (run & Hs & Hrun). exists run.
      split; [|exact Hrun]. cbn [app]. f_equal. exact Hs.
Qed.

Lemma drop_while_run (p : char -> bool) (s : jsstring) :
  exists run, s = run ++ drop_while p s /\ forallb p run = true.
Proof.
  exists (take_while p s). split; [symmetry; apply take_drop|].
  apply take_while_all.
Qed.

(** [trim] changes no word. *)
Lemma words_trim (s : jsstring) : wordsFrom (trim s) [] = wordsFrom s [].
Proof.
  unfold trim. fold (strip_trailing is_space (drop_while is_space s)).
  destruct (strip_trailing_run is_space (drop_while is_space s))
    as (run & Hs & Hrun).
  destruct (drop_while_run is_space s) as (lead & Hl & Hlead).
  rewrite Hl at 2. rewrite words_spaces_nil by exact Hlead.
  rewrite Hs at 2. rewrite words_trailing_spaces by exact Hrun.
  reflexivity.
Qed.

(** A match of [/\s+/] goes over white space, and there is one wherever
    a white space stands. *)
Lemma spaces_inv (q : nat) (s : jsstring) (st : mstate) :
  match_at spaces_re q s = Some st ->
  exists c pre,
    s = c :: pre ++ rest st /\ is_space c = true /\
    forallb is_space pre = true /\ pos st = S q + List.length pre.
Proof.
  intros H. apply hd_error_in in H. unfold spaces_re, Plus in H.
  apply run_seq_inv in H. destruct H as (m & H1 & H).
  apply run_cls_inv in H1. destruct H1 as (c & s' & Hs & Hc & ->).
  apply run_star_inv in H. destruct H as (pre & Hs' & Hpre & Hp & _).
  cbn [pos rest caps] in *. exists c, pre. subst. auto.
Qed.

Lemma spaces_at_space (q : nat) (c : char) (s : jsstring) :
  is_space c = true -> match_at spaces_re q (c :: s) <> None.
Proof.
  intros Hc. unfold match_at, spaces_re, Plus.
  erewrite hd_seq; [discriminate| |apply hd_star].
  apply (hd_cls is_space _ c s); [reflexivity|exact Hc].
Qed.

Lemma filter_flush (cur : jsstring) (l : list jsstring) :
  filter nonempty (cur :: l) = flush cur ++ filter nonempty l.
Proof. destruct cur; reflexivity. Qed.

(** The scan of [split], with its skip counter, gives the words of what
    is left to read once the empty pieces are dropped. *)
Lemma split_scan_words (s : jsstring) :
  forall (q p : nat) (cur : jsstring) (skip : nat),
    p <= q + skip -> skip <= List.length s ->
    forallb is_space (firstn skip s) = true ->
    filter nonempty (split_scan spaces_re q s p cur skip) =
    wordsFrom (skipn skip s) match skip with O => cur | S _ => [] end.
Proof.
  induction s as [|c s IH]; intros q p cur skip Hp Hskip Hws.
  - simpl in Hskip. assert (skip = 0) as -> by lia.
    cbn [split_scan skipn wordsFrom]. destruct cur; reflexivity.
  - destruct skip as [|k].
    + cbn [split_scan skipn].
      destruct (match_at spaces_re q (c :: s)) as [st|] eqn:Hm.
      * apply spaces_inv in Hm.
        destruct Hm as (c' & pre & Hs & Hc & Hpre & Hpos).
        injection Hs as <- Hs.
        cbv zeta. rewrite Hpos.
        destruct (Nat.eqb_spec (S q + List.length pre) p) as [He|_]; [lia|].
        replace (S q + List.length pre - q) with (S (List.length pre)) by lia.
        rewrite filter_flush.
        rewrite (IH (S q) (S q + List.length pre) [] (List.length pre)).
        -- rewrite words_space by exact Hc. f_equal.
           rewrite Hs at 2. rewrite words_spaces_nil by exact Hpre.
           rewrite Hs, skipn_app, skipn_all, Nat.sub_diag. cbn [app skipn].
           destruct (List.length pre); reflexivity.
        -- lia.
        -- rewrite Hs, length_app. lia.
        -- rewrite Hs, firstn_app, firstn_all, Nat.sub_diag. cbn [firstn].
           rewrite app_nil_r. exact Hpre.
      * assert (Hc : is_space c = false).
        { destruct (is_space c) eqn:E; [|reflexivity].
          exfalso. revert Hm. apply spaces_at_space. exact E. }
        rewrite (IH (S q) p (cur ++ [c]) 0); [|lia|simpl; lia|reflexivity].
        cbn [skipn]. rewrite words_plain by exact Hc. reflexivity.
    + cbn [split_scan skipn]. cbn [firstn forallb] in Hws.
      apply andb_prop in Hws. destruct Hws as [_ Hws].
      rewrite (IH (S q) p [] k); [|lia|simpl in Hskip; lia|exact Hws].
      destruct k; reflexivity.
Qed.

Lemma split_words (s : jsstring) :
  filter nonempty (split spaces_re s) = wordsFrom s [].
Proof.
  unfold split. destruct s as [|c s].
  - destruct (match_at spaces_re 0 []) as [st|] eqn:Hm; [|reflexivity].
    apply spaces_inv in Hm. destruct Hm as (c & pre & Hs & _). discriminate.
  - apply (split_scan_words (c :: s) 0 0 [] 0); [lia|simpl; lia|reflexivity].
Qed.

Lemma core_filter_is_nonempty (l : list jsstring) :
  filter (fun word => (jslength (core (splitWord word)) >? 0)%Z) l =
  filter nonempty l.
Proof.
  apply filter_ext. intros w.
  destruct w as [|c w]; [reflexivity|]. cbn [nonempty].
  apply Z.gtb_lt. unfold jslength.
  destruct (core (splitWord (c :: w))) eqn:E; [|simpl List.length; lia].
  apply (proj1 (splitWord_core_empty (c :: w))) in E. discriminate.
Qed.

(** [normalizeWords], with its two replacements, its trim, its split and
    its filter, is the one-pass tokenizer. *)
Lemma normalizeWords_tokens (text : jsstring) :
  normalizeWords text = tokens text.
Proof.
  unfold normalizeWords, candidates. cbv zeta.
  rewrite core_filter_is_nonempty, split_words, words_trim.
  set (t1 := replace_g glued_dash_re [TGrp 1; TGrp 2; TLit space; TGrp 3] text).
  rewrite (spaced_words _ [] false).
  - fold (tokens (replace_g spaced_dash_re
                    [TLit space; TGrp 1; TLit space] t1)).
    rewrite pass2_keeps_tokens. apply pass1_keeps_tokens.
  - discriminate.
  - apply (pass2_spaces_dashes (List.length t1)). lia.
Qed.

End TokensOfSplit.

(** ** What the tokenizer guarantees *)

Section TokenizerGuarantees.

(** X19. [normalizeWords] cuts the text at white space and makes every
    em-dash and en-dash a token of its own, and does nothing else: its
    two replacements, its trim, its split and its filter come to one
    pass over the text. *)
Theorem normalizeWords_is_one_pass :
  forall text : jsstring, normalizeWords text = tokens text.
Proof. exact normalizeWords_tokens. Qed.

Lemma plain_chars (c : char) :
  is_space c = false -> dash_class c = false -> plain_char c = true.
Proof. intros H1 H2. unfold plain_char. rewrite H1, H2. reflexivity. Qed.

Lemma token_shape_plain (w : jsstring) :
  w <> [] -> forallb plain_char w = true -> token_shape w = true.
Proof.
  intros Hne H. destruct w as [|c [|d w]]; [congruence| |exact H].
  simpl in *. rewrite andb_true_r in H. rewrite H. apply orb_true_r.
Qed.

Lemma flush_shape (cur : jsstring) :
  forallb plain_char cur = true -> Forall (fun w => token_shape w = true) (flush cur).
Proof.
  intros H. destruct cur as [|c cur]; [constructor|].
  constructor; [|constructor]. apply token_shape_plain; [discriminate|exact H].
Qed.

Lemma tokensFrom_shape (s : jsstring) :
  forall cur,
    forallb plain_char cur = true ->
    Forall (fun w => token_shape w = true) (tokensFrom s cur).
Proof.
  induction s as [|c s IH]; intros cur Hcur; cbn [tokensFrom].
  - apply flush_shape. exact Hcur.
  - destruct (is_space c) eqn:Hsp.
    + apply Forall_app. split; [apply flush_shape; exact Hcur|].
      apply IH. reflexivity.
    + destruct (dash_class c) eqn:Hd.
      * apply Forall_app. split; [apply flush_shape; exact Hcur|].
        constructor; [simpl; rewrite Hd; reflexivity|].
        apply IH. reflexivity.
      * apply IH. rewrite forallb_app, Hcur. simpl.
        rewrite (plain_chars c Hsp Hd). reflexivity.
Qed.

Lemma token_shape_cases (w : jsstring) :
  token_shape w = true ->
  w <> [] /\ forallb (fun c => negb (is_space c)) w = true /\
  (existsb dash_class w = true -> exists d, w = [d]).
Proof.
  destruct w as [|c [|d w]]; [discriminate| |].
  - simpl. intros H. split; [discriminate|]. split; [|eauto].
    rewrite andb_true_r. apply orb_prop in H. destruct H as [H|H].
    + rewrite (dash_not_space c H). reflexivity.
    + unfold plain_char in H. apply andb_prop in H. tauto.
  - intros H. cbn [token_shape] in H. split; [discriminate|].
    assert (Hall : forall l, forallb plain_char l = true ->
                             forallb (fun c => negb (is_space c)) l = true /\
                             existsb dash_class l = false).
    { induction l as [|x l IHl]; [split; reflexivity|]. simpl.
      intros Hl. apply andb_prop in Hl. destruct Hl as [Hx Hl].
      unfold plain_char in Hx. apply andb_prop in Hx. destruct Hx as [H1 H2].
      destruct (IHl Hl) as [-> ->]. rewrite H1.
      apply negb_true_iff in H2. rewrite H2. split; reflexivity. }
    destruct (Hall _ H) as [H1 H2]. split; [exact H1|].
    rewrite H2. discriminate.
Qed.

(** X20. Every token is non-empty and holds no white space, and a token that
    holds a dash is that dash alone. *)
Theorem normalizeWords_token_shape :
  forall (text w : jsstring),
    In w (normalizeWords text) ->
    w <> [] /\ forallb (fun c => negb (is_space c)) w = true /\
    (existsb dash_class w = true -> exists d, w = [d]).
Proof.
  intros text w Hin. rewrite normalizeWords_tokens in Hin.
  apply token_shape_cases.
  pose proof (tokensFrom_shape text [] eq_refl) as H.
  rewrite Forall_forall in H. apply H. exact Hin.
Qed.

Lemma normalizeWords_token_shape_witness :
  In [em_dash] (normalizeWords dashed_text) /\
  forallb (fun c => negb (is_space c)) [em_dash] = true.
Proof.
  assert (Hin : In [em_dash] (normalizeWords dashed_text))
    by (right; left; reflexivity).
  split; [exact Hin|].
  exact (proj1 (proj2 (normalizeWords_token_shape dashed_text [em_dash] Hin))).
Defined.

Lemma concat_flush (cur : jsstring) : List.concat (flush cur) = cur.
Proof. destruct cur; [reflexivity|]. simpl. rewrite app_nil_r. reflexivity. Qed.

Lemma tokensFrom_concat (s : jsstring) :
  forall cur,
    List.concat (tokensFrom s cur) =
    cur ++ filter (fun c => negb (is_space c)) s.
Proof.
  induction s as [|c s IH]; intros cur; cbn [tokensFrom filter].
  - rewrite concat_flush, app_nil_r. reflexivity.
  - destruct (is_space c) eqn:Hsp; cbn [negb].
    + rewrite concat_app, concat_flush, IH. reflexivity.
    + destruct (dash_class c).
      * rewrite concat_app, concat_flush. cbn [List.concat]. rewrite IH.
        reflexivity.
      * rewrite IH, <- app_assoc. reflexivity.
Qed.

(** X21. The tokenizer loses white space and nothing else: the tokens put end
    to end are the text without its white space, punctuation
    included. *)
Theorem normalizeWords_keeps_every_character :
  forall text : jsstring,
    List.concat (normalizeWords text) =
    filter (fun c => negb (is_space c)) text.
Proof.
  intros text. rewrite normalizeWords_tokens. unfold tokens.
  rewrite tokensFrom_concat. reflexivity.
Qed.

Lemma filter_nil_all (s : jsstring) :
  filter (fun c => negb (is_space c)) s = [] <-> forallb is_space s = true.
Proof.
  induction s as [|c s IH]; simpl; [tauto|].
  destruct (is_space c); simpl; [exact IH|]. split; discriminate.
Qed.

Lemma tokens_blank (text : jsstring) :
  tokens text = [] <-> forallb is_space text = true.
Proof.
  rewrite <- filter_nil_all. unfold tokens.
  pose proof (tokensFrom_concat text []) as Hc. cbn [app] in Hc.
  pose proof (tokensFrom_shape text [] eq_refl) as Hs.
  split.
  - intros H. rewrite H in Hc. symmetry. exact Hc.
  - intros H. rewrite H in Hc.
    destruct (tokensFrom text []) as [|w l]; [reflexivity|].
    inversion Hs as [|? ? Hw _]; subst.
    destruct w; [discriminate Hw|discriminate Hc].
Qed.

(** X22. A text gives no token exactly when it is empty or all white
    space. *)
Theorem normalizeWords_empty_iff_blank :
  forall text : jsstring,
    normalizeWords text = [] <-> forallb is_space text = true.
Proof.
  intros text. rewrite normalizeWords_tokens. apply tokens_blank.
Qed.

Lemma tokensFrom_at_space (a b : jsstring) (c : char) :
  is_space c = true ->
  forall cur,
    tokensFrom (a ++ c :: b) cur = tokensFrom a cur ++ tokensFrom b [].
Proof.
  intros Hc. induction a as [|x a IH]; intros cur.
  - cbn [app tokensFrom]. rewrite Hc. reflexivity.
  - cbn [app tokensFrom]. rewrite !IH.
    destruct (is_space x); [rewrite app_assoc; reflexivity|].
    destruct (dash_class x); [|reflexivity].
    rewrite app_comm_cons, app_assoc. reflexivity.
Qed.

(** X23. Two texts with a white space between them give the tokens of the
    first followed by the tokens of the second: no token spans the
    white space and none depends on what is on the other side. *)
Theorem normalizeWords_of_two_texts :
  forall (a b : jsstring) (c : char),
    is_space c = true ->
    normalizeWords (a ++ c :: b) = normalizeWords a ++ normalizeWords b.
Proof.
  intros a b c Hc. rewrite !normalizeWords_tokens. unfold tokens.
  apply tokensFrom_at_space. exact Hc.
Qed.

Lemma normalizeWords_of_two_texts_witness :
  is_space 10%N = true /\
  normalizeWords (lit "so -- ..." ++ 10%N :: dashed_text) =
  normalizeWords (lit "so -- ...") ++ normalizeWords dashed_text.
Proof.
  split; [reflexivity|].
  apply (normalizeWords_of_two_texts (lit "so -- ...") dashed_text 10%N).
  reflexivity.
Defined.

Lemma tokensFrom_plain_word (w Y : jsstring) :
  forallb plain_char w = true ->
  forall cur, tokensFrom (w ++ Y) cur = tokensFrom Y (cur ++ w).
Proof.
  induction w as [|c w IH]; intros H cur.
  - rewrite app_nil_r. reflexivity.
  - simpl in H. apply andb_prop in H. destruct H as [Hc Hw].
    unfold plain_char in Hc. apply andb_prop in Hc. destruct Hc as [H1 H2].
    apply negb_true_iff in H1, H2.
    cbn [app]. rewrite tokens_plain by assumption.
    rewrite IH by exact Hw. rewrite <- app_assoc. reflexivity.
Qed.

Lemma tokensFrom_token (w Y : jsstring) :
  token_shape w = true ->
  (Y = [] \/ exists c Y', Y = c :: Y' /\ is_space c = true) ->
  tokensFrom (w ++ Y) [] = w :: tokensFrom Y [].
Proof.
  intros Hw HY.
  assert (Hend : forall cur, cur <> [] ->
                             tokensFrom Y cur = cur :: tokensFrom Y []).
  { intros cur Hcur. destruct HY as [->|(c & Y' & -> & Hc)].
    - destruct cur; [congruence|reflexivity].
    - rewrite !tokens_space by exact Hc. destruct cur; [congruence|].
      reflexivity. }
  destruct w as [|c [|d w]]; [discriminate| |].
  - simpl in Hw. destruct (dash_class c) eqn:Hd.
    + cbn [app]. rewrite tokens_dash by exact Hd. reflexivity.
    + simpl in Hw. rewrite (tokensFrom_plain_word [c]).
      * apply Hend. discriminate.
      * simpl. rewrite Hw. reflexivity.
  - cbn [token_shape] in Hw. rewrite (tokensFrom_plain_word _ _ Hw).
    apply Hend. discriminate.
Qed.

Lemma tokens_of_join (l : list jsstring) :
  Forall (fun w => token_shape w = true) l ->
  tokens (join [space] l) = l.
Proof.
  unfold tokens. induction 1 as [|w l Hw Hl IH]; [reflexivity|].
  destruct l as [|w' l].
  - cbn [join]. rewrite <- (app_nil_r w) at 1.
    rewrite tokensFrom_token; [reflexivity|exact Hw|left; reflexivity].
  - rewrite join_cons by discriminate.
    rewrite tokensFrom_token; [|exact Hw|right; eexists _, _; split; reflexivity].
    cbn [app]. rewrite tokens_space by reflexivity. cbn [flush app].
    rewrite IH. reflexivity.
Qed.

(** X24. Joining the tokens with single spaces and tokenizing again gives the
    same tokens. *)
Theorem normalizeWords_stable :
  forall text : jsstring,
    normalizeWords (join [space] (normalizeWords text)) = normalizeWords text.
Proof.
  intros text. rewrite !normalizeWords_tokens. apply tokens_of_join.
  apply (tokensFrom_shape text [] eq_refl).
Qed.

End TokenizerGuarantees.

(** ** The words of an EPUB *)

Section WordsOfSections.

Lemma tokens_trailing_spaces (Y W : jsstring) :
  forallb is_space W = true ->
  forall cur, tokensFrom (Y ++ W) cur = tokensFrom Y cur.
Proof.
  intros HW. induction Y as [|c Y IH]; intros cur.
  - cbn [app]. destruct W as [|x W]; [reflexivity|].
    simpl in HW. apply andb_prop in HW. destruct HW as [Hx HW].
    rewrite tokens_space by exact Hx.
    rewrite <- (app_nil_r W), tokens_spaces_nil by exact HW.
    cbn [tokensFrom flush]. rewrite app_nil_r. reflexivity.
  - cbn [app tokensFrom]. rewrite !IH. reflexivity.
Qed.

Lemma tokens_trim (s : jsstring) : tokens (trim s) = tokens s.
Proof.
  unfold tokens, trim. fold (strip_trailing is_space (drop_while is_space s)).
  destruct (strip_trailing_run is_space (drop_while is_space s))
    as (run & Hs & Hrun).
  destruct (drop_while_run is_space s) as (lead & Hl & Hlead).
  rewrite Hl at 2. rewrite tokens_spaces_nil by exact Hlead.
  rewrite Hs at 2. rewrite tokens_trailing_spaces by exact Hrun.
  reflexivity.
Qed.

Lemma line_breaks_keep_tokens (s : jsstring) :
  tokens (replace_g (Cls line_break_or_tab) [TLit space] s) = tokens s.
Proof.
  unfold tokens, replace_g.
  apply (replace_keeps_tokens (Cls line_break_or_tab) _)
    with (n := List.length s); [|lia].
  intros i x st Hm. apply hd_error_in in Hm. apply run_cls_inv in Hm.
  destruct Hm as (c & s' & Hx & Hc & ->). cbn [pos rest caps] in *.
  exists 1. split; [lia|]. rewrite Hx. split; [simpl; lia|].
  intros X cur. cbn [expand flat_map app firstn].
  rewrite (tokens_space space) by reflexivity.
  rewrite (tokens_space c) by (apply line_break_is_space; exact Hc).
  reflexivity.
Qed.

Lemma collapsing_keeps_tokens (s : jsstring) :
  tokens (replace_g spaces_re [TLit space] s) = tokens s.
Proof.
  unfold tokens, replace_g.
  apply (replace_keeps_tokens spaces_re _) with (n := List.length s); [|lia].
  intros i x st Hm. apply spaces_inv in Hm.
  destruct Hm as (c & pre & Hx & Hc & Hpre & Hp).
  exists (S (List.length pre)). split; [lia|].
  split; [rewrite Hx; simpl; rewrite length_app; lia|].
  intros X cur. cbn [expand flat_map app].
  rewrite (tokens_space space) by reflexivity.
  assert (Hfirst : firstn (S (List.length pre)) x = c :: pre).
  { rewrite Hx. cbn [firstn]. f_equal.
    rewrite firstn_app, firstn_all, Nat.sub_diag. simpl.
    apply app_nil_r. }
  rewrite Hfirst. cbn [app]. rewrite (tokens_space c) by exact Hc.
  rewrite tokens_spaces_nil by exact Hpre. reflexivity.
Qed.

Lemma cleanText_keeps_tokens (rawText : jsstring) :
  tokens (cleanText rawText) = tokens rawText.
Proof.
  unfold cleanText.
  rewrite tokens_trim, collapsing_keeps_tokens, line_breaks_keep_tokens.
  reflexivity.
Qed.

Lemma sectionWords_textTokens (item : spineItem) :
  sectionWords item = textTokens item.
Proof.
  unfold sectionWords, textTokens. destruct (sp_text item) as [raw|]; [|reflexivity].
  rewrite normalizeWords_tokens, cleanText_keeps_tokens.
  destruct (Z.gtb_spec (jslength (cleanText raw)) 0) as [_|Hle]; [reflexivity|].
  rewrite <- (cleanText_keeps_tokens raw).
  destruct (cleanText raw) as [|c r]; [reflexivity|].
  unfold jslength in Hle. simpl List.length in Hle. lia.
Qed.

(** X25. The words of an EPUB are the tokens of the raw texts of its sections
    in the order of the spine: replacing line breaks and tabs, collapsing
    white space, trimming and skipping a section without text change no
    word, and no word spans two sections. *)
Theorem parseEpub_words_are_section_tokens :
  forall (nav : list navItem) (spine : list spineItem)
         (ws : list jsstring) (toc : list tocItem),
    parseEpub nav spine = Some (ws, toc) ->
    ws = flat_map textTokens spine.
Proof.
  intros nav spine ws toc H. rewrite parseEpub_loop in H.
  destruct (flat_map sectionWords spine) as [|w l] eqn:Hf; [discriminate|].
  injection H as <- _. rewrite <- Hf.
  apply flat_map_ext. intros item. apply sectionWords_textTokens.
Qed.

Lemma parseEpub_words_are_section_tokens_witness :
  [lit "Hi"; lit "you"; lit "a"; lit "b"; lit "c"; lit "d"; lit "e"] =
  flat_map textTokens small_spine.
Proof.
  apply (parseEpub_words_are_section_tokens small_nav small_spine _
           [TocItem (lit "One") 2; TocItem (lit "Two") 5;
            TocItem (lit "After") 7]).
  reflexivity.
Defined.

End WordsOfSections.

(** ** Pauses *)

Section Pauses.

(** X26. [normalizeTrailingForPause] takes off the closing quotes and brackets
    at the end of the fragment and nothing else: the fragment is the
    result followed by closers only, and the result does not end in a
    closer. *)
Theorem normalizeTrailingForPause_strips_closers :
  forall trailing : jsstring,
    (exists run,
       trailing = normalizeTrailingForPause trailing ++ run /\
       forallb (one_of closers) run = true) /\
    ends_with (one_of closers) (normalizeTrailingForPause trailing) = false.
Proof.
  intros t.
  assert (Hn : normalizeTrailingForPause t = strip_trailing (one_of closers) t).
  { destruct t as [|c t]; [reflexivity|]. apply replace_plus_eol. }
  rewrite Hn. split; [apply strip_trailing_run|].
  unfold ends_with, strip_trailing. rewrite rev_involutive.
  destruct (drop_while (one_of closers) (rev t)) as [|c r] eqn:Hd;
    [reflexivity|].
  exact (drop_while_head _ _ _ _ Hd).
Qed.

Lemma contains_in (x : char) (a s : jsstring) :
  contains (x :: a) s = true -> In x s.
Proof.
  induction s as [|c s IH]; simpl.
  - discriminate.
  - intros H. apply orb_prop in H. destruct H as [H|H].
    + apply andb_prop in H. destruct H as [H _]. apply N.eqb_eq in H.
      left. symmetry. exact H.
    + right. apply IH. exact H.
Qed.

(** A word made of letters and digits only is shown for the base
    interval: its multiplier is 1. *)
Theorem plain_word_has_no_pause :
  forall w : jsstring,
    forallb alnum w = true -> getPauseMultiplier w = 1%float.
Proof.
  intros w Hw. rewrite getPauseMultiplier_spec. unfold specMultiplier.
  assert (Ht : trailing (splitWord w) = []).
  { rewrite splitWord_is_direct_eq. unfold splitDirect.
    destruct w as [|a r]; [reflexivity|].
    simpl in Hw. apply andb_prop in Hw. destruct Hw as [Ha Hr].
    cbn [drop_while]. unfold not_alnum at 1. rewrite Ha. cbn [negb].
    assert (Hcore : forallb core_char r = true).
    { rewrite forallb_forall in Hr |- *. intros c Hc. unfold core_char.
      rewrite (Hr c Hc). reflexivity. }
    rewrite (drop_while_all core_char r Hcore). reflexivity. }
  rewrite Ht. cbn.
  assert (Hno : forall x a, alnum x = false -> contains (x :: a) w = false).
  { intros x a Hx. destruct (contains (x :: a) w) eqn:Hc; [|reflexivity].
    apply contains_in in Hc. rewrite forallb_forall in Hw.
    rewrite (Hw x Hc) in Hx. discriminate. }
  rewrite !Hno by reflexivity. reflexivity.
Qed.

Lemma plain_word_has_no_pause_witness :
  forallb alnum (lit "Chapter7") = true /\
  getPauseMultiplier (lit "Chapter7") = 1%float.
Proof.
  split; [reflexivity|].
  apply (plain_word_has_no_pause (lit "Chapter7")). reflexivity.
Defined.

End Pauses.

(** ** Text files *)

Section TextFiles.

Lemma subseq_nil_l (b : jsstring) : subseq [] b.
Proof. induction b; constructor; assumption. Qed.

Lemma subseq_refl (a : jsstring) : subseq a a.
Proof. induction a; constructor; assumption. Qed.

Lemma subseq_nil_inv (a : jsstring) : subseq a [] -> a = [].
Proof. inversion 1. reflexivity. Qed.

Lemma subseq_app (a b c d : jsstring) :
  subseq a b -> subseq c d -> subseq (a ++ c) (b ++ d).
Proof.
  intros Hab Hcd. induction Hab; cbn [app]; [exact Hcd| |];
    constructor; assumption.
Qed.

Lemma subseq_trans (a b c : jsstring) :
  subseq a b -> subseq b c -> subseq a c.
Proof.
  intros Hab Hbc. revert a Hab.
  induction Hbc as [|x b c Hbc IH|x b c Hbc IH]; intros a Hab.
  - exact Hab.
  - apply subseq_skip. apply IH. exact Hab.
  - inversion Hab as [|y a' b' Ha|y a' b' Ha]; subst.
    + apply subseq_skip. apply IH. exact Ha.
    + apply subseq_keep. apply IH. exact Ha.
Qed.

Lemma subseq_filter (f : char -> bool) (a b : jsstring) :
  subseq a b -> subseq (filter f a) (filter f b).
Proof.
  induction 1 as [|x a b H IH|x a b H IH]; cbn [filter].
  - constructor.
  - destruct (f x); [apply subseq_skip|]; exact IH.
  - destruct (f x); [apply subseq_keep|]; exact IH.
Qed.

(** The characters that are not white space. *)
Lemma visible_app (a b : jsstring) :
  filter (fun c => negb (is_space c)) (a ++ b) =
  filter (fun c => negb (is_space c)) a ++
  filter (fun c => negb (is_space c)) b.
Proof. apply filter_app. Qed.

Lemma replace_scan_by (r : regex) (t : list titem) (s : jsstring) :
  forall prev i k,
    replace_scan r t i s k =
    scan_by (fun _ j suffix => match_at r j suffix) t prev i s k.
Proof.
  induction s as [|c s IH]; intros prev i k.
  - destruct k; reflexivity.
  - destruct k as [|k]; cbn [replace_scan scan_by].
    + destruct (match_at r i (c :: s)) as [st|].
      * destruct (pos st - i); rewrite <- IH; reflexivity.
      * rewrite <- IH. reflexivity.
    + apply IH.
Qed.

Lemma match_at_length (r : regex) (i : nat) (s : jsstring) (st : mstate) :
  match_at r i s = Some st -> pos st - i <= List.length s.
Proof.
  intros H. apply hd_error_in in H. apply run_consumes in H.
  destruct H as (pre & Hs & Hp). cbn [pos rest] in *.
  rewrite Hs, length_app. lia.
Qed.

(** A global replacement invents no visible character when what it puts
    in the place of a match is taken from the match. *)
Lemma scan_subseq (m : option char -> nat -> jsstring -> option mstate)
    (t : list titem) :
  (forall prev i s st,
     m prev i s = Some st ->
     pos st - i <= List.length s /\
     subseq (filter (fun c => negb (is_space c)) (expand t (caps st)))
            (filter (fun c => negb (is_space c)) (firstn (pos st - i) s))) ->
  forall s prev i k,
    k <= List.length s ->
    subseq (filter (fun c => negb (is_space c)) (scan_by m t prev i s k))
           (filter (fun c => negb (is_space c)) (skipn k s)).
Proof.
  intros Hm. induction s as [|c s IH]; intros prev i k Hk.
  - destruct k as [|k]; [|simpl in Hk; lia]. cbn [scan_by skipn].
    destruct (m prev i []) as [st|] eqn:Hst; [|constructor].
    destruct (Hm _ _ _ _ Hst) as [_ Hsub]. rewrite firstn_nil in Hsub.
    rewrite app_nil_r. exact Hsub.
  - destruct k as [|k].
    + cbn [scan_by skipn].
      assert (Hc : forall rest,
                 subseq (filter (fun c => negb (is_space c)) rest)
                        (filter (fun c => negb (is_space c)) s) ->
                 subseq (filter (fun c => negb (is_space c)) (c :: rest))
                        (filter (fun c => negb (is_space c)) (c :: s))).
      { intros rest0 H. cbn [filter]. destruct (negb (is_space c));
          [apply subseq_keep|]; exact H. }
      destruct (m prev i (c :: s)) as [st|] eqn:Hst.
      * destruct (Hm _ _ _ _ Hst) as [Hlen Hsub].
        rewrite visible_app.
        destruct (pos st - i) as [|d] eqn:Hd.
        -- cbn [firstn filter] in Hsub. apply subseq_nil_inv in Hsub.
           rewrite Hsub. cbn [app]. apply Hc.
           apply (IH (Some c) (S i) 0). lia.
        -- replace (filter (fun c0 => negb (is_space c0)) (c :: s))
             with (filter (fun c0 => negb (is_space c0)) (firstn (S d) (c :: s))
                   ++ filter (fun c0 => negb (is_space c0))
                        (skipn (S d) (c :: s)))
             by (rewrite <- visible_app, firstn_skipn; reflexivity).
           apply subseq_app; [exact Hsub|].
           cbn [skipn]. apply IH. simpl in Hlen. lia.
      * apply Hc. apply (IH (Some c) (S i) 0). lia.
    + cbn [scan_by skipn]. apply IH. simpl in Hk. lia.
Qed.

(** A match replaced by a space. *)
Lemma blanking_subseq (m : option char -> nat -> jsstring -> option mstate)
    (r : regex) (s : jsstring) :
  (forall prev i x st, m prev i x = Some st -> match_at r i x = Some st) ->
  subseq (filter (fun c => negb (is_space c))
            (scan_by m [TLit space] None 0 s 0))
         (filter (fun c => negb (is_space c)) s).
Proof.
  intros Hm. apply (scan_subseq m [TLit space]) with (k := 0); [|lia].
  intros prev i x st Hst. apply Hm in Hst.
  split; [apply (match_at_length r); exact Hst|].
  cbn. apply subseq_nil_l.
Qed.

Lemma replace_g_blank_subseq (r : regex) (s : jsstring) :
  subseq (filter (fun c => negb (is_space c)) (replace_g r [TLit space] s))
         (filter (fun c => negb (is_space c)) s).
Proof.
  unfold replace_g. rewrite (replace_scan_by r _ s None).
  apply (blanking_subseq _ r). auto.
Qed.

Lemma replace_gm_blank_subseq (r : regex) (s : jsstring) :
  subseq (filter (fun c => negb (is_space c)) (replace_gm r [TLit space] s))
         (filter (fun c => negb (is_space c)) s).
Proof.
  unfold replace_gm. apply (blanking_subseq _ r).
  intros prev i x st. destruct (line_start prev); [auto|discriminate].
Qed.

Lemma run_plus_inv (p : char -> bool) (st st' : mstate) :
  In st' (run (Plus p) st) ->
  exists pre,
    rest st = pre ++ rest st' /\ pre <> [] /\ forallb p pre = true /\
    pos st' = pos st + List.length pre /\ caps st' = caps st.
Proof.
  unfold Plus. intros H. apply run_seq_inv in H. destruct H as (m & H1 & H).
  apply run_cls_inv in H1. destruct H1 as (c & s' & Hs & Hc & ->).
  apply run_star_inv in H. destruct H as (pre & Hs' & Hpre & Hp & Hcap).
  cbn [pos rest caps] in *. exists (c :: pre).
  split; [rewrite Hs, Hs'; reflexivity|]. split; [discriminate|].
  split; [simpl; rewrite Hc; exact Hpre|].
  split; [simpl; lia|exact Hcap].
Qed.

(** A match of the link pattern: the label, which is the group, then the
    target. *)
Lemma link_inv (i : nat) (s : jsstring) (st : mstate) :
  match_at link_re i s = Some st ->
  exists label target,
    s = lbracket :: label ++ rbracket :: lparen :: target ++ rparen :: rest st /\
    caps st = [label] /\
    pos st = i + (List.length label + List.length target + 4).
Proof.
  intros H. apply hd_error_in in H. unfold link_re, Lit in H.
  apply run_seq_inv in H. destruct H as (m1 & H1 & H).
  apply run_cls_inv in H1. destruct H1 as (c1 & s1 & Hs1 & Hc1 & ->).
  apply N.eqb_eq in Hc1. subst c1.
  apply run_seq_inv in H. destruct H as (m2 & H2 & H).
  apply run_grp_inv in H2.
  destruct H2 as (g & label & Hg & Hl & Hp2 & Hr2 & Hcap2).
  apply run_plus_inv in Hg.
  destruct Hg as (pre & Hpre & _ & _ & Hpos & Hcapg).
  cbn [pos rest caps] in *.
  assert (pre = label) by (rewrite Hpre in Hl; apply app_inv_tail in Hl; auto).
  subst pre.
  apply run_seq_inv in H. destruct H as (m3 & H3 & H).
  apply run_cls_inv in H3. destruct H3 as (c3 & s3 & Hs3 & Hc3 & ->).
  apply N.eqb_eq in Hc3. subst c3.
  apply run_seq_inv in H. destruct H as (m4 & H4 & H).
  apply run_cls_inv in H4. destruct H4 as (c4 & s4 & Hs4 & Hc4 & ->).
  apply N.eqb_eq in Hc4. subst c4. cbn [pos rest caps] in *.
  apply run_seq_inv in H. destruct H as (m5 & H5 & H).
  apply run_plus_inv in H5.
  destruct H5 as (target & Ht & _ & _ & Hp5 & Hcap5).
  apply run_cls_inv in H. destruct H as (c6 & s6 & Hs6 & Hc6 & ->).
  apply N.eqb_eq in Hc6. subst c6. cbn [pos rest caps] in *.
  exists label, target. split; [|split].
  - rewrite Hs1, Hl, <- Hr2, Hs3, Hs4, Ht, Hs6. reflexivity.
  - rewrite Hcap5, Hcap2, Hcapg. reflexivity.
  - rewrite Hp5, Hp2, Hpos. lia.
Qed.

Lemma link_subseq (s : jsstring) :
  subseq (filter (fun c => negb (is_space c)) (replace_g link_re [TGrp 1] s))
         (filter (fun c => negb (is_space c)) s).
Proof.
  unfold replace_g. rewrite (replace_scan_by link_re _ s None).
  apply (scan_subseq _ [TGrp 1]) with (k := 0); [|lia].
  intros prev i x st Hst.
  split; [apply (match_at_length link_re); exact Hst|].
  apply link_inv in Hst. destruct Hst as (label & target & Hx & Hcap & Hp).
  rewrite Hcap, Hp, Hx. cbn [expand flat_map nth Nat.sub]. rewrite app_nil_r.
  replace (i + (List.length label + List.length target + 4) - i)
    with (S (List.length label + (List.length target + 3))) by lia.
  cbn [firstn]. rewrite firstn_app.
  apply subseq_filter. apply subseq_skip.
  rewrite <- (app_nil_r label) at 1. apply subseq_app.
  - rewrite firstn_all2 by lia. apply subseq_refl.
  - apply subseq_nil_l.
Qed.

(** [stripMarkdown] invents no visible character. *)
Lemma stripMarkdown_subseq (text : jsstring) :
  subseq (filter (fun c => negb (is_space c)) (stripMarkdown text))
         (filter (fun c => negb (is_space c)) text).
Proof.
  unfold stripMarkdown.
  repeat
    (eapply subseq_trans;
     [first [apply replace_g_blank_subseq | apply replace_gm_blank_subseq
            | apply link_subseq]|]).
  apply subseq_refl.
Qed.

(** X27. The words of a text file invent nothing: put end to end they are
    characters of the file in the order of the file, without the white
    space.  Removing Markdown only leaves characters out. *)
Theorem parseText_invents_nothing :
  forall text : jsstring,
    subseq (List.concat (parseText text))
           (filter (fun c => negb (is_space c)) text).
Proof.
  intros text. unfold parseText.
  rewrite normalizeWords_tokens. unfold tokens.
  rewrite tokensFrom_concat. cbn [app].
  apply stripMarkdown_subseq.
Qed.

(** A pattern that needs a character of a class matches only where one
    is ahead. *)
Lemma needs_run (p : char -> bool) (r : regex) :
  needs p r ->
  forall st st',
    In st' (run r st) -> exists c, In c (rest st) /\ p c = true.
Proof.
  induction 1 as [q Hq|r1 r2 _ IH|r1 r2 _ IH|r1 r2 _ IH1 _ IH2|r _ IH];
    intros st st' Hin.
  - apply run_cls_inv in Hin. destruct Hin as (c & s' & Hs & Hc & _).
    exists c. rewrite Hs. split; [left; reflexivity|apply Hq; exact Hc].
  - apply run_seq_inv in Hin. destruct Hin as (m & H1 & _).
    apply (IH _ _ H1).
  - apply run_seq_inv in Hin. destruct Hin as (m & H1 & H2).
    destruct (IH _ _ H2) as (c & Hc & Hp).
    apply run_consumes in H1. destruct H1 as (pre & Hs & _).
    exists c. rewrite Hs. split; [apply in_or_app; right; exact Hc|exact Hp].
  - cbn [run] in Hin. apply in_app_or in Hin. destruct Hin as [Hin|Hin].
    + apply (IH1 _ _ Hin).
    + apply (IH2 _ _ Hin).
  - apply run_grp_inv in Hin. destruct Hin as (m & pre & Hm & _).
    apply (IH _ _ Hm).
Qed.

(** Without a match anywhere the replacement gives the text back. *)
Lemma scan_no_match (m : option char -> nat -> jsstring -> option mstate)
    (t : list titem) (p : char -> bool) :
  (forall prev i x st,
     m prev i x = Some st -> exists c, In c x /\ p c = true) ->
  forall s prev i,
    forallb (fun c => negb (p c)) s = true ->
    scan_by m t prev i s 0 = s.
Proof.
  intros Hm. induction s as [|c s IH]; intros prev i Hs.
  - cbn [scan_by]. destruct (m prev i []) as [st|] eqn:Hst; [|reflexivity].
    destruct (Hm _ _ _ _ Hst) as (x & [] & _).
  - cbn [scan_by]. destruct (m prev i (c :: s)) as [st|] eqn:Hst.
    + exfalso. destruct (Hm _ _ _ _ Hst) as (x & Hx & Hp).
      rewrite forallb_forall in Hs. specialize (Hs x Hx).
      rewrite Hp in Hs. discriminate.
    + simpl in Hs. apply andb_prop in Hs. destruct Hs as [_ Hs].
      rewrite IH by exact Hs. reflexivity.
Qed.

Lemma replace_g_no_match (r : regex) (t : list titem) (p : char -> bool)
    (s : jsstring) :
  needs p r -> forallb (fun c => negb (p c)) s = true ->
  replace_g r t s = s.
Proof.
  intros Hr Hs. unfold replace_g. rewrite (replace_scan_by r t s None).
  apply (scan_no_match _ t p); [|exact Hs].
  intros prev i x st Hst. apply hd_error_in in Hst.
  apply (needs_run p r Hr _ _ Hst).
Qed.

Lemma replace_gm_no_match (r : regex) (t : list titem) (p : char -> bool)
    (s : jsstring) :
  needs p r -> forallb (fun c => negb (p c)) s = true ->
  replace_gm r t s = s.
Proof.
  intros Hr Hs. unfold replace_gm.
  apply (scan_no_match _ t p); [|exact Hs].
  intros prev i x st Hst. destruct (line_start prev); [|discriminate].
  apply hd_error_in in Hst. apply (needs_run p r Hr _ _ Hst).
Qed.

Lemma needs_lit (c : char) : markup c = true -> needs markup (Lit c).
Proof.
  intros Hc. apply needs_cls. intros x Hx. apply N.eqb_eq in Hx.
  subst x. exact Hc.
Qed.

Lemma needs_plus (p : char -> bool) :
  (forall c, p c = true -> markup c = true) -> needs markup (Plus p).
Proof. intros H. apply needs_first, needs_cls, H. Qed.

Lemma needs_fence (n : nat) : needs markup (fence_re n).
Proof. apply needs_first, needs_lit. reflexivity. Qed.

Lemma needs_code : needs markup code_re.
Proof. apply needs_first, needs_lit. reflexivity. Qed.

Lemma needs_image : needs markup image_re.
Proof. apply needs_second, needs_first, needs_lit. reflexivity. Qed.

Lemma needs_link : needs markup link_re.
Proof. apply needs_first, needs_lit. reflexivity. Qed.

Lemma needs_heading : needs markup heading_re.
Proof.
  apply needs_second, needs_first, needs_plus.
  intros c Hc. apply N.eqb_eq in Hc. subst c. reflexivity.
Qed.

Lemma needs_bullet : needs markup bullet_re.
Proof.
  apply needs_second, needs_first, needs_cls.
  intros c Hc. unfold one_of in Hc. cbn [existsb] in Hc.
  rewrite !orb_true_iff, !N.eqb_eq in Hc.
  destruct Hc as [->|[->|[->|Hc]]]; [reflexivity..|discriminate Hc].
Qed.

Lemma needs_numbered : needs markup numbered_re.
Proof.
  apply needs_second, needs_first, needs_plus.
  intros c Hc. unfold markup. rewrite Hc. apply orb_true_r.
Qed.

Lemma needs_quote : needs markup quote_re.
Proof.
  apply needs_second, needs_first, needs_plus.
  intros c Hc. apply N.eqb_eq in Hc. subst c. reflexivity.
Qed.

Lemma needs_rule : needs markup rule_re.
Proof. apply needs_first, needs_lit. reflexivity. Qed.

(** X28. A text without backtick, square bracket, [#], [*], [+], hyphen, [>]
    and digit goes through [stripMarkdown] with nothing but its white
    space changed, so a text file of such prose is read as
    [normalizeWords] reads the text itself. *)
Theorem parseText_of_plain_prose :
  forall text : jsstring,
    forallb (fun c => negb (markup c)) text = true ->
    stripMarkdown text = replace_g spaces_re [TLit space] text /\
    parseText text = normalizeWords text.
Proof.
  intros text H.
  assert (Hs : stripMarkdown text = replace_g spaces_re [TLit space] text).
  { unfold stripMarkdown.
    rewrite (replace_g_no_match _ _ markup text (needs_fence _) H).
    rewrite (replace_g_no_match _ _ markup text needs_code H).
    rewrite (replace_g_no_match _ _ markup text needs_image H).
    rewrite (replace_g_no_match _ _ markup text needs_link H).
    rewrite (replace_gm_no_match _ _ markup text needs_heading H).
    rewrite (replace_gm_no_match _ _ markup text needs_bullet H).
    rewrite (replace_gm_no_match _ _ markup text needs_numbered H).
    rewrite (replace_gm_no_match _ _ markup text needs_quote H).
    rewrite (replace_g_no_match _ _ markup text needs_rule H).
    reflexivity. }
  split; [exact Hs|].
  unfold parseText. rewrite Hs, !normalizeWords_tokens.
  apply collapsing_keeps_tokens.
Qed.

Lemma parseText_of_plain_prose_witness :
  forallb (fun c => negb (markup c)) (lit "Well, it's here: (see)!") = true /\
  parseText (lit "Well, it's here: (see)!") =
  normalizeWords (lit "Well, it's here: (see)!").
Proof.
  split; [reflexivity|].
  apply (parseText_of_plain_prose (lit "Well, it's here: (see)!")).
  reflexivity.
Defined.

End TextFiles.

(** ** Opening a book *)

Section Opening.

Lemma space_not_markup (c : char) : is_space c = true -> markup c = false.
Proof.
  unfold markup, digit, is_space, in_range, one_of. cbn [existsb].
  unfold backtick, lbracket, hash, asterisk, plus_sign, hyphen, greater.
  rewrite !orb_true_iff, !andb_true_iff, !N.leb_le, !N.eqb_eq.
  rewrite !orb_false_iff, !andb_false_iff, !N.leb_gt, !N.eqb_neq. lia.
Qed.

Lemma parseText_blank (text : jsstring) :
  forallb is_space text = true -> parseText text = [].
Proof.
  intros H. unfold parseText. rewrite normalizeWords_tokens.
  apply tokens_blank.
  assert (Hplain : forallb (fun c => negb (markup c)) text = true).
  { rewrite forallb_forall in H |- *. intros c Hc.
    rewrite (space_not_markup c (H c Hc)). reflexivity. }
  unfold stripMarkdown.
  rewrite (replace_g_no_match _ _ markup text (needs_fence _) Hplain).
  rewrite (replace_g_no_match _ _ markup text needs_code Hplain).
  rewrite (replace_g_no_match _ _ markup text needs_image Hplain).
  rewrite (replace_g_no_match _ _ markup text needs_link Hplain).
  rewrite (replace_gm_no_match _ _ markup text needs_heading Hplain).
  rewrite (replace_gm_no_match _ _ markup text needs_bullet Hplain).
  rewrite (replace_gm_no_match _ _ markup text needs_numbered Hplain).
  rewrite (replace_gm_no_match _ _ markup text needs_quote Hplain).
  rewrite (replace_g_no_match _ _ markup text needs_rule Hplain).
  apply tokens_blank. rewrite collapsing_keeps_tokens.
  apply tokens_blank. exact H.
Qed.

(** X29. A blank book is treated differently by type.  A text file that is
    empty or all white space opens, with no word and no chapter, as long
    as the stored progress can be read; an EPUB none of whose sections
    holds a word is never opened, whatever is stored. *)
Theorem parseBook_without_words :
  forall (book : bookFile) (item : stored),
    (f_type book <> lit "epub" ->
     forallb is_space (f_text book) = true ->
     parseBook book item = restoreLocation [] [] item) /\
    (f_type book = lit "epub" ->
     (forall nav spine,
        f_epub book = Some (nav, spine) ->
        Forall (fun section => textTokens section = []) spine) ->
     parseBook book item = Aborted).
Proof.
  intros book item. unfold parseBook. split.
  - intros Ht Hblank. rewrite (proj2 (str_eqb_neq _ _) Ht).
    rewrite (parseText_blank _ Hblank). reflexivity.
  - intros Ht Hall. rewrite Ht.
    replace (str_eqb (lit "epub") (lit "epub")) with true by reflexivity.
    destruct (f_epub book) as [[nav spine]|]; [|reflexivity].
    specialize (Hall nav spine eq_refl).
    assert (Hnone : parseEpub nav spine = None).
    { rewrite parseEpub_loop.
      assert (Hf : flat_map sectionWords spine = []).
      { apply flat_map_nil_iff. rewrite Forall_forall in Hall |- *.
        intros x Hx. rewrite sectionWords_textTokens. apply Hall. exact Hx. }
      rewrite Hf. reflexivity. }
    rewrite Hnone. reflexivity.
Qed.

Lemma parseBook_without_words_witness :
  parseBook blank_text_file Missing =
    Opened (Session [] [] (JNum 0) (JArr []) false) /\
  parseBook blank_epub_file Missing = Aborted.
Proof.
  split.
  - apply (proj1 (parseBook_without_words blank_text_file Missing));
      [discriminate|reflexivity].
  - apply (proj2 (parseBook_without_words blank_epub_file Missing));
      [reflexivity|].
    intros nav spine [= <- <-]. repeat constructor.
Defined.

End Opening.

(** ** Keys *)

Section Keys.

Lemma lt_le (a b : float) :
  PrimFloat.ltb a b = true -> PrimFloat.leb a b = true.
Proof.
  rewrite ltb_spec, leb_spec. unfold SFltb, SFleb.
  destruct (SFcompare (Prim2SF a) (Prim2SF b)) as [[| |]|];
    try discriminate; reflexivity.
Qed.

Lemma eq_le (a b : float) :
  PrimFloat.eqb a b = true -> PrimFloat.leb a b = true.
Proof.
  rewrite eqb_spec, leb_spec. unfold SFeqb, SFleb.
  destruct (SFcompare (Prim2SF a) (Prim2SF b)) as [[| |]|];
    try discriminate; reflexivity.
Qed.

Lemma eq_zero_ge (a : float) :
  PrimFloat.eqb a 0 = true -> PrimFloat.leb 0 a = true.
Proof.
  rewrite eqb_spec, leb_spec.
  change (Prim2SF 0) with (S754_zero false). unfold SFeqb, SFleb.
  destruct (Prim2SF a) as [s|s| |s m e]; simpl; try discriminate;
    try reflexivity; destruct s; discriminate.
Qed.

Lemma Math_min_le (a : float) :
  PrimFloat.is_nan a = false ->
  PrimFloat.leb (Math_min a 1000) 1000 = true.
Proof.
  intros Ha. unfold Math_min. rewrite Ha. cbn [orb].
  replace (PrimFloat.is_nan 1000) with false by reflexivity.
  destruct (PrimFloat.ltb a 1000) eqn:Hlt; [apply lt_le; exact Hlt|].
  destruct (PrimFloat.eqb a 1000) eqn:Heq; [|reflexivity].
  destruct (classify a); try reflexivity. apply eq_le. exact Heq.
Qed.

Lemma Math_max_ge (a : float) :
  PrimFloat.is_nan a = false ->
  PrimFloat.leb 0 (Math_max a 0) = true.
Proof.
  intros Ha. unfold Math_max. rewrite Ha. cbn [orb].
  replace (PrimFloat.is_nan 0) with false by reflexivity.
  destruct (PrimFloat.ltb 0 a) eqn:Hlt; [apply lt_le; exact Hlt|].
  destruct (PrimFloat.eqb a 0) eqn:Heq; [|reflexivity].
  destruct (classify a); try reflexivity. apply eq_zero_ge. exact Heq.
Qed.

Lemma jump_stays (amount : Z) (st : reader) :
  (0 <= currentIndex st < jslength (words st))%Z ->
  (0 <= currentIndex (jump amount st) < jslength (words st))%Z.
Proof. unfold jump. cbn [currentIndex]. lia. Qed.

(** X30. No key takes the reader out of its book: the words and the chapters
    are never touched and a valid position stays valid.  The rate moves
    with the up and down arrows only, and unless it is NaN the up arrow
    leaves it at 1000 at most and the down arrow at 0 at least.  A key
    pressed in an input field does nothing. *)
Theorem handleKey_keeps_reader :
  forall (e : keyEvent) (st : reader),
    words (handleKey e st) = words st /\
    toc (handleKey e st) = toc st /\
    ((0 <= currentIndex st < jslength (words st))%Z ->
     (0 <= currentIndex (handleKey e st) < jslength (words st))%Z) /\
    match code e with
    | ArrowUp =>
        onInput e = false -> PrimFloat.is_nan (wpm st + 10) = false ->
        PrimFloat.leb (wpm (handleKey e st)) 1000 = true
    | ArrowDown =>
        onInput e = false -> PrimFloat.is_nan (wpm st - 10) = false ->
        PrimFloat.leb 0 (wpm (handleKey e st)) = true
    | _ => wpm (handleKey e st) = wpm st
    end /\
    (onInput e = true -> handleKey e st = st).
Proof.
  intros [c ctrl meta shift input] st. unfold handleKey.
  cbn [code ctrlKey metaKey shiftKey onInput].
  destruct input.
  - split; [reflexivity|]. split; [reflexivity|]. split; [auto|].
    split; [|reflexivity].
    destruct c; try reflexivity; intros H; discriminate H.
  - split; [|split; [|split; [|split]]].
    + destruct c; try reflexivity;
        destruct (ctrl || meta)%bool; try reflexivity;
        destruct shift; reflexivity.
    + destruct c; try reflexivity;
        destruct (ctrl || meta)%bool; try reflexivity;
        destruct shift; reflexivity.
    + intros Hin. destruct c; try exact Hin;
        destruct (ctrl || meta)%bool; try (apply jump_stays; exact Hin);
        destruct shift; apply jump_stays; exact Hin.
    + destruct c; try reflexivity;
        try (destruct (ctrl || meta)%bool; try reflexivity;
             destruct shift; reflexivity).
      * intros _ Hn. cbn [setWpm wpm]. apply Math_min_le. exact Hn.
      * intros _ Hn. cbn [setWpm wpm]. apply Math_max_ge. exact Hn.
    + discriminate.
Qed.

End Keys.
